(** * fish-tree: the worktree / project data layer, in Rocq

    A shallow embedding of the TypeScript sources of fish-tree:

    - [git/types.ts]: [Worktree], [Project], [GitError], [GitResult];
    - [git/worktree.ts] (the last part of the bundle [src/app.tsx]):
      [parsePorcelain], [classifyGitError], [listWorktrees], [addWorktree],
      [isWorktreeDirty];
    - [git/repo.ts]: [detectGitDir], [loadProject], [discoverProjects];
    - [cli/commands.ts]: [fuzzyMatch];
    - [state/store.ts] (the first part of [unnamed/part_001]):
      [buildFilteredItems], [initialState], [appReducer].

    Strings are JavaScript strings restricted to code units below 256 (ASCII
    and Latin-1), carried by Rocq's [string]; the numbers that the code uses
    as indices, deltas and scores are integers ([Z]). Subprocesses, the file
    system and the functions of [node:path] are the members of the [Host]
    interface; an asynchronous function is a state transformer over the
    host's world. *)

From Stdlib Require Import ZArith Lia Ascii String List Bool Sorted Permutation.
From stdpp Require Import base tactics option list gmap strings pretty.

Local Open Scope Z_scope.

Local Arguments String.append !_ _ / : simpl nomatch.

(** ** JavaScript string primitives *)

Module JS.

(** The line feed, and the two separators the parser splits on. *)
Definition LF : ascii := ascii_of_nat 10.
Definition nl : string := String LF "".
Definition nlnl : string := String LF (String LF "").

(** A string is truthy when it is not empty. *)
Definition truthy (s : string) : bool :=
  match s with "" => false | String _ _ => true end.

(** [WhiteSpace] and [LineTerminator] code units below 256: TAB, LF, VT,
    FF, CR, SP and NBSP. *)
Definition isWhiteSpace (c : ascii) : bool :=
  let n := nat_of_ascii c in
  ((9 <=? n) && (n <=? 13) || (n =? 32) || (n =? 160))%nat.

Fixpoint trimStart (s : string) : string :=
  match s with
  | "" => ""
  | String c s' => if isWhiteSpace c then trimStart s' else s
  end.

Fixpoint trimEnd (s : string) : string :=
  match s with
  | "" => ""
  | String c s' =>
      match trimEnd s' with
      | "" => if isWhiteSpace c then "" else String c ""
      | r => String c r
      end
  end.

(** [String.prototype.trim] *)
Definition trim (s : string) : string := trimEnd (trimStart s).

(** [s.startsWith(p)] *)
Fixpoint startsWith (s p : string) {struct p} : bool :=
  match p with
  | "" => true
  | String a p' =>
      match s with
      | "" => false
      | String b s' => if Ascii.eqb a b then startsWith s' p' else false
      end
  end.

(** [s.includes(p)] *)
Fixpoint includes (s p : string) : bool :=
  startsWith s p ||
  match s with
  | "" => false
  | String _ s' => includes s' p
  end.

(** [s.slice(n)] for [0 <= n] *)
Fixpoint slice (s : string) (n : nat) {struct n} : string :=
  match n with
  | O => s
  | S k => match s with "" => "" | String _ s' => slice s' k end
  end.

(** [s.replace(pat, rep)] with a string pattern: the first occurrence only.
    ([rep] is used literally; the code only ever passes the empty string.) *)
Fixpoint replace (s pat rep : string) : string :=
  if startsWith s pat then rep +:+ slice s (String.length pat)
  else match s with
       | "" => ""
       | String c s' => String c (replace s' pat rep)
       end.

(** [toLowerCase] on one code unit below 256: A-Z, and the Latin-1 capitals
    U+00C0..U+00DE except the multiplication sign U+00D7. *)
Definition lowerChar (c : ascii) : ascii :=
  let n := nat_of_ascii c in
  if ((65 <=? n) && (n <=? 90)
      || (192 <=? n) && (n <=? 222) && negb (n =? 215))%nat
  then ascii_of_nat (n + 32) else c.

Fixpoint toLowerCase (s : string) : string :=
  match s with
  | "" => ""
  | String c s' => String (lowerChar c) (toLowerCase s')
  end.

(** [s.split(sep)] for a non-empty separator: separators are found left to
    right and do not overlap. [skip] counts the code units of a separator
    just found that are still to be passed over; [cur] is the piece being
    read, reversed. *)
Fixpoint split_go (sep : string) (skip : nat) (cur : string) (s : string)
  : list string :=
  match s with
  | "" => [String.rev cur]
  | String c s' =>
      match skip with
      | S k => split_go sep k cur s'
      | O =>
          if startsWith s sep
          then String.rev cur :: split_go sep (String.length sep - 1) "" s'
          else split_go sep O (String c cur) s'
      end
  end.

Definition split (s sep : string) : list string := split_go sep O "" s.

(** [parts.join(sep)] *)
Fixpoint join (parts : list string) (sep : string) : string :=
  match parts with
  | [] => ""
  | [p] => p
  | p :: rest => p +:+ sep +:+ join rest sep
  end.

(** [xs.find(p)] *)
Definition find {A} (p : A -> bool) (xs : list A) : option A := List.find p xs.

(** [xs.findIndex(p)], [-1] when no element satisfies [p]. *)
Fixpoint findIndex_from {A} (p : A -> bool) (i : Z) (xs : list A) : Z :=
  match xs with
  | [] => -1
  | x :: xs' => if p x then i else findIndex_from p (i + 1) xs'
  end.

Definition findIndex {A} (p : A -> bool) (xs : list A) : Z :=
  findIndex_from p 0 xs.

(** [xs.length] as a number. *)
Definition len {A} (xs : list A) : Z := Z.of_nat (List.length xs).

(** [xs[i]] for a number [i]: [undefined] out of range. *)
Definition at_ {A} (xs : list A) (i : Z) : option A :=
  if i <? 0 then None else nth_error xs (Z.to_nat i).

End JS.

(** ** Data model ([git/types.ts]) *)

Module Worktree.
(** Core worktree representation parsed from [git worktree list --porcelain].
    [branch] is [None] for JavaScript's [null]; [isDirty] is the optional
    field, [None] when absent. *)
Record t := mk {
  path : string;
  head : string;
  branch : option string;
  isMain : bool;
  isLocked : bool;
  isPrunable : bool;
  isDirty : option bool
}.
End Worktree.

Module Project.
(** A project is a git repository with its associated worktrees. *)
Record t := mk {
  name : string;
  gitDir : string;
  mainWorktree : string;
  worktrees : list Worktree.t
}.

Definition set_name (n : string) (p : t) : t :=
  mk n (gitDir p) (mainWorktree p) (worktrees p).
End Project.

(** Per-project config entry, and the part of the main configuration that
    discovery reads ([config/schema.ts]). *)
Module ProjectConfig.
Record t := mk {
  name : string;
  path : string
}.
End ProjectConfig.

Module FishTreeConfig.
Record t := mk {
  worktreeBase : string;
  projects : list ProjectConfig.t
}.
End FishTreeConfig.

(** Options for creating a new worktree; [startPoint] is optional. *)
Record WorktreeCreateOptions := {
  basePath : string;
  branch : string;
  startPoint : option string;
  createBranch : bool
}.

Inductive GitErrorCode :=
| WORKTREE_EXISTS
| BRANCH_EXISTS
| DIRTY_WORKTREE
| NOT_A_REPO
| WORKTREE_NOT_FOUND
| COMMAND_FAILED.

Record GitError := {
  code : GitErrorCode;
  message : string;
  stderr : string
}.

(** The discriminated union [GitResult<T>]. *)
Inductive GitResult (T : Type) :=
| Ok (value : T)
| Err (error : GitError).
Arguments Ok {T} value.
Arguments Err {T} error.

Definition ok {T} (value : T) : GitResult T := Ok value.

(** [err(code, message, stderr = "")] *)
Definition err {T} (c : GitErrorCode) (msg : string) : GitResult T :=
  Err {| code := c; message := msg; stderr := "" |}.

(** ** The porcelain parser ([git/worktree.ts]) *)

(** The six locals of the loop over a block's lines. *)
Record BlockVars := {
  v_path : string;
  v_head : string;
  v_branch : option string;
  v_isMain : bool;
  v_isLocked : bool;
  v_isPrunable : bool
}.

Definition initVars : BlockVars :=
  {| v_path := ""; v_head := ""; v_branch := None;
     v_isMain := false; v_isLocked := false; v_isPrunable := false |}.

(** One turn of [for (const line of lines)]: the if/else-if chain. *)
Definition scanLine (v : BlockVars) (line : string) : BlockVars :=
  if JS.startsWith line "worktree " then
    {| v_path := JS.slice line (String.length "worktree ");
       v_head := v_head v; v_branch := v_branch v; v_isMain := v_isMain v;
       v_isLocked := v_isLocked v; v_isPrunable := v_isPrunable v |}
  else if JS.startsWith line "HEAD " then
    {| v_path := v_path v;
       v_head := JS.slice line (String.length "HEAD ");
       v_branch := v_branch v; v_isMain := v_isMain v;
       v_isLocked := v_isLocked v; v_isPrunable := v_isPrunable v |}
  else if JS.startsWith line "branch " then
    {| v_path := v_path v; v_head := v_head v;
       v_branch :=
         Some (JS.replace (JS.slice line (String.length "branch ")) "refs/heads/" "");
       v_isMain := v_isMain v;
       v_isLocked := v_isLocked v; v_isPrunable := v_isPrunable v |}
  else if String.eqb line "bare" then
    {| v_path := v_path v; v_head := v_head v; v_branch := v_branch v;
       v_isMain := true;
       v_isLocked := v_isLocked v; v_isPrunable := v_isPrunable v |}
  else if String.eqb line "locked" then
    {| v_path := v_path v; v_head := v_head v; v_branch := v_branch v;
       v_isMain := v_isMain v;
       v_isLocked := true; v_isPrunable := v_isPrunable v |}
  else if String.eqb line "prunable" then
    {| v_path := v_path v; v_head := v_head v; v_branch := v_branch v;
       v_isMain := v_isMain v;
       v_isLocked := v_isLocked v; v_isPrunable := true |}
  else if String.eqb line "detached" then
    {| v_path := v_path v; v_head := v_head v; v_branch := None;
       v_isMain := v_isMain v;
       v_isLocked := v_isLocked v; v_isPrunable := v_isPrunable v |}
  else v.

Definition scanLines (lines : list string) : BlockVars :=
  fold_left scanLine lines initVars.

(** The body of [for (const block of blocks)], on the array built so far. *)
Definition parseBlock (worktrees : list Worktree.t) (block : string)
  : list Worktree.t :=
  if negb (JS.truthy (JS.trim block)) then worktrees
  else
    let lines := JS.split (JS.trim block) JS.nl in
    let v := scanLines lines in
    (* The first worktree in the list is the main worktree *)
    let isMain := if JS.len worktrees =? 0 then true else v_isMain v in
    if JS.truthy (v_path v) then
      worktrees ++
        [Worktree.mk (v_path v) (v_head v) (v_branch v) isMain
           (v_isLocked v) (v_isPrunable v) None]
    else worktrees.

Definition parsePorcelain (output : string) : list Worktree.t :=
  let blocks := JS.split (JS.trim output) JS.nlnl in
  fold_left parseBlock blocks [].

(** ** The error classifier ([git/worktree.ts]) *)

Definition classifyGitError (stderr : string) : GitError :=
  let s := JS.toLowerCase stderr in
  if JS.includes s "already exists" || JS.includes s "already a worktree" then
    {| code := WORKTREE_EXISTS; message := "Worktree already exists";
       stderr := stderr |}
  else if JS.includes s "already checked out"
          || JS.includes s "is already checked out"
          || JS.includes s "already used by worktree" then
    {| code := BRANCH_EXISTS;
       message := "Branch is already checked out in another worktree";
       stderr := stderr |}
  else if JS.includes s "has changes"
          || JS.includes s "contains modified or untracked files"
          || JS.includes s "is dirty" then
    {| code := DIRTY_WORKTREE; message := "Worktree has uncommitted changes";
       stderr := stderr |}
  else if JS.includes s "not a git repository" then
    {| code := NOT_A_REPO; message := "Not a git repository"; stderr := stderr |}
  else if JS.includes s "is not a valid worktree"
          || JS.includes s "is not a working tree" then
    {| code := WORKTREE_NOT_FOUND; message := "Worktree not found";
       stderr := stderr |}
  else
    {| code := COMMAND_FAILED; message := "Git command failed";
       stderr := stderr |}.

(** ** The host: subprocesses, file system, [node:path] *)

(** What the code reaches outside itself. [World] is everything a subprocess
    or a directory scan can read or change.

    - [sh argv] is Bun's [$`...`.quiet()] on the argument vector [argv]:
      [inl text] when the process exits with 0 ([text] is [result.text()]),
      [inr stderr] when it throws ([stderr] is what [extractStderr] reads
      off the exception);
    - [glob dir] is [Array.fromAsync(new Bun.Glob("*").scan({cwd: dir,
      onlyFiles: false}))], [None] when it throws;
    - [cwd] is [process.cwd()];
    - [resolve] and [basename] are those of [node:path], [expandPath] is
      that of [config/paths.ts]. *)
Class Host := {
  World : Type;
  sh : list string -> World -> (string + string) * World;
  glob : string -> World -> option (list string) * World;
  cwd : World -> string;
  resolve : string -> string -> string;
  basename : string -> string;
  expandPath : string -> string
}.

(** Asynchronous functions are state transformers over the world. *)
Definition Async `{Host} (A : Type) : Type := World -> A * World.

Definition ret `{Host} {A} (a : A) : Async A := fun w => (a, w).

Definition bind `{Host} {A B} (m : Async A) (k : A -> Async B) : Async B :=
  fun w => let (a, w') := m w in k a w'.

Notation "x <- m ; k" := (bind m (fun x => k))
  (at level 20, m at level 100, k at level 200, only parsing).

(** [process.cwd()] *)
Definition processCwd `{Host} : Async string := fun w => (cwd w, w).

(** [Promise.all(xs.map(f))]: the results in the order of [xs]. *)
Fixpoint promiseAll `{Host} {A B} (f : A -> Async B) (xs : list A)
  : Async (list B) :=
  match xs with
  | [] => ret []
  | x :: xs' => b <- f x ; bs <- promiseAll f xs' ; ret (b :: bs)
  end.

(** ** Worktree operations ([git/worktree.ts]) *)

Section Operations.
Context `{Host}.

(** List all worktrees for a git repository. *)
Definition listWorktrees (gitDir : string) : Async (GitResult (list Worktree.t)) :=
  r <- sh ["git"; "-C"; gitDir; "worktree"; "list"; "--porcelain"] ;
  match r with
  | inl text => ret (ok (parsePorcelain text))
  | inr stderr => ret (Err (classifyGitError stderr))
  end.

(** An optional string is truthy when present and not empty. *)
Definition truthy_opt (o : option string) : bool :=
  match o with Some s => JS.truthy s | None => false end.

(** The argument vector of the creation call: the four-way branch on
    [createBranch] and [startPoint]. *)
Definition addArgv (gitDir : string) (opts : WorktreeCreateOptions) : list string :=
  let sp := default "" (startPoint opts) in
  if createBranch opts && truthy_opt (startPoint opts) then
    ["git"; "-C"; gitDir; "worktree"; "add"; "-b"; branch opts; basePath opts; sp]
  else if createBranch opts then
    ["git"; "-C"; gitDir; "worktree"; "add"; "-b"; branch opts; basePath opts]
  else if truthy_opt (startPoint opts) then
    ["git"; "-C"; gitDir; "worktree"; "add"; basePath opts; branch opts; sp]
  else
    ["git"; "-C"; gitDir; "worktree"; "add"; basePath opts; branch opts].

(** Create a new worktree. *)
Definition addWorktree (gitDir : string) (opts : WorktreeCreateOptions)
  : Async (GitResult Worktree.t) :=
  r <- sh (addArgv gitDir opts) ;
  match r with
  | inr stderr => ret (Err (classifyGitError stderr))
  | inl _ =>
      (* Re-list to get the newly created worktree object *)
      listResult <- listWorktrees gitDir ;
      match listResult with
      | Err e => ret (Err e)
      | Ok value =>
          match JS.find (fun wt => String.eqb (Worktree.path wt) (basePath opts)) value with
          | None =>
              ret (err COMMAND_FAILED
                     ("Worktree was created but not found in list at " +:+ basePath opts))
          | Some newWt => ret (ok newWt)
          end
      end
  end.

(** Check if a worktree has uncommitted changes. *)
Definition isWorktreeDirty (worktreePath : string) : Async bool :=
  r <- sh ["git"; "-C"; worktreePath; "status"; "--porcelain"] ;
  match r with
  | inl text => ret (0 <? Z.of_nat (String.length (JS.trim text)))
  | inr _ =>
      (* If we can't check status, assume dirty for safety *)
      ret true
  end.

(** ** Project loading and discovery ([git/repo.ts]) *)

(** Detect the git directory for a given path. *)
Definition detectGitDir (path : string) : Async (option string) :=
  r <- sh ["git"; "-C"; path; "rev-parse"; "--git-dir"] ;
  match r with
  | inr _ => ret None
  | inl text =>
      let gitDir := JS.trim text in
      if negb (JS.truthy gitDir) then ret None
      else if String.eqb gitDir "." || String.eqb gitDir ".git" then
        ret (Some (resolve path gitDir))
      else ret (Some (resolve path gitDir))
  end.

(** Load a project from a directory path. *)
Definition loadProject (path : string) : Async (option Project.t) :=
  gitDir <- detectGitDir path ;
  match gitDir with
  | None => ret None
  | Some g =>
      if negb (JS.truthy g) then ret None
      else
        result <- listWorktrees path ;
        let worktrees := match result with Ok value => value | Err _ => [] end in
        let mainWorktree :=
          match JS.find Worktree.isMain worktrees with
          | Some wt => Worktree.path wt
          | None => path
          end in
        ret (Some (Project.mk (basename mainWorktree) g mainWorktree worktrees))
  end.

(** An element of [allPaths]: a path and an optional name. *)
Definition PathEntry : Type := string * option string.

(** [if (allPaths[i].name) project.name = allPaths[i].name]: the entry's
    name replaces the loaded one when it is present and not empty. *)
Definition applyName (entry : PathEntry) (project : Project.t) : Project.t :=
  if truthy_opt (snd entry)
  then Project.set_name (default "" (snd entry)) project
  else project.

(** One turn of the assembling loop, on [allPaths[i]] and [loaded[i]]; the
    state is the array [projects] and the set [seen]. *)
Definition assembleStep (st : list Project.t * gset string)
    (x : PathEntry * option Project.t) : list Project.t * gset string :=
  let '(projects, seen) := st in
  let '(entry, loaded_i) := x in
  match loaded_i with
  | Some project =>
      if negb (bool_decide (Project.gitDir project ∈ seen)) then
        let project := applyName entry project in
        (projects ++ [project], {[Project.gitDir project]} ∪ seen)
      else st
  | None => st
  end.

(** The assembly of the result: cwd first, then others deduplicated.
    [loaded] has the length of [allPaths], so the loop over [i] is a loop over
    the pairs [(allPaths[i], loaded[i])]. *)
Definition assembleProjects (cwdProject : option Project.t)
    (allPaths : list PathEntry) (loaded : list (option Project.t))
  : list Project.t :=
  let seen : gset string :=
    match cwdProject with Some p => {[Project.gitDir p]} | None => ∅ end in
  let projects := match cwdProject with Some p => [p] | None => [] end in
  fst (fold_left assembleStep (zip allPaths loaded) (projects, seen)).

Definition configuredPaths (config : FishTreeConfig.t) : list PathEntry :=
  map (fun pc => (expandPath (ProjectConfig.path pc), Some (ProjectConfig.name pc)))
    (FishTreeConfig.projects config).

(** Discover all projects from config and auto-discovery. The concurrent
    loads of [Promise.all] are taken in the order of [allPaths]; what they
    return is whatever the host returns. *)
Definition discoverProjects (config : FishTreeConfig.t) : Async (list Project.t) :=
  (* 1. Current directory's repo (put first) *)
  dir <- processCwd ;
  cwdProject <- loadProject dir ;
  (* 2. Configured projects + auto-discovered *)
  let basePath := expandPath (FishTreeConfig.worktreeBase config) in
  entries <- glob basePath ;
  let autoPaths : list PathEntry :=
    match entries with
    | Some es => map (fun entry => (resolve basePath entry, None)) es
    | None => []
    end in
  let allPaths := configuredPaths config ++ autoPaths in
  loaded <- promiseAll (fun p : PathEntry => loadProject (fst p)) allPaths ;
  (* Assemble results: cwd first, then others deduplicated *)
  ret (assembleProjects cwdProject allPaths loaded).

End Operations.

(** ** The fuzzy matcher ([cli/commands.ts]) *)

(** [s[i]]: the code unit at index [i], [undefined] out of range. *)
Definition charAt (s : string) (i : nat) : option ascii := String.get i s.

(** The loop [for (let ti = 0; ti < t.length && qi < q.length; ti++)] of the
    sequential character match, from index [ti] with [rest] the code units of
    [t] from there on; the result is the final [qi]. *)
Fixpoint subseqLoop (q : string) (rest : string) (qi : nat) : nat :=
  match rest with
  | "" => qi
  | String c rest' =>
      if (qi <? String.length q)%nat then
        if bool_decide (Some c = charAt q qi)
        then subseqLoop q rest' (S qi)
        else subseqLoop q rest' qi
      else qi
  end.

(** Simple fuzzy match: all characters of query appear in order in target. *)
Definition fuzzyMatch (query target : string) : Z :=
  let q := JS.toLowerCase query in
  let t := JS.toLowerCase target in
  (* Exact match *)
  if String.eqb t q then 1000
  (* Starts with *)
  else if JS.startsWith t q then 500
  (* Contains substring *)
  else if JS.includes t q then 200
  (* Sequential character match *)
  else if (subseqLoop q t 0 =? String.length q)%nat then 50
  else 0.

(** ** The application state machine ([state/store.ts]) *)

(** A flat list item: either a project header or a worktree entry. *)
Inductive ListItem :=
| ProjectItem (project : Project.t)
| WorktreeItem (worktree : Worktree.t) (project : Project.t).

Inductive View := ListView | CreateView | ConfirmDelete | ProjectPicker | HelpView.

(** Full application state. *)
Record AppState := {
  projects : list Project.t;
  activeProject : option Project.t;
  selectedIndex : Z;
  filterText : string;
  filteredItems : list ListItem;
  view : View;
  loading : bool;
  error : option string;
  selectedPath : option string;
  collapsedProjects : gset string;
  detailPaneVisible : bool
}.

(** All state transitions. [delta] is an integer. *)
Inductive AppAction :=
| SET_PROJECTS (projects : list Project.t)
| SELECT_PROJECT (project : Project.t)
| MOVE_SELECTION (delta : Z)
| SET_FILTER (text : string)
| SELECT_WORKTREE
| TOGGLE_PROJECT (projectName : string)
| SHOW_CREATE
| SHOW_DELETE
| SHOW_HELP
| SHOW_LIST
| SET_LOADING (loading : bool)
| SET_ERROR (error : option string)
| REFRESH_WORKTREES (projects : list Project.t).

(** The filter of [project.worktrees] inside [buildFilteredItems]. *)
Definition worktreeMatches (query : string) (project : Project.t)
    (wt : Worktree.t) : bool :=
  negb (JS.truthy query)
  || match Worktree.branch wt with
     | Some b => JS.includes (JS.toLowerCase b) query
     | None => false
     end
  || JS.includes (JS.toLowerCase (Project.name project)) query.

(** One turn of [for (const project of projects)] on the array [items]. *)
Definition buildStep (collapsed : gset string) (query : string)
    (items : list ListItem) (project : Project.t) : list ListItem :=
  (* Check if project or any of its worktrees match the filter *)
  let projectMatches :=
    negb (JS.truthy query)
    || JS.includes (JS.toLowerCase (Project.name project)) query in
  let matchingWorktrees :=
    List.filter (worktreeMatches query project) (Project.worktrees project) in
  if negb projectMatches && (JS.len matchingWorktrees =? 0) then items
  else
    let items := items ++ [ProjectItem project] in
    if negb (bool_decide (Project.name project ∈ collapsed)) then
      let worktrees :=
        if JS.truthy query then matchingWorktrees else Project.worktrees project in
      items ++ map (fun worktree => WorktreeItem worktree project) worktrees
    else items.

(** Build the flat list of items from projects, respecting collapsed state
    and filter. *)
Definition buildFilteredItems (projects : list Project.t)
    (collapsed : gset string) (filterText : string) : list ListItem :=
  let query := JS.toLowerCase filterText in
  fold_left (buildStep collapsed query) projects [].

Definition isWorktreeItem (i : ListItem) : bool :=
  match i with WorktreeItem _ _ => true | ProjectItem _ => false end.

(** Create initial state from a list of projects. *)
Definition initialState (projects : list Project.t) : AppState :=
  let collapsed : gset string := ∅ in
  let filteredItems := buildFilteredItems projects collapsed "" in
  (* Auto-select first worktree (skip project header) *)
  let firstWorktreeIndex := JS.findIndex isWorktreeItem filteredItems in
  {| projects := projects;
     activeProject := List.head projects;
     selectedIndex := if firstWorktreeIndex >=? 0 then firstWorktreeIndex else 0;
     filterText := "";
     filteredItems := filteredItems;
     view := ListView;
     loading := false;
     error := None;
     selectedPath := None;
     collapsedProjects := collapsed;
     detailPaneVisible := true |}.

(** Pure reducer for all state transitions. *)
Definition appReducer (state : AppState) (action : AppAction) : AppState :=
  match action with
  | SET_PROJECTS projects
  | REFRESH_WORKTREES projects =>
      let filteredItems :=
        buildFilteredItems projects (collapsedProjects state) (filterText state) in
      let selectedIndex :=
        Z.min (selectedIndex state) (Z.max 0 (JS.len filteredItems - 1)) in
      {| projects := projects;
         activeProject := activeProject state;
         selectedIndex := selectedIndex;
         filterText := filterText state;
         filteredItems := filteredItems;
         view := view state;
         loading := false;
         error := error state;
         selectedPath := selectedPath state;
         collapsedProjects := collapsedProjects state;
         detailPaneVisible := detailPaneVisible state |}
  | SELECT_PROJECT project =>
      {| projects := projects state;
         activeProject := Some project;
         selectedIndex := selectedIndex state;
         filterText := filterText state;
         filteredItems := filteredItems state;
         view := view state;
         loading := loading state;
         error := error state;
         selectedPath := selectedPath state;
         collapsedProjects := collapsedProjects state;
         detailPaneVisible := detailPaneVisible state |}
  | MOVE_SELECTION delta =>
      if JS.len (filteredItems state) =? 0 then state
      else
        let next := selectedIndex state + delta in
        (* Wrap around *)
        let next := if next <? 0 then JS.len (filteredItems state) - 1 else next in
        let next := if next >=? JS.len (filteredItems state) then 0 else next in
        {| projects := projects state;
           activeProject := activeProject state;
           selectedIndex := next;
           filterText := filterText state;
           filteredItems := filteredItems state;
           view := view state;
           loading := loading state;
           error := error state;
           selectedPath := selectedPath state;
           collapsedProjects := collapsedProjects state;
           detailPaneVisible := detailPaneVisible state |}
  | SET_FILTER text =>
      let filteredItems :=
        buildFilteredItems (projects state) (collapsedProjects state) text in
      let selectedIndex :=
        Z.min (selectedIndex state) (Z.max 0 (JS.len filteredItems - 1)) in
      {| projects := projects state;
         activeProject := activeProject state;
         selectedIndex := selectedIndex;
         filterText := text;
         filteredItems := filteredItems;
         view := view state;
         loading := loading state;
         error := error state;
         selectedPath := selectedPath state;
         collapsedProjects := collapsedProjects state;
         detailPaneVisible := detailPaneVisible state |}
  | SELECT_WORKTREE =>
      match JS.at_ (filteredItems state) (selectedIndex state) with
      | Some (WorktreeItem worktree _) =>
          {| projects := projects state;
             activeProject := activeProject state;
             selectedIndex := selectedIndex state;
             filterText := filterText state;
             filteredItems := filteredItems state;
             view := view state;
             loading := loading state;
             error := error state;
             selectedPath := Some (Worktree.path worktree);
             collapsedProjects := collapsedProjects state;
             detailPaneVisible := detailPaneVisible state |}
      | _ => state
      end
  | TOGGLE_PROJECT projectName =>
      let next : gset string :=
        if bool_decide (projectName ∈ collapsedProjects state)
        then collapsedProjects state ∖ {[projectName]}
        else {[projectName]} ∪ collapsedProjects state in
      let filteredItems :=
        buildFilteredItems (projects state) next (filterText state) in
      let selectedIndex :=
        Z.min (selectedIndex state) (Z.max 0 (JS.len filteredItems - 1)) in
      {| projects := projects state;
         activeProject := activeProject state;
         selectedIndex := selectedIndex;
         filterText := filterText state;
         filteredItems := filteredItems;
         view := view state;
         loading := loading state;
         error := error state;
         selectedPath := selectedPath state;
         collapsedProjects := next;
         detailPaneVisible := detailPaneVisible state |}
  | SHOW_CREATE =>
      {| projects := projects state;
         activeProject := activeProject state;
         selectedIndex := selectedIndex state;
         filterText := filterText state;
         filteredItems := filteredItems state;
         view := CreateView;
         loading := loading state;
         error := error state;
         selectedPath := selectedPath state;
         collapsedProjects := collapsedProjects state;
         detailPaneVisible := detailPaneVisible state |}
  | SHOW_DELETE =>
      (* Only allow if a non-main worktree is selected *)
      match JS.at_ (filteredItems state) (selectedIndex state) with
      | Some (WorktreeItem worktree _) =>
          if Worktree.isMain worktree then state
          else
            {| projects := projects state;
               activeProject := activeProject state;
               selectedIndex := selectedIndex state;
               filterText := filterText state;
               filteredItems := filteredItems state;
               view := ConfirmDelete;
               loading := loading state;
               error := error state;
               selectedPath := selectedPath state;
               collapsedProjects := collapsedProjects state;
               detailPaneVisible := detailPaneVisible state |}
      | _ => state
      end
  | SHOW_HELP =>
      {| projects := projects state;
         activeProject := activeProject state;
         selectedIndex := selectedIndex state;
         filterText := filterText state;
         filteredItems := filteredItems state;
         view := HelpView;
         loading := loading state;
         error := error state;
         selectedPath := selectedPath state;
         collapsedProjects := collapsedProjects state;
         detailPaneVisible := detailPaneVisible state |}
  | SHOW_LIST =>
      let resetItems :=
        buildFilteredItems (projects state) (collapsedProjects state) "" in
      {| projects := projects state;
         activeProject := activeProject state;
         selectedIndex := selectedIndex state;
         filterText := "";
         filteredItems := resetItems;
         view := ListView;
         loading := loading state;
         error := None;
         selectedPath := selectedPath state;
         collapsedProjects := collapsedProjects state;
         detailPaneVisible := detailPaneVisible state |}
  | SET_LOADING loading =>
      {| projects := projects state;
         activeProject := activeProject state;
         selectedIndex := selectedIndex state;
         filterText := filterText state;
         filteredItems := filteredItems state;
         view := view state;
         loading := loading;
         error := error state;
         selectedPath := selectedPath state;
         collapsedProjects := collapsedProjects state;
         detailPaneVisible := detailPaneVisible state |}
  | SET_ERROR error =>
      {| projects := projects state;
         activeProject := activeProject state;
         selectedIndex := selectedIndex state;
         filterText := filterText state;
         filteredItems := filteredItems state;
         view := view state;
         loading := loading state;
         error := error;
         selectedPath := selectedPath state;
         collapsedProjects := collapsedProjects state;
         detailPaneVisible := detailPaneVisible state |}
  end.

(** The state after a sequence of dispatched actions. *)
Definition run (projects : list Project.t) (actions : list AppAction) : AppState :=
  fold_left appReducer actions (initialState projects).

(** ** More worktree and repository operations ([git/worktree.ts], [git/repo.ts]) *)

Section MoreOperations.
Context `{Host}.

(** Remove a worktree; [force] defaults to [false] in the source. *)
Definition removeWorktree (gitDir path : string) (force : bool)
  : Async (GitResult unit) :=
  r <- sh (if force
           then ["git"; "-C"; gitDir; "worktree"; "remove"; "--force"; path]
           else ["git"; "-C"; gitDir; "worktree"; "remove"; path]) ;
  match r with
  | inl _ => ret (ok tt)
  | inr stderr => ret (Err (classifyGitError stderr))
  end.

(** Prune stale worktree entries. *)
Definition pruneWorktrees (gitDir : string) : Async (GitResult unit) :=
  r <- sh ["git"; "-C"; gitDir; "worktree"; "prune"] ;
  match r with
  | inl _ => ret (ok tt)
  | inr stderr => ret (Err (classifyGitError stderr))
  end.

(** List remote branches for branch autocomplete. *)
Definition listRemoteBranches (gitDir : string) : Async (list string) :=
  r <- sh ["git"; "-C"; gitDir; "branch"; "-r"; "--format=%(refname:short)"] ;
  match r with
  | inl text =>
      ret (List.filter (fun b => JS.truthy b && negb (JS.includes b "HEAD"))
             (JS.split (JS.trim text) JS.nl))
  | inr _ => ret []
  end.

End MoreOperations.

(** ** Finding the best match ([cli/commands.ts]) *)

(** Flatten all worktrees across all projects with their parent project. *)
Definition flattenWorktrees (projects : list Project.t)
  : list (Project.t * Worktree.t) :=
  flat_map (fun project =>
              map (fun wt => (project, wt)) (Project.worktrees project))
    projects.

Module Match.
(** An item of [findBestMatch]: a worktree, its project and its score. *)
Record t := mk {
  project : Project.t;
  worktree : Worktree.t;
  score : Z
}.
End Match.

(** [path.split("/").pop() ?? ""] *)
Definition dirNameOf (path : string) : string :=
  default "" (last (JS.split path "/")).

(** The score of one item: the maximum of the branch score, half the
    project score and the directory score. Every score of [fuzzyMatch] is
    even, so the half is an integer and the product by 0.5 is exact. *)
Definition scoreItem (query : string) (item : Project.t * Worktree.t) : Match.t :=
  let branchScore :=
    match Worktree.branch (snd item) with
    | Some b => if JS.truthy b then fuzzyMatch query b else 0
    | None => 0
    end in
  let projectScore := fuzzyMatch query (Project.name (fst item)) in
  (* Also match against the directory name *)
  let dirName := dirNameOf (Worktree.path (snd item)) in
  let pathScore := fuzzyMatch query dirName in
  Match.mk (fst item) (snd item)
    (Z.max (Z.max branchScore (projectScore / 2)) pathScore).

(** [sort((a, b) => b.score - a.score)]: the sort is stable, so an item goes
    before the first sorted item whose score is not greater than its own. *)
Fixpoint insertByScore (x : Match.t) (sorted : list Match.t) : list Match.t :=
  match sorted with
  | [] => [x]
  | y :: ys =>
      if Match.score x <? Match.score y
      then y :: insertByScore x ys
      else x :: y :: ys
  end.

Definition sortByScore (items : list Match.t) : list Match.t :=
  fold_right insertByScore [] items.

(** Find the best matching worktree for a fuzzy query. *)
Definition findBestMatch (query : string) (projects : list Project.t)
  : list Match.t :=
  let all := flattenWorktrees projects in
  sortByScore
    (List.filter (fun item => 0 <? Match.score item)
       (map (scoreItem query) all)).

(** ** The jump and remove commands ([cli/commands.ts]) *)

(** How a command ends: [process.exit(1)] after the lines given to
    [console.error]; a normal return after the text written to the standard
    output; or an exception that nothing catches. *)
Inductive Outcome :=
| Exit1 (errors : list string)
| Finished (out : string)
| Uncaught.

(** The double quote, as a string. *)
Definition dq : string := String (ascii_of_nat 34) "".

(** [loadConfig] of [config/loader.ts] reads the configuration file. The
    loader merges the file's JSON into the defaults without validating it;
    here it yields a value of the declared type [FishTreeConfig], so the
    commands below are modelled for files of that shape. What a file of
    another shape makes [discoverProjects] throw is outside this model. *)
Class CliHost `{Host} := {
  loadConfig : Async FishTreeConfig.t
}.

Section Commands.
Context `{CliHost}.

(** The lines of the numbered list of close matches, from number [i + 1]. *)
Fixpoint matchLines (i : nat) (ms : list Match.t) : list string :=
  match ms with
  | [] => []
  | m :: ms' =>
      let branchName := default "(detached)" (Worktree.branch (Match.worktree m)) in
      ("  " +:+ pretty (S i) +:+ ". "
       +:+ Project.name (Match.project m) +:+ "/" +:+ branchName
       +:+ "  " +:+ Worktree.path (Match.worktree m))
      :: matchLines (S i) ms'
  end.

Definition jumpToWorktree (query : option string) : Async Outcome :=
  match query with
  | None => ret (Exit1 ["Usage: ft jump <name>"])
  | Some q =>
      if negb (JS.truthy q) then ret (Exit1 ["Usage: ft jump <name>"])
      else
        config <- loadConfig ;
        projects <- discoverProjects config ;
        if JS.len projects =? 0 then
          ret (Exit1 ["No projects found. Run 'ft config' to configure projects."])
        else
          let matches := findBestMatch q projects in
          match matches with
          | [] => ret (Exit1 ["No worktree matching " +:+ dq +:+ q +:+ dq])
          | m0 :: rest =>
              let clear :=
                match rest with
                | [] => true
                | m1 :: _ =>
                    (* matches[0].score > matches[1].score * 1.5 *)
                    3 * Match.score m1 <? 2 * Match.score m0
                end in
              if clear then
                (* Clear winner: output path for shell wrapper to cd *)
                ret (Finished (Worktree.path (Match.worktree m0)))
              else
                (* Multiple close matches: show numbered list *)
                ret (Exit1 (("Multiple matches for " +:+ dq +:+ q +:+ dq +:+ ":")
                            :: matchLines 0 (take 10 matches)))
          end
  end.

(** [findBestMatch] on the result of [args.find(...)!]: with no
    argument found the query is [undefined], and scoring the first item
    throws. *)
Definition findBestMatchOf (query : option string) (projects : list Project.t)
  : option (list Match.t) :=
  match query with
  | Some q => Some (findBestMatch q projects)
  | None =>
      match flattenWorktrees projects with
      | [] => Some []
      | _ :: _ => None
      end
  end.

(** The query inside a template string: [undefined] prints as such. *)
Definition showQuery (query : option string) : string :=
  default "undefined" query.

Definition removeWorktreeCLI (args : list string) : Async Outcome :=
  if JS.len args =? 0 then ret (Exit1 ["Usage: ft rm <name> [--force]"])
  else
    let force :=
      bool_decide ("--force" ∈ args) || bool_decide ("-f" ∈ args) in
    let query := JS.find (fun a => negb (JS.startsWith a "-")) args in
    config <- loadConfig ;
    projects <- discoverProjects config ;
    match findBestMatchOf query projects with
    | None => ret Uncaught
    | Some [] =>
        ret (Exit1 ["No worktree matching " +:+ dq +:+ showQuery query +:+ dq])
    | Some (target :: _) =>
        if Worktree.isMain (Match.worktree target) then
          ret (Exit1 ["Cannot remove the main worktree"])
        else
          (* Check for dirty state unless --force *)
          dirty <- (if force then ret false
                    else isWorktreeDirty (Worktree.path (Match.worktree target))) ;
          if dirty then
            ret (Exit1 ["Worktree " +:+ dq
                        +:+ default "null" (Worktree.branch (Match.worktree target))
                        +:+ dq
                        +:+ " has uncommitted changes. Use --force to remove anyway."])
          else
            result <- removeWorktree (Project.gitDir (Match.project target))
                        (Worktree.path (Match.worktree target)) force ;
            match result with
            | Err e =>
                ret (Exit1 ["Failed to remove worktree: " +:+ message e])
            | Ok _ =>
                ret (Finished
                       ("Removed worktree " +:+ Project.name (Match.project target)
                        +:+ "/"
                        +:+ default "(detached)"
                              (Worktree.branch (Match.worktree target))))
            end
    end.

End Commands.

(** ** The keyboard handler of the list view ([app.tsx]) *)

Module KeyEvent.
(** The fields of a key event that the handler reads; [name] can be
    undefined. *)
Record t := mk { name : option string; ctrl : bool; shift : bool }.
End KeyEvent.

(** What one call of the handler does: at most one dispatch or one call of
    [onQuit]. *)
Inductive KeyEffect :=
| Dispatch (action : AppAction)
| OnQuit
| NoEffect.

(** The code units of a string. *)
Definition units (s : string) : list Z :=
  map (fun c => Z.of_N (N_of_ascii c)) (list_ascii_of_string s).

(** [toUpperCase] of one code unit below 256, as code units: the micro sign
    and y with diaeresis leave the range, sharp s becomes two units. *)
Definition upperUnit (n : Z) : list Z :=
  if (97 <=? n) && (n <=? 122) then [n - 32]
  else if n =? 181 then [924]
  else if n =? 223 then [83; 83]
  else if (224 <=? n) && (n <=? 254) && negb (n =? 247) then [n - 32]
  else if n =? 255 then [376]
  else [n].

Definition toUpperCase (s : string) : list Z := flat_map upperUnit (units s).

(** [key.name === label]. *)
Definition nameIs (key : KeyEvent.t) (label : string) : bool :=
  bool_decide (KeyEvent.name key = Some label).

(** Normalize shifted keys:
    [key.shift && key.name?.length === 1 ? key.name.toUpperCase() : key.name]. *)
Definition keyNameOf (key : KeyEvent.t) : option (list Z) :=
  match KeyEvent.name key with
  | Some name =>
      if KeyEvent.shift key && (String.length name =? 1)%nat
      then Some (toUpperCase name)
      else Some (units name)
  | None => None
  end.

(** One [case label:] of the [switch (keyName)]. *)
Definition isKey (keyName : option (list Z)) (label : string) : bool :=
  bool_decide (keyName = Some (units label)).

(** Global keyboard handler, only active in list view. *)
Definition handleKey (state : AppState) (key : KeyEvent.t) : KeyEffect :=
  match view state with
  | ListView =>
      (* Filter mode: only Esc exits filter *)
      if JS.truthy (filterText state) then
        if nameIs key "escape" then Dispatch (SET_FILTER "") else NoEffect
      else if KeyEvent.ctrl key && nameIs key "c" then OnQuit
      else
        let keyName := keyNameOf key in
        let item := JS.at_ (filteredItems state) (selectedIndex state) in
        if isKey keyName "j" || isKey keyName "down" then
          Dispatch (MOVE_SELECTION 1)
        else if isKey keyName "k" || isKey keyName "up" then
          Dispatch (MOVE_SELECTION (-1))
        else if isKey keyName "return" then
          match item with
          | Some (WorktreeItem _ _) => Dispatch SELECT_WORKTREE
          | Some (ProjectItem project) =>
              Dispatch (TOGGLE_PROJECT (Project.name project))
          | None => NoEffect
          end
        else if isKey keyName "space" then
          match item with
          | Some (ProjectItem project) =>
              Dispatch (TOGGLE_PROJECT (Project.name project))
          | _ => NoEffect
          end
        else if isKey keyName "q" then OnQuit
        else if isKey keyName "n" then Dispatch SHOW_CREATE
        else if isKey keyName "d" then Dispatch SHOW_DELETE
        else if isKey keyName "/" then Dispatch (SET_FILTER "")
        else if isKey keyName "?" then Dispatch SHOW_HELP
        else if isKey keyName "g" then
          Dispatch (MOVE_SELECTION (- selectedIndex state))
        else if isKey keyName "G" then
          Dispatch
            (MOVE_SELECTION
               (JS.len (filteredItems state) - 1 - selectedIndex state))
        else NoEffect
  (* Let dialogs/overlays handle their own input *)
  | _ => NoEffect
  end.

(** The state after the handler has run on a key: [useReducer] applies the
    reducer to the action dispatched, if there is one. The handler reads the
    state of the last render, so this is the step of a key that arrives
    after the render of the one before. *)
Definition afterKey (state : AppState) (key : KeyEvent.t) : AppState :=
  match handleKey state key with
  | Dispatch action => appReducer state action
  | OnQuit | NoEffect => state
  end.

(** The interface between renders. The handler is a closure of the render
    that registered it and reads the state of that render, while [dispatch]
    hands the action to the reducer, which applies the actions in the order
    of their dispatch to the state it has reached. [rendered] is the state
    of the last render, [current] the state the reducer has reached. *)
Record Ui := { rendered : AppState; current : AppState }.

(** What happens to the interface: a key arrives, or the component renders
    again. *)
Inductive UiEvent :=
| Key (key : KeyEvent.t)
| Render.

Definition uiStep (ui : Ui) (event : UiEvent) : Ui :=
  match event with
  | Key key =>
      match handleKey (rendered ui) key with
      | Dispatch action =>
          {| rendered := rendered ui;
             current := appReducer (current ui) action |}
      | OnQuit | NoEffect => ui
      end
  | Render => {| rendered := current ui; current := current ui |}
  end.

(** The interface after a sequence of events, from the first render with
    [useReducer(appReducer, projects, initialState)]. *)
Definition uiRun (loaded : list Project.t) (events : list UiEvent) : Ui :=
  fold_left uiStep events
    {| rendered := initialState loaded; current := initialState loaded |}.

(** ** Porcelain text made of well-formed blocks *)

(** A block of the listing: the line [worktree <path>] and the tag lines
    after it. *)
Record Block := {
  b_path : string;
  b_tags : list string
}.

Definition blockLines (b : Block) : list string :=
  ("worktree " +:+ b_path b) :: b_tags b.

Definition blockText (b : Block) : string := JS.join (blockLines b) JS.nl.

(** The blocks, separated by one blank line. *)
Definition porcelainText (bs : list Block) : string :=
  JS.join (map blockText bs) JS.nlnl.

(** White space only. *)
Fixpoint blank (s : string) : bool :=
  match s with
  | "" => true
  | String c s' => JS.isWhiteSpace c && blank s'
  end.

(** A line of a block: not empty, without a line feed, without trailing
    white space. *)
Definition lineOk (l : string) : Prop :=
  l <> "" /\ JS.includes l JS.nl = false /\ JS.trimEnd l = l.

(** A well-formed block: its path is such a line, and so is every tag line,
    none of which is a second [worktree] line. *)
Definition wfBlock (b : Block) : Prop :=
  lineOk (b_path b) /\
  Forall (fun l => lineOk l /\ JS.startsWith l "worktree " = false) (b_tags b).

(** The record the parser builds from a block's lines; [first] tells whether
    it is the first record of the result. *)
Definition blockRecord (first : bool) (b : Block) : Worktree.t :=
  let v := scanLines (blockLines b) in
  Worktree.mk (v_path v) (v_head v) (v_branch v)
    (if first then true else v_isMain v) (v_isLocked v) (v_isPrunable v) None.

Fixpoint blockRecords (first : bool) (bs : list Block) : list Worktree.t :=
  match bs with
  | [] => []
  | b :: bs' => blockRecord first b :: blockRecords false bs'
  end.

(** ** The tiers of the fuzzy score, as the specification words them *)

(** [t] starts with [q]; [t] contains [q]; every code unit of [q] appears in
    [t] in order, not necessarily contiguously. *)
Definition IsPrefix (q t : string) : Prop := exists r, t = q +:+ r.

Definition IsSubstring (q t : string) : Prop := exists a b, t = a +:+ q +:+ b.

Inductive IsSubsequence : string -> string -> Prop :=
| subseq_empty t : IsSubsequence "" t
| subseq_take c q t : IsSubsequence q t -> IsSubsequence (String c q) (String c t)
| subseq_skip c q t : IsSubsequence q t -> IsSubsequence q (String c t).

Inductive Tier := Exact | Prefix | Substring | Subsequence | NoMatch.

Definition tierScore (T : Tier) : Z :=
  match T with
  | Exact => 1000
  | Prefix => 500
  | Substring => 200
  | Subsequence => 50
  | NoMatch => 0
  end.

(** The tiers from the lowest to the highest. *)
Definition tierRank (T : Tier) : nat :=
  match T with
  | NoMatch => 0
  | Subsequence => 1
  | Substring => 2
  | Prefix => 3
  | Exact => 4
  end.

(** [T] is the first tier, in the order exact, prefix, substring,
    subsequence, that the lower-cased pair satisfies (no match when it
    satisfies none). *)
Definition inTier (query target : string) (T : Tier) : Prop :=
  let q := JS.toLowerCase query in
  let t := JS.toLowerCase target in
  match T with
  | Exact => t = q
  | Prefix => t <> q /\ IsPrefix q t
  | Substring => t <> q /\ ~ IsPrefix q t /\ IsSubstring q t
  | Subsequence =>
      t <> q /\ ~ IsPrefix q t /\ ~ IsSubstring q t /\ IsSubsequence q t
  | NoMatch =>
      t <> q /\ ~ IsPrefix q t /\ ~ IsSubstring q t /\ ~ IsSubsequence q t
  end.

(** ** Notions used in the proofs *)

(** [sep] does not start at any position of [b] in the text [b +:+ s]. *)
Fixpoint sepFreeIn (sep b s : string) : Prop :=
  match b with
  | "" => True
  | String c b' => JS.startsWith (b +:+ s) sep = false /\ sepFreeIn sep b' s
  end.

(** No blank line inside, no line feed at the end: every line feed is
    followed by another code unit. *)
Fixpoint noBlankLine (s : string) : Prop :=
  match s with
  | "" => True
  | String c s' =>
      (c = JS.LF -> exists d s'', s' = String d s'' /\ d <> JS.LF)
      /\ noBlankLine s'
  end.

(** The first record of any result is flagged main. *)
Definition firstIsMain (ws : list Worktree.t) : Prop :=
  match ws with
  | [] => True
  | w :: _ => Worktree.isMain w = true
  end.

(** The loop's invariant: [seen] holds exactly the git directories of
    [projects], and no two of them are equal. *)
Definition seenInv (st : list Project.t * gset string) : Prop :=
  NoDup (map Project.gitDir (fst st)) /\
  forall g, g ∈ (snd st) <-> In g (map Project.gitDir (fst st)).

(** The greedy scan behind [subseqLoop], on the part of the query still to
    be matched: the number of its code units found in [rest], in order. *)
Fixpoint greedy (q rest : string) : nat :=
  match rest with
  | "" => 0
  | String c rest' =>
      match q with
      | "" => 0
      | String d q' =>
          if bool_decide (c = d) then S (greedy q' rest') else greedy q rest'
      end
  end.

(** The items one project contributes to the flat list. *)
Definition itemsOf (collapsed : gset string) (query : string)
    (project : Project.t) : list ListItem :=
  buildStep collapsed query [] project.

(** The invariant of the state machine: the flat list is the one derived
    from the projects, the collapsed set and the filter text, and the cursor
    lies between 0 and the last index (0 for an empty list). *)
Definition derived (s : AppState) : Prop :=
  filteredItems s
  = buildFilteredItems (projects s) (collapsedProjects s) (filterText s).

Definition cursorInRange (s : AppState) : Prop :=
  0 <= selectedIndex s <= Z.max 0 (JS.len (filteredItems s) - 1).

(** Whether one of the lines is the bare token [tag]. *)
Definition hasTag (tag : string) (lines : list string) : bool :=
  existsb (fun l => String.eqb l tag) lines.

(** ** The block format, written from a record *)

(** The tag lines that carry the fields of a record: [HEAD <hash>], then
    [branch refs/heads/<name>] or [detached], then [locked] and [prunable]
    when set. *)
Definition wireTags (wt : Worktree.t) : list string :=
  ["HEAD " +:+ Worktree.head wt]
  ++ [match Worktree.branch wt with
      | Some b => "branch refs/heads/" +:+ b
      | None => "detached"
      end]
  ++ (if Worktree.isLocked wt then ["locked"] else [])
  ++ (if Worktree.isPrunable wt then ["prunable"] else []).

Definition wireBlock (wt : Worktree.t) : Block :=
  {| b_path := Worktree.path wt; b_tags := wireTags wt |}.

(** The fields of a record fit on lines of their own, and the optional
    dirty flag is absent. *)
Definition fieldsOk (wt : Worktree.t) : Prop :=
  lineOk (Worktree.path wt) /\
  lineOk (Worktree.head wt) /\
  (forall b, Worktree.branch wt = Some b -> lineOk b) /\
  Worktree.isDirty wt = None.

(** The first record is flagged main and no other one is. *)
Definition mainFirst (wts : list Worktree.t) : Prop :=
  match wts with
  | [] => True
  | wt :: rest =>
      Worktree.isMain wt = true /\
      Forall (fun w => Worktree.isMain w = false) rest
  end.

(** What every loaded project satisfies: a non-empty git directory,
    worktrees with paths, and, when there are worktrees, a first one flagged
    main that gives the main worktree path. *)
Definition wellLoaded (p : Project.t) : Prop :=
  Project.gitDir p <> "" /\
  Forall (fun wt => Worktree.path wt <> "") (Project.worktrees p) /\
  (Project.worktrees p = [] \/
   exists wt rest,
     Project.worktrees p = wt :: rest /\
     Worktree.isMain wt = true /\
     Project.mainWorktree p = Worktree.path wt).

(** What holds of every state that the keyboard handler alone leads to from
    the initial state of the projects [loaded], whenever the renders come. *)
Definition keysInv (loaded : list Project.t) (s : AppState) : Prop :=
  projects s = loaded /\
  filterText s = "" /\
  derived s /\
  cursorInRange s /\
  (forall n, n ∈ collapsedProjects s ->
             exists p, In p loaded /\ Project.name p = n) /\
  (forall path, selectedPath s = Some path ->
                exists p wt, In p loaded /\ In wt (Project.worktrees p) /\
                             Worktree.path wt = path).

(** The confirm-delete view is shown with the cursor on a worktree that is
    not main. *)
Definition deleteGuard (s : AppState) : Prop :=
  view s = ConfirmDelete ->
  exists wt p,
    JS.at_ (filteredItems s) (selectedIndex s) = Some (WorktreeItem wt p) /\
    Worktree.isMain wt = false.

(** The actions that the handler dispatches on a state of the projects
    [loaded]. *)
Definition keyAction (loaded : list Project.t) (a : AppAction) : Prop :=
  a = SET_FILTER "" \/
  (exists d, a = MOVE_SELECTION d) \/
  a = SELECT_WORKTREE \/
  (exists p, In p loaded /\ a = TOGGLE_PROJECT (Project.name p)) \/
  a = SHOW_CREATE \/ a = SHOW_DELETE \/ a = SHOW_HELP.

(** A render comes between any two keys; [keyed] says that a key was the
    last event. *)
Fixpoint renderBetweenKeys (keyed : bool) (events : list UiEvent) : bool :=
  match events with
  | [] => true
  | Key _ :: events' => negb keyed && renderBetweenKeys true events'
  | Render :: events' => renderBetweenKeys false events'
  end.

(** ** A host for the examples *)

(** [basename] and [resolve] on plain POSIX paths: the last segment, and an
    absolute second argument or the two joined by a slash. *)
Definition posixBasename (p : string) : string :=
  default "" (last (JS.split p "/")).

Definition posixResolve (base p : string) : string :=
  if JS.startsWith p "/" then p else base +:+ "/" +:+ p.

(** The listing of a repository at [/r] with its main checkout only. *)
Definition listingOfR : string :=
  JS.join ["worktree /r"; "HEAD 0123456789abcdef0123456789abcdef01234567";
           "branch refs/heads/main"; ""; ""] JS.nl.

(** A machine whose only repository is [/r]: [git rev-parse] and
    [git worktree list] answer for it, [git worktree add] exits with 0 without
    the listing changing, and every other call fails. *)
Definition fixtureSh (argv : list string) : string + string :=
  if bool_decide (argv = ["git"; "-C"; "/r"; "rev-parse"; "--git-dir"])
  then inl (".git" +:+ JS.nl)
  else if bool_decide (argv = ["git"; "-C"; "/r"; "worktree"; "list"; "--porcelain"])
  then inl listingOfR
  else if bool_decide (take 5 argv = ["git"; "-C"; "/r"; "worktree"; "add"])
  then inl ""
  else inr "fatal: not a git repository (or any of the parent directories): .git".

Definition fixtureHost : Host :=
  {| World := unit;
     sh := fun argv w => (fixtureSh argv, w);
     glob := fun _ w => (None, w);
     cwd := fun _ => "/tmp";
     resolve := posixResolve;
     basename := posixBasename;
     expandPath := fun p => p |}.

(** What [loadProject] returns for [/r] on the example host. *)
Definition loadedR : Project.t :=
  Project.mk "r" "/r/.git" "/r" (parsePorcelain listingOfR).

(** Two configured entries for the repository [/r], the first one with an
    empty name. *)
Definition emptyNameConfig : FishTreeConfig.t :=
  FishTreeConfig.mk "/base" [ProjectConfig.mk "" "/r"; ProjectConfig.mk "b" "/r"].

(** The listing of a repository with a second, detached worktree. *)
Definition sampleBlocks : list Block :=
  [ {| b_path := "/r";
       b_tags := ["HEAD 0123456789abcdef0123456789abcdef01234567";
                  "branch refs/heads/main"] |};
    {| b_path := "/r/wt";
       b_tags := ["HEAD 89abcdef0123456789abcdef0123456789abcdef";
                  "branch refs/heads/old"; "detached"; "locked"] |} ].

(** A project with a main checkout and three more worktrees: a flat list of
    five items, the cursor moved to the last one. *)
Definition sampleWorktree (dir branch : string) (main : bool) : Worktree.t :=
  Worktree.mk dir "0123456789abcdef0123456789abcdef01234567" (Some branch)
    main false false None.

Definition sampleProject : Project.t :=
  Project.mk "app" "/r/.git" "/r"
    [sampleWorktree "/r" "main" true;
     sampleWorktree "/w/auth" "auth" false;
     sampleWorktree "/w/feat-auth-flow" "feat-auth-flow" false;
     sampleWorktree "/w/fix-typo" "fix-typo" false].

Definition cursorAtEnd : AppState := run [sampleProject] [MOVE_SELECTION 3].

(** The example host with a configuration that names the repository [/r]. *)
Definition fixtureConfig : FishTreeConfig.t :=
  FishTreeConfig.mk "/base" [ProjectConfig.mk "app" "/r"].

Definition fixtureCli : @CliHost fixtureHost :=
  {| loadConfig := fun w => (fixtureConfig, w) |}.

(** ** Examples *)

Example split_blocks :
  JS.split ("a" +:+ JS.nlnl +:+ "b" +:+ JS.nl +:+ "c" +:+ JS.nlnl +:+ JS.nl +:+ "d") JS.nlnl
  = ["a"; "b" +:+ JS.nl +:+ "c"; JS.nl +:+ "d"].
Proof. reflexivity. Qed.

Example split_empty : JS.split "" JS.nl = [""].
Proof. reflexivity. Qed.

Example trim_both : JS.trim ("  a b " +:+ JS.nl) = "a b".
Proof. reflexivity. Qed.

Example replace_first : JS.replace "refs/heads/refs/heads/x" "refs/heads/" "" = "refs/heads/x".
Proof. reflexivity. Qed.

Example parse_two :
  parsePorcelain
    (JS.join ["worktree /r"; "HEAD abc"; "branch refs/heads/main"; "";
              "worktree /r/wt"; "HEAD def"; "detached"; "locked"; ""; ""] JS.nl)
  = [Worktree.mk "/r" "abc" (Some "main") true false false None;
     Worktree.mk "/r/wt" "def" None false true false None].
Proof. reflexivity. Qed.

(** A last block whose path is white space only loses its path to [trim],
    and is skipped; so is an empty listing. *)
Example blank_path_is_skipped :
  parsePorcelain (JS.join ["worktree /r"; "bare"; ""; "worktree  "] JS.nl)
  = [Worktree.mk "/r" "" None true false false None]
  /\ parsePorcelain "" = [].
Proof. split; reflexivity. Qed.

(** * Properties *)

(** ** Strings *)

Lemma app_empty_r (s : string) : s +:+ "" = s.
Proof. induction s as [|c s IH]; simpl; [reflexivity|now rewrite IH]. Qed.

Lemma app_assoc_str (a b c : string) : (a +:+ b) +:+ c = a +:+ b +:+ c.
Proof. induction a as [|x a IH]; simpl; [reflexivity|now rewrite IH]. Qed.

Lemma app_length_str (a b : string) :
  String.length (a +:+ b) = (String.length a + String.length b)%nat.
Proof. induction a as [|x a IH]; simpl; [reflexivity|now rewrite IH]. Qed.

(** ** The porcelain parser *)

(** *** Trimming and splitting *)

Lemma rev_app_rev_app (a b c : string) :
  String.rev_app (String.rev_app a b) c = String.rev_app b (a +:+ c).
Proof.
  revert b c. induction a as [|x a IH]; intros b c; simpl; [reflexivity|].
  now rewrite IH.
Qed.

Lemma rev_rev_app (a : string) : String.rev (String.rev_app a "") = a.
Proof. unfold String.rev. rewrite rev_app_rev_app. simpl. apply app_empty_r. Qed.

Lemma split_go_piece sep b : forall s cur,
  sepFreeIn sep b s ->
  JS.split_go sep 0 cur (b +:+ s) = JS.split_go sep 0 (String.rev_app b cur) s.
Proof.
  induction b as [|c b IH]; intros s cur Hfree; [reflexivity|].
  destruct Hfree as [Hc Hb].
  change (String c b +:+ s) with (String c (b +:+ s)) in *.
  cbn [JS.split_go]. rewrite Hc. now rewrite IH.
Qed.

Lemma includes_nl_cons c s :
  JS.includes (String c s) JS.nl = Ascii.eqb JS.LF c || JS.includes s JS.nl.
Proof.
  cbn [JS.includes JS.nl JS.startsWith].
  destruct (Ascii.eqb JS.LF c); [|reflexivity]. now destruct s.
Qed.

Lemma noLF_sepFree_nl l s :
  JS.includes l JS.nl = false -> sepFreeIn JS.nl l s.
Proof.
  induction l as [|c l IH]; intros Hl; [exact I|].
  rewrite includes_nl_cons in Hl. apply orb_false_iff in Hl as [Hc Hl].
  split; [|now apply IH].
  change (String c l +:+ s) with (String c (l +:+ s)).
  cbn [JS.startsWith JS.nl]. now rewrite Hc.
Qed.

(** The lines of a text are found again by splitting it on the line feed. *)
Lemma split_join_nl l ls :
  Forall (fun l => JS.includes l JS.nl = false) (l :: ls) ->
  JS.split (JS.join (l :: ls) JS.nl) JS.nl = l :: ls.
Proof.
  unfold JS.split. revert l. induction ls as [|l' ls IH]; intros l Hall.
  - apply Forall_cons_1 in Hall as [Hl _].
    change (JS.join [l] JS.nl) with l. rewrite <- (app_empty_r l) at 1.
    rewrite split_go_piece by now apply noLF_sepFree_nl.
    simpl. now rewrite rev_rev_app.
  - apply Forall_cons_1 in Hall as [Hl Hall].
    change (JS.join (l :: l' :: ls) JS.nl)
      with (l +:+ JS.nl +:+ JS.join (l' :: ls) JS.nl).
    rewrite split_go_piece by now apply noLF_sepFree_nl.
    cbn [JS.nl String.append JS.split_go JS.startsWith].
    rewrite Ascii.eqb_refl. cbn [String.length Nat.sub].
    rewrite rev_rev_app. f_equal. now apply IH.
Qed.

Lemma noBlankLine_sepFree_nlnl b s : noBlankLine b -> sepFreeIn JS.nlnl b s.
Proof.
  induction b as [|c b IH]; intros Hb; [exact I|].
  destruct Hb as [Hc Hb]. split; [|now apply IH].
  change (String c b +:+ s) with (String c (b +:+ s)).
  cbn [JS.startsWith JS.nlnl].
  destruct (Ascii.eqb_spec JS.LF c) as [<-|Hne]; [|reflexivity].
  destruct (Hc eq_refl) as (d & b' & -> & Hd).
  change (String d b' +:+ s) with (String d (b' +:+ s)).
  cbn [JS.startsWith].
  destruct (Ascii.eqb_spec JS.LF d) as [<-|_]; [congruence|reflexivity].
Qed.

(** The blocks of a text are found again by splitting it on the blank
    line. *)
Lemma split_join_nlnl b bs :
  Forall noBlankLine (b :: bs) ->
  JS.split (JS.join (b :: bs) JS.nlnl) JS.nlnl = b :: bs.
Proof.
  unfold JS.split. revert b. induction bs as [|b' bs IH]; intros b Hall.
  - apply Forall_cons_1 in Hall as [Hb _].
    change (JS.join [b] JS.nlnl) with b. rewrite <- (app_empty_r b) at 1.
    rewrite split_go_piece by now apply noBlankLine_sepFree_nlnl.
    simpl. now rewrite rev_rev_app.
  - apply Forall_cons_1 in Hall as [Hb Hall].
    change (JS.join (b :: b' :: bs) JS.nlnl)
      with (b +:+ JS.nlnl +:+ JS.join (b' :: bs) JS.nlnl).
    rewrite split_go_piece by now apply noBlankLine_sepFree_nlnl.
    cbn [JS.nlnl String.append JS.split_go JS.startsWith].
    rewrite Ascii.eqb_refl. cbn [String.length Nat.sub].
    rewrite rev_rev_app. f_equal. now apply IH.
Qed.

Lemma trimEnd_clean_app a b :
  b <> "" -> JS.trimEnd b = b -> JS.trimEnd (a +:+ b) = a +:+ b.
Proof.
  intros Hb Hclean. induction a as [|c a IH]; [exact Hclean|].
  change (String c a +:+ b) with (String c (a +:+ b)).
  cbn [JS.trimEnd]. rewrite IH.
  destruct (a +:+ b) eqn:Hab; [|reflexivity].
  destruct a; [simpl in Hab; congruence|discriminate].
Qed.

Lemma trimEnd_blank tr : blank tr = true -> JS.trimEnd tr = "".
Proof.
  induction tr as [|c tr IH]; [reflexivity|]. simpl.
  intros [Hc Htr]%andb_true_iff. now rewrite IH, Hc.
Qed.

Lemma trimStart_blank tr : blank tr = true -> JS.trimStart tr = "".
Proof.
  induction tr as [|c tr IH]; [reflexivity|]. simpl.
  intros [Hc Htr]%andb_true_iff. rewrite Hc. now apply IH.
Qed.

Lemma trimEnd_app_blank a tr :
  blank tr = true -> JS.trimEnd (a +:+ tr) = JS.trimEnd a.
Proof.
  intros Htr. induction a as [|c a IH]; [now apply trimEnd_blank|].
  change (String c a +:+ tr) with (String c (a +:+ tr)).
  cbn [JS.trimEnd]. now rewrite IH.
Qed.

Lemma join_cons2 l l' ls sep :
  JS.join (l :: l' :: ls) sep = l +:+ sep +:+ JS.join (l' :: ls) sep.
Proof. reflexivity. Qed.

Lemma app_nonempty_l (a b : string) : a <> "" -> a +:+ b <> "".
Proof. destruct a; [congruence|discriminate]. Qed.

(** A text joined from pieces that are not empty and end cleanly is not
    empty and ends cleanly. *)
Lemma join_clean sep ls : forall l,
  Forall (fun l => l <> "" /\ JS.trimEnd l = l) (l :: ls) ->
  JS.join (l :: ls) sep <> "" /\
  JS.trimEnd (JS.join (l :: ls) sep) = JS.join (l :: ls) sep.
Proof.
  induction ls as [|l' ls IH]; intros l Hall.
  - apply Forall_cons_1 in Hall as [[Hne Hl] _]. now split.
  - apply Forall_cons_1 in Hall as [[Hne Hl] Hall].
    destruct (IH l' Hall) as [Hne' Hclean]. rewrite join_cons2. split.
    + now apply app_nonempty_l.
    + rewrite <- app_assoc_str. now apply trimEnd_clean_app.
Qed.

Lemma includes_nl_app a b :
  JS.includes (a +:+ b) JS.nl = JS.includes a JS.nl || JS.includes b JS.nl.
Proof.
  induction a as [|c a IH]; [reflexivity|].
  change (String c a +:+ b) with (String c (a +:+ b)).
  rewrite !includes_nl_cons, IH. now rewrite orb_assoc.
Qed.

Lemma noLF_head l :
  l <> "" -> JS.includes l JS.nl = false ->
  exists d r, l = String d r /\ d <> JS.LF.
Proof.
  destruct l as [|d r]; [congruence|]. intros _ Hl.
  rewrite includes_nl_cons in Hl. apply orb_false_iff in Hl as [Hd _].
  exists d, r. split; [reflexivity|].
  intros ->. now rewrite Ascii.eqb_refl in Hd.
Qed.

Lemma noBlankLine_app_line l s :
  JS.includes l JS.nl = false -> noBlankLine s -> noBlankLine (l +:+ s).
Proof.
  intros Hl Hs. induction l as [|c l IH]; [exact Hs|].
  rewrite includes_nl_cons in Hl. apply orb_false_iff in Hl as [Hc Hl].
  change (String c l +:+ s) with (String c (l +:+ s)).
  split; [|now apply IH].
  intros ->. now rewrite Ascii.eqb_refl in Hc.
Qed.

(** Lines that are not empty and hold no line feed, joined by line feeds,
    give a text without a blank line that starts with another code unit than
    the line feed. *)
Lemma join_lines_noBlank ls : forall l,
  Forall (fun l => l <> "" /\ JS.includes l JS.nl = false) (l :: ls) ->
  noBlankLine (JS.join (l :: ls) JS.nl) /\
  exists d r, JS.join (l :: ls) JS.nl = String d r /\ d <> JS.LF.
Proof.
  induction ls as [|l' ls IH]; intros l Hall.
  - apply Forall_cons_1 in Hall as [[Hne Hl] _].
    change (JS.join [l] JS.nl) with l. split; [|now apply noLF_head].
    rewrite <- (app_empty_r l). now apply noBlankLine_app_line.
  - apply Forall_cons_1 in Hall as [[Hne Hl] Hall].
    destruct (IH l' Hall) as [Hnb (d & r & Hjoin & Hd)].
    rewrite join_cons2. split.
    + apply noBlankLine_app_line; [assumption|].
      change (JS.nl +:+ JS.join (l' :: ls) JS.nl)
        with (String JS.LF (JS.join (l' :: ls) JS.nl)).
      split; [|assumption]. intros _. now exists d, r.
    + destruct (noLF_head l Hne Hl) as (d0 & r0 & -> & Hd0).
      now eexists d0, _.
Qed.

(** *** One block *)

Lemma lineOk_worktree_line p : lineOk p -> lineOk ("worktree " +:+ p).
Proof.
  intros (Hne & Hnl & Hclean). repeat split.
  - discriminate.
  - rewrite includes_nl_app, Hnl. reflexivity.
  - now apply trimEnd_clean_app.
Qed.

Lemma wfBlock_lines b : wfBlock b -> Forall lineOk (blockLines b).
Proof.
  intros [Hp Htags]. apply Forall_cons. split.
  - now apply lineOk_worktree_line.
  - eapply Forall_impl; [exact Htags|]. now intros l [Hl _].
Qed.

Lemma blockText_shape b : exists rest, blockText b = "worktree " +:+ rest.
Proof.
  unfold blockText, blockLines. destruct (b_tags b) as [|t ts].
  - now exists (b_path b).
  - rewrite join_cons2, app_assoc_str. now eexists.
Qed.

Lemma blockText_clean b :
  wfBlock b ->
  blockText b <> "" /\ JS.trimEnd (blockText b) = blockText b.
Proof.
  intros Hwf. apply join_clean.
  eapply Forall_impl; [exact (wfBlock_lines b Hwf)|].
  intros l (Hne & _ & Hclean). now split.
Qed.

Lemma blockText_noBlank b : wfBlock b -> noBlankLine (blockText b).
Proof.
  intros Hwf. apply join_lines_noBlank.
  eapply Forall_impl; [exact (wfBlock_lines b Hwf)|].
  intros l (Hne & Hnl & _). now split.
Qed.

Lemma blockText_trim b : wfBlock b -> JS.trim (blockText b) = blockText b.
Proof.
  intros Hwf. unfold JS.trim.
  destruct (blockText_shape b) as [rest Hshape].
  replace (JS.trimStart (blockText b)) with (blockText b)
    by now rewrite Hshape.
  now apply blockText_clean.
Qed.

Lemma blockText_lines b :
  wfBlock b -> JS.split (blockText b) JS.nl = blockLines b.
Proof.
  intros Hwf. apply split_join_nl.
  eapply Forall_impl; [exact (wfBlock_lines b Hwf)|].
  now intros l (_ & Hnl & _).
Qed.

Lemma scanLine_keeps_path v l :
  JS.startsWith l "worktree " = false -> v_path (scanLine v l) = v_path v.
Proof.
  intros Hl. unfold scanLine. rewrite Hl.
  repeat match goal with |- context [if ?c then _ else _] => destruct c end;
    reflexivity.
Qed.

Lemma fold_scanLine_keeps_path ls : forall v,
  Forall (fun l => JS.startsWith l "worktree " = false) ls ->
  v_path (fold_left scanLine ls v) = v_path v.
Proof.
  induction ls as [|l ls IH]; intros v Hall; [reflexivity|].
  apply Forall_cons_1 in Hall as [Hl Hall]. simpl.
  rewrite IH by assumption. now apply scanLine_keeps_path.
Qed.

Lemma scanLine_worktree v p :
  scanLine v ("worktree " +:+ p)
  = {| v_path := p; v_head := v_head v; v_branch := v_branch v;
       v_isMain := v_isMain v; v_isLocked := v_isLocked v;
       v_isPrunable := v_isPrunable v |}.
Proof. reflexivity. Qed.

(** The path read from a well-formed block is the one of its [worktree]
    line. *)
Lemma scanLines_path b :
  wfBlock b -> v_path (scanLines (blockLines b)) = b_path b.
Proof.
  intros [_ Htags]. unfold scanLines, blockLines.
  cbn [fold_left]. rewrite scanLine_worktree, fold_scanLine_keeps_path.
  - reflexivity.
  - eapply Forall_impl; [exact Htags|]. now intros l [_ Hl].
Qed.

Lemma parseBlock_wf acc b :
  wfBlock b ->
  parseBlock acc (blockText b) = acc ++ [blockRecord (JS.len acc =? 0) b].
Proof.
  intros Hwf. unfold parseBlock.
  rewrite blockText_trim, blockText_lines by assumption.
  destruct (blockText_clean b Hwf) as [Hne _].
  destruct (blockText b) as [|c t] eqn:Htext; [congruence|]. cbn [JS.truthy negb].
  pose proof (scanLines_path b Hwf) as Hpath.
  destruct Hwf as [(Hp & _) _].
  unfold blockRecord. rewrite Hpath.
  destruct (b_path b); [congruence|]. reflexivity.
Qed.

Lemma fold_parseBlock_wf bs : forall acc,
  Forall wfBlock bs ->
  fold_left parseBlock (map blockText bs) acc
  = acc ++ blockRecords (JS.len acc =? 0) bs.
Proof.
  induction bs as [|b bs IH]; intros acc Hall; simpl.
  - now rewrite app_nil_r.
  - apply Forall_cons_1 in Hall as [Hb Hall].
    rewrite parseBlock_wf, IH by assumption.
    rewrite <- app_assoc. simpl. do 3 f_equal.
    unfold JS.len. rewrite length_app. simpl.
    apply Z.eqb_neq. lia.
Qed.

(** *** The whole text *)

Lemma porcelainText_trim b bs trailer :
  Forall wfBlock (b :: bs) -> blank trailer = true ->
  JS.trim (porcelainText (b :: bs) +:+ trailer) = porcelainText (b :: bs).
Proof.
  intros Hall Htr. unfold JS.trim.
  assert (exists rest, porcelainText (b :: bs) = "worktree " +:+ rest)
    as [rest Hshape].
  { unfold porcelainText. destruct (blockText_shape b) as [r Hr].
    destruct bs as [|b' bs]; simpl map.
    - now exists r.
    - rewrite join_cons2, Hr, app_assoc_str. now eexists. }
  replace (JS.trimStart (porcelainText (b :: bs) +:+ trailer))
    with (porcelainText (b :: bs) +:+ trailer) by now rewrite Hshape.
  rewrite trimEnd_app_blank by assumption.
  unfold porcelainText. simpl map. apply join_clean.
  change (Forall (fun l => l <> "" /\ JS.trimEnd l = l)
            (map blockText (b :: bs))).
  apply Forall_map. eapply Forall_impl; [exact Hall|].
  intros x Hx. now apply blockText_clean.
Qed.

(** The parser on a text of well-formed blocks, with white space after the
    last one: one record per block. *)
Lemma parsePorcelain_blocks bs trailer :
  Forall wfBlock bs -> blank trailer = true ->
  parsePorcelain (porcelainText bs +:+ trailer) = blockRecords true bs.
Proof.
  intros Hall Htr. unfold parsePorcelain. destruct bs as [|b bs].
  - change (porcelainText [] +:+ trailer) with trailer.
    unfold JS.trim. rewrite trimStart_blank by assumption. reflexivity.
  - rewrite porcelainText_trim by assumption.
    unfold porcelainText. simpl map. rewrite split_join_nlnl.
    + change (blockText b :: map blockText bs) with (map blockText (b :: bs)).
      now rewrite fold_parseBlock_wf.
    + change (Forall noBlankLine (map blockText (b :: bs))).
      apply Forall_map. eapply Forall_impl; [exact Hall|].
      intros x Hx. now apply blockText_noBlank.
Qed.

Lemma blockRecords_length first bs :
  length (blockRecords first bs) = length bs.
Proof.
  revert first. induction bs as [|b bs IH]; intros first; simpl; [reflexivity|].
  now rewrite IH.
Qed.

Lemma blockRecords_paths first bs :
  Forall wfBlock bs ->
  map Worktree.path (blockRecords first bs) = map b_path bs.
Proof.
  revert first. induction bs as [|b bs IH]; intros first Hall; [reflexivity|].
  apply Forall_cons_1 in Hall as [Hb Hall]. simpl.
  now rewrite IH, scanLines_path.
Qed.

Lemma blockRecords_lookup bs : forall first i b,
  bs !! i = Some b ->
  exists f, blockRecords first bs !! i = Some (blockRecord f b).
Proof.
  induction bs as [|b0 bs IH]; intros first i b Hi; [discriminate|].
  destruct i as [|i]; simpl in *.
  - injection Hi as ->. now exists first.
  - now apply IH.
Qed.

Lemma parseBlock_firstIsMain acc block :
  firstIsMain acc -> firstIsMain (parseBlock acc block).
Proof.
  intros Hacc. unfold parseBlock.
  destruct (negb _); [assumption|].
  destruct (JS.truthy (v_path _)); [|assumption].
  destruct acc as [|w acc]; [reflexivity|exact Hacc].
Qed.

Lemma parsePorcelain_first_main output w rest :
  parsePorcelain output = w :: rest -> Worktree.isMain w = true.
Proof.
  unfold parsePorcelain.
  assert (forall blocks acc, firstIsMain acc ->
            firstIsMain (fold_left parseBlock blocks acc)) as Hfold.
  { induction blocks as [|block blocks IH]; intros acc Hacc; [assumption|].
    simpl. now apply IH, parseBlock_firstIsMain. }
  intros Hout.
  specialize (Hfold (JS.split (JS.trim output) JS.nlnl) [] I).
  now rewrite Hout in Hfold.
Qed.

(** C1. For a text made of N well-formed blocks separated by one blank line
    (and followed by white space only), the parser returns exactly N records,
    their paths being the paths of the blocks in the order of the blocks, and
    the first record is flagged main; indeed the first record of the result
    is flagged main for every input text, whatever its tags. *)
Theorem parsePorcelain_wellformed (bs : list Block) (trailer : string) :
  Forall wfBlock bs ->
  blank trailer = true ->
  let result := parsePorcelain (porcelainText bs +:+ trailer) in
  length result = length bs /\
  map Worktree.path result = map b_path bs /\
  (bs <> [] -> exists w rest, result = w :: rest /\ Worktree.isMain w = true) /\
  (forall output w rest,
     parsePorcelain output = w :: rest -> Worktree.isMain w = true).
Proof.
  intros Hall Htr. cbv zeta. rewrite parsePorcelain_blocks by assumption.
  split; [apply blockRecords_length|].
  split; [now apply blockRecords_paths|].
  split; [|exact parsePorcelain_first_main].
  destruct bs as [|b bs]; [congruence|]. intros _.
  now eexists _, _.
Qed.

Lemma scanLine_keeps_detached v l :
  v_branch v = None -> JS.startsWith l "branch " = false ->
  v_branch (scanLine v l) = None.
Proof.
  intros Hv Hl. unfold scanLine. rewrite Hl.
  repeat match goal with |- context [if ?c then _ else _] => destruct c end;
    simpl; congruence.
Qed.

Lemma fold_scanLine_keeps_detached ls : forall v,
  v_branch v = None ->
  Forall (fun l => JS.startsWith l "branch " = false) ls ->
  v_branch (fold_left scanLine ls v) = None.
Proof.
  induction ls as [|l ls IH]; intros v Hv Hall; [assumption|].
  apply Forall_cons_1 in Hall as [Hl Hall]. simpl.
  apply IH; [|assumption]. now apply scanLine_keeps_detached.
Qed.

(** The loop over the lines: a [detached] line that no [branch] line follows
    leaves the branch at none. *)
Lemma scanLines_detached pre post :
  Forall (fun l => JS.startsWith l "branch " = false) post ->
  v_branch (scanLines (pre ++ "detached" :: post)) = None.
Proof.
  intros Hpost. unfold scanLines. rewrite fold_left_app. simpl.
  now apply fold_scanLine_keeps_detached.
Qed.

(** C2, as the code has it. In a text of well-formed blocks, a block with a
    [detached] line that no [branch <ref>] line follows gives a record whose
    branch is none, whatever [branch] lines come before the [detached]
    line. *)
Theorem detached_last_gives_no_branch (bs : list Block) (trailer : string)
    (i : nat) (b : Block) (pre post : list string) :
  Forall wfBlock bs ->
  blank trailer = true ->
  bs !! i = Some b ->
  b_tags b = pre ++ "detached" :: post ->
  Forall (fun l => JS.startsWith l "branch " = false) post ->
  exists w,
    parsePorcelain (porcelainText bs +:+ trailer) !! i = Some w /\
    Worktree.path w = b_path b /\
    Worktree.branch w = None.
Proof.
  intros Hall Htr Hi Htags Hpost.
  rewrite parsePorcelain_blocks by assumption.
  destruct (blockRecords_lookup bs true i b Hi) as [f Hf].
  exists (blockRecord f b). split; [exact Hf|]. split.
  - apply scanLines_path. rewrite Forall_forall in Hall.
    apply Hall. eapply list_elem_of_lookup_2, Hi.
  - unfold blockRecord, blockLines. cbn [Worktree.branch]. rewrite Htags.
    now apply (scanLines_detached (("worktree " +:+ b_path b) :: pre) post).
Qed.

(** The claim of C2 fails for a [branch] line after the [detached] line: the
    branch of the record is the one of that line. *)
Lemma branch_after_detached_counterexample :
  parsePorcelain
    (JS.join ["worktree /a"; "HEAD abc"; "detached"; "branch refs/heads/x"] JS.nl)
  = [Worktree.mk "/a" "abc" (Some "x") true false false None].
Proof. reflexivity. Qed.

Example branch_before_detached :
  parsePorcelain
    (JS.join ["worktree /a"; "HEAD abc"; "branch refs/heads/x"; "detached"] JS.nl)
  = [Worktree.mk "/a" "abc" None true false false None].
Proof. reflexivity. Qed.

Lemma sampleBlocks_wf : Forall wfBlock sampleBlocks.
Proof.
  repeat first [apply Forall_cons; split | apply Forall_nil_2 | split];
    solve [discriminate | reflexivity].
Qed.

Lemma parsePorcelain_wellformed_witness :
  length (parsePorcelain (porcelainText sampleBlocks +:+ JS.nlnl)) = 2%nat.
Proof.
  exact (proj1 (parsePorcelain_wellformed sampleBlocks JS.nlnl
                  sampleBlocks_wf eq_refl)).
Defined.

Lemma detached_last_gives_no_branch_witness :
  exists w,
    parsePorcelain (porcelainText sampleBlocks +:+ JS.nlnl) !! 1%nat = Some w /\
    Worktree.path w = "/r/wt" /\
    Worktree.branch w = None.
Proof.
  refine (detached_last_gives_no_branch sampleBlocks JS.nlnl 1
            {| b_path := "/r/wt";
               b_tags := ["HEAD 89abcdef0123456789abcdef0123456789abcdef";
                          "branch refs/heads/old"; "detached"; "locked"] |}
            ["HEAD 89abcdef0123456789abcdef0123456789abcdef";
             "branch refs/heads/old"] ["locked"]
            sampleBlocks_wf eq_refl eq_refl eq_refl _).
  repeat constructor.
Defined.

(** ** The error classifier *)



Lemma classifyGitError_stderr s : stderr (classifyGitError s) = s.
Proof.
  unfold classifyGitError.
  repeat match goal with |- context [if ?b then _ else _] => destruct b end;
    reflexivity.
Qed.



(** ** Worktree operations *)

Section OperationFacts.
Context `{Host}.

Lemma find_none_forall {A} (p : A -> bool) (xs : list A) :
  Forall (fun x => p x = false) xs -> JS.find p xs = None.
Proof.
  induction 1 as [|x xs Hx _ IH]; simpl; [reflexivity|].
  now rewrite Hx.
Qed.

(** C4. When the creation subprocess exits with 0 and the re-listing
    succeeds without holding a worktree whose path is the requested one,
    [addWorktree] returns the error COMMAND_FAILED (with its message naming
    the path), and no worktree value. *)
Theorem addWorktree_not_listed gitDir opts w out w1 value w2 :
  sh (addArgv gitDir opts) w = (inl out, w1) ->
  listWorktrees gitDir w1 = (Ok value, w2) ->
  Forall (fun wt => Worktree.path wt <> basePath opts) value ->
  addWorktree gitDir opts w =
    (Err {| code := COMMAND_FAILED;
            message := "Worktree was created but not found in list at " +:+ basePath opts;
            stderr := "" |}, w2).
Proof.
  intros Hadd Hlist Hnone.
  unfold addWorktree, bind. rewrite Hadd, Hlist.
  rewrite find_none_forall; [reflexivity|].
  eapply Forall_impl; [exact Hnone|].
  intros wt Hne. simpl in Hne. now apply String.eqb_neq.
Qed.

(** When the re-listing itself fails, its error is what [addWorktree]
    returns. *)
Lemma addWorktree_relist_error gitDir opts w out w1 e w2 :
  sh (addArgv gitDir opts) w = (inl out, w1) ->
  listWorktrees gitDir w1 = (Err e, w2) ->
  addWorktree gitDir opts w = (Err e, w2).
Proof.
  intros Hadd Hlist. unfold addWorktree, bind. now rewrite Hadd, Hlist.
Qed.

(** C8. [isWorktreeDirty] yields a boolean for every path and world, and
    when the status subprocess throws, whatever the reason, that boolean is
    [true]. *)
Theorem isWorktreeDirty_failure worktreePath w e w1 :
  sh ["git"; "-C"; worktreePath; "status"; "--porcelain"] w = (inr e, w1) ->
  isWorktreeDirty worktreePath w = (true, w1).
Proof.
  intros Hsh. unfold isWorktreeDirty, bind. now rewrite Hsh.
Qed.

(** C9. For a path that resolves to a repository ([detectGitDir] gives a
    non-empty git directory [g]): when listing fails the project is loaded
    all the same, with an empty worktree collection; and in every case the
    project's name is the basename of the path of the first worktree flagged
    main, or the basename of the input path when no worktree is flagged
    main. *)
Theorem loadProject_spec path w g w1 result w2 :
  detectGitDir path w = (Some g, w1) ->
  g <> "" ->
  listWorktrees path w1 = (result, w2) ->
  exists p,
    loadProject path w = (Some p, w2) /\
    Project.gitDir p = g /\
    Project.worktrees p = match result with Ok value => value | Err _ => [] end /\
    (forall e, result = Err e ->
       p = Project.mk (basename path) g path []) /\
    (forall wt, JS.find Worktree.isMain (Project.worktrees p) = Some wt ->
       Project.name p = basename (Worktree.path wt)) /\
    (JS.find Worktree.isMain (Project.worktrees p) = None ->
       Project.name p = basename path).
Proof.
  intros Hdet Hg Hlist.
  unfold loadProject, bind. rewrite Hdet.
  destruct g as [|c g']; [congruence|]. simpl.
  rewrite Hlist. eexists. split; [reflexivity|]. simpl.
  repeat split.
  - intros e ->. reflexivity.
  - intros wt Hwt. now rewrite Hwt.
  - intros Hnone. now rewrite Hnone.
Qed.

End OperationFacts.

Lemma addWorktree_not_listed_witness :
  @addWorktree fixtureHost "/r"
    {| basePath := "/r/wt"; branch := "feat"; startPoint := None;
       createBranch := true |} tt
  = (Err {| code := COMMAND_FAILED;
            message := "Worktree was created but not found in list at /r/wt";
            stderr := "" |}, tt).
Proof.
  refine (@addWorktree_not_listed fixtureHost "/r"
            {| basePath := "/r/wt"; branch := "feat"; startPoint := None;
               createBranch := true |} tt "" tt
            (parsePorcelain listingOfR) tt _ _ _).
  - reflexivity.
  - reflexivity.
  - vm_compute. repeat constructor. discriminate.
Defined.

Lemma isWorktreeDirty_failure_witness :
  @isWorktreeDirty fixtureHost "/nowhere" tt = (true, tt).
Proof.
  apply (@isWorktreeDirty_failure fixtureHost "/nowhere" tt
           "fatal: not a git repository (or any of the parent directories): .git" tt).
  reflexivity.
Defined.

Lemma loadProject_spec_witness :
  exists p,
    @loadProject fixtureHost "/r" tt = (Some p, tt) /\
    Project.gitDir p = "/r/.git" /\
    Project.name p = "r".
Proof.
  destruct (@loadProject_spec fixtureHost "/r" tt "/r/.git" tt
              (Ok (parsePorcelain listingOfR)) tt)
    as (p & Hp & Hg & Hw & _ & Hmain & _).
  - reflexivity.
  - discriminate.
  - reflexivity.
  - exists p. split; [exact Hp|]. split; [exact Hg|].
    rewrite Hw in Hmain. exact (Hmain _ eq_refl).
Defined.

(** ** The fuzzy matcher *)

Lemma startsWith_prefix t q : JS.startsWith t q = true <-> IsPrefix q t.
Proof.
  unfold IsPrefix. revert t. induction q as [|a q IH]; intros t; simpl.
  - split; [intros _; now exists t|reflexivity].
  - destruct t as [|b t].
    + split; [discriminate|intros [r Hr]; discriminate].
    + destruct (Ascii.eqb_spec a b) as [->|Hab].
      * rewrite IH. split; intros [r Hr]; exists r; congruence.
      * split; [discriminate|intros [r Hr]; congruence].
Qed.

Lemma includes_substring t q : JS.includes t q = true <-> IsSubstring q t.
Proof.
  unfold IsSubstring. induction t as [|c t IH]; simpl.
  - rewrite orb_false_r, startsWith_prefix. split.
    + intros [r Hr]. now exists "", r.
    + intros (a & b & Hab). destruct a; [|discriminate]. now exists b.
  - rewrite orb_true_iff, IH, startsWith_prefix. split.
    + intros [[r Hr]|(a & b & Hab)].
      * now exists "", r.
      * exists (String c a), b. simpl. now rewrite Hab.
    + intros (a & b & Hab). destruct a as [|x a]; simpl in Hab.
      * left. now exists b.
      * right. exists a, b. congruence.
Qed.

Lemma charAt_app_here (q1 q2 : string) :
  charAt (q1 +:+ q2) (String.length q1) = charAt q2 0.
Proof. unfold charAt. exact (eq_sym (append_correct2 q1 q2 0)). Qed.

Lemma subseqLoop_greedy rest : forall q1 q2,
  subseqLoop (q1 +:+ q2) rest (String.length q1)
  = (String.length q1 + greedy q2 rest)%nat.
Proof.
  induction rest as [|c rest IH]; intros q1 q2; simpl; [lia|].
  rewrite app_length_str, charAt_app_here.
  destruct q2 as [|d q2]; simpl.
  - rewrite (proj2 (Nat.ltb_ge _ _)) by lia. lia.
  - rewrite (proj2 (Nat.ltb_lt _ _)) by lia.
    destruct (bool_decide_reflect (c = d)) as [->|Hcd].
    + rewrite bool_decide_eq_true_2 by reflexivity.
      specialize (IH (q1 +:+ String d "") q2).
      rewrite app_assoc_str, app_length_str in IH. simpl in IH.
      replace (String.length q1 + 1)%nat with (S (String.length q1)) in IH by lia.
      rewrite IH. lia.
    + rewrite bool_decide_eq_false_2 by congruence.
      apply (IH q1 (String d q2)).
Qed.

Lemma greedy_le q rest : (greedy q rest <= String.length q)%nat.
Proof.
  revert q. induction rest as [|c rest IH]; intros q; simpl; [lia|].
  destruct q as [|d q]; simpl; [lia|].
  destruct (bool_decide (c = d)); [specialize (IH q)|specialize (IH (String d q))];
    simpl in *; lia.
Qed.

Lemma subsequence_tail d q t : IsSubsequence (String d q) t -> IsSubsequence q t.
Proof.
  induction t as [|c t IH]; intros Hs; inversion Hs; subst.
  - now apply subseq_skip.
  - apply subseq_skip. now apply IH.
Qed.

Lemma greedy_subsequence q t :
  greedy q t = String.length q <-> IsSubsequence q t.
Proof.
  revert q. induction t as [|c t IH]; intros q.
  - destruct q as [|d q]; simpl.
    + split; [constructor|reflexivity].
    + split; [discriminate|intros Hs; inversion Hs].
  - destruct q as [|d q]; simpl.
    + split; [constructor|reflexivity].
    + destruct (bool_decide_reflect (c = d)) as [->|Hcd].
      * split.
        -- intros Hg. apply subseq_take, IH. lia.
        -- intros Hs. f_equal. apply IH.
           inversion Hs; subst; [assumption|].
           now apply subsequence_tail with d.
      * rewrite (IH (String d q)). split.
        -- apply subseq_skip.
        -- intros Hs. inversion Hs; subst; [congruence|assumption].
Qed.

Lemma subseqLoop_subsequence q t :
  (subseqLoop q t 0 =? String.length q)%nat = true <-> IsSubsequence q t.
Proof.
  rewrite Nat.eqb_eq. pose proof (subseqLoop_greedy t "" q) as Hg.
  simpl in Hg. rewrite Hg. apply greedy_subsequence.
Qed.

Lemma fuzzyMatch_inTier query target T :
  inTier query target T -> fuzzyMatch query target = tierScore T.
Proof.
  unfold inTier, fuzzyMatch.
  set (q := JS.toLowerCase query). set (t := JS.toLowerCase target).
  pose proof (startsWith_prefix t q) as Hp.
  pose proof (includes_substring t q) as Hi.
  pose proof (subseqLoop_subsequence q t) as Hs.
  destruct (String.eqb_spec t q) as [He|He];
    destruct (JS.startsWith t q); destruct (JS.includes t q);
    destruct (subseqLoop q t 0 =? String.length q)%nat;
    destruct T; simpl; intros Ht; try reflexivity; exfalso;
    intuition congruence.
Qed.

Lemma inTier_total query target : exists T, inTier query target T.
Proof.
  unfold inTier.
  set (q := JS.toLowerCase query). set (t := JS.toLowerCase target).
  pose proof (startsWith_prefix t q) as Hp.
  pose proof (includes_substring t q) as Hi.
  pose proof (subseqLoop_subsequence q t) as Hs.
  destruct (String.eqb_spec t q) as [He|He]; [now exists Exact|].
  destruct (JS.startsWith t q); [exists Prefix; intuition|].
  destruct (JS.includes t q); [exists Substring; intuition congruence|].
  destruct (subseqLoop q t 0 =? String.length q)%nat;
    [exists Subsequence|exists NoMatch]; intuition congruence.
Qed.

Lemma tierScore_monotone T1 T2 :
  (tierRank T2 <= tierRank T1)%nat -> tierScore T2 <= tierScore T1.
Proof. destruct T1, T2; simpl; lia. Qed.

(** C6. [fuzzyMatch] depends on its arguments through their lower-cased
    forms only, and returns the score of the first tier the lower-cased pair
    satisfies: 1000 for equality, 500 for a prefix, 200 for a substring, 50
    for an in-order subsequence, 0 otherwise; every pair is in one of the
    tiers. So a pair in a higher tier never scores below a pair in a lower
    one. *)
Theorem fuzzyMatch_tiers :
  (forall q t T, inTier q t T -> fuzzyMatch q t = tierScore T) /\
  (forall q t, exists T, inTier q t T) /\
  (forall q q' t t',
     JS.toLowerCase q = JS.toLowerCase q' ->
     JS.toLowerCase t = JS.toLowerCase t' ->
     fuzzyMatch q t = fuzzyMatch q' t') /\
  (forall q1 t1 T1 q2 t2 T2,
     inTier q1 t1 T1 -> inTier q2 t2 T2 ->
     (tierRank T2 <= tierRank T1)%nat ->
     fuzzyMatch q2 t2 <= fuzzyMatch q1 t1).
Proof.
  split; [exact fuzzyMatch_inTier|].
  split; [exact inTier_total|].
  split.
  - intros q q' t t' Hq Ht. unfold fuzzyMatch. now rewrite Hq, Ht.
  - intros q1 t1 T1 q2 t2 T2 H1 H2 Hr.
    rewrite (fuzzyMatch_inTier _ _ _ H1), (fuzzyMatch_inTier _ _ _ H2).
    now apply tierScore_monotone.
Qed.

Example fuzzy_scores :
  fuzzyMatch "auth" "Auth" = 1000 /\ fuzzyMatch "auth" "auth-flow" = 500 /\
  fuzzyMatch "auth" "feat-auth-flow" = 200 /\ fuzzyMatch "ath" "feat-auth" = 50 /\
  fuzzyMatch "xyz" "feat-auth" = 0 /\ fuzzyMatch "" "main" = 500.
Proof. repeat split; reflexivity. Qed.

Lemma fuzzyMatch_tiers_witness :
  fuzzyMatch "auth" "feat-auth-flow" <= fuzzyMatch "AUTH" "auth".
Proof.
  refine (proj2 (proj2 (proj2 fuzzyMatch_tiers))
            "AUTH" "auth" Exact "auth" "feat-auth-flow" Substring _ _ _).
  - reflexivity.
  - split; [discriminate|]. split.
    + rewrite <- startsWith_prefix. discriminate.
    + exists "feat-", "-flow". reflexivity.
  - simpl. lia.
Defined.

(** ** Project discovery *)

Section DiscoveryFacts.
Context `{Host}.

Local Arguments applyName : simpl never.

Lemma applyName_gitDir entry project :
  Project.gitDir (applyName entry project) = Project.gitDir project.
Proof. unfold applyName. now destruct (truthy_opt _). Qed.

Lemma assembleStep_cases st entry loaded_i :
  (assembleStep st (entry, loaded_i) = st /\
   (loaded_i = None \/
    exists p, loaded_i = Some p /\ Project.gitDir p ∈ (snd st)))
  \/
  (exists p, loaded_i = Some p /\ (Project.gitDir p ∉ snd st) /\
     assembleStep st (entry, loaded_i)
     = ((fst st) ++ [applyName entry p], {[Project.gitDir p]} ∪ (snd st))).
Proof.
  destruct st as [projects seen]. destruct loaded_i as [p|]; simpl.
  - destruct (bool_decide_reflect (Project.gitDir p ∈ seen)) as [Hin|Hout]; simpl.
    + left. split; [reflexivity|]. right. now exists p.
    + right. exists p. split; [reflexivity|]. split; [assumption|].
      pose proof (applyName_gitDir entry p) as Hk. unfold applyName in *.
      now rewrite Hk.
  - left. split; [reflexivity|now left].
Qed.

Lemma assembleStep_inv st x : seenInv st -> seenInv (assembleStep st x).
Proof.
  intros [Hnd Hseen]. destruct x as [entry loaded_i].
  destruct (assembleStep_cases st entry loaded_i)
    as [[-> _]|(p & _ & Hout & ->)]; [now split|].
  split; simpl.
  - rewrite map_app. simpl. apply NoDup_app. repeat split.
    + exact Hnd.
    + intros g Hg Hin. apply list_elem_of_In in Hg, Hin.
      destruct Hin as [<-|[]]. rewrite applyName_gitDir in Hg.
      now apply Hout, Hseen.
    + apply NoDup_singleton.
  - intros g. rewrite map_app, in_app_iff. simpl.
    rewrite applyName_gitDir, elem_of_union, elem_of_singleton, Hseen. intuition.
Qed.

Lemma assembleStep_grows st x p :
  In p (fst st) -> In p (fst (assembleStep st x)).
Proof.
  intros Hp. destruct x as [entry loaded_i].
  destruct (assembleStep_cases st entry loaded_i)
    as [[-> _]|(q & _ & _ & ->)]; [assumption|].
  simpl. apply in_app_iff. now left.
Qed.

Lemma fold_assemble_inv xs st :
  seenInv st -> seenInv (fold_left assembleStep xs st).
Proof.
  revert st. induction xs as [|x xs IH]; intros st Hst; simpl; [assumption|].
  now apply IH, assembleStep_inv.
Qed.

Lemma fold_assemble_grows xs st p :
  In p (fst st) -> In p (fst (fold_left assembleStep xs st)).
Proof.
  revert st. induction xs as [|x xs IH]; intros st Hp; simpl; [assumption|].
  now apply IH, assembleStep_grows.
Qed.

(** The first loaded project of a repository not seen before is kept. *)
Lemma fold_assemble_first xs : forall i st entry p,
  xs !! i = Some (entry, Some p) ->
  Project.gitDir p ∉ (snd st) ->
  (forall j e q, (j < i)%nat -> xs !! j = Some (e, Some q) ->
     Project.gitDir q <> Project.gitDir p) ->
  In (applyName entry p) (fst (fold_left assembleStep xs st)).
Proof.
  induction xs as [|x xs IH]; intros i st entry p Hi Hout Hfirst; [discriminate|].
  destruct i as [|i]; simpl in *.
  - injection Hi as ->. apply fold_assemble_grows.
    destruct (assembleStep_cases st entry (Some p))
      as [[_ [Hn|(q & Hq & Hin)]]|(q & Hq & _ & ->)].
    + discriminate.
    + injection Hq as <-. contradiction.
    + injection Hq as <-. simpl. apply in_app_iff. right. now left.
  - apply (IH i); [assumption| |].
    + destruct x as [e loaded_0].
      destruct (assembleStep_cases st e loaded_0)
        as [[-> _]|(q & -> & _ & ->)]; [assumption|].
      simpl. rewrite elem_of_union, elem_of_singleton.
      intros [Heq|Hin]; [|contradiction].
      now apply (Hfirst 0%nat e q (Nat.lt_0_succ i) eq_refl).
    + intros j e q Hj Hjq. apply (Hfirst (S j) e q); [lia|assumption].
Qed.

Lemma NoDup_map_unique {A B} (f : A -> B) (l : list A) x y :
  NoDup (map f l) -> In x l -> In y l -> f x = f y -> x = y.
Proof.
  induction l as [|a l IH]; simpl; [contradiction|].
  intros [Ha Hnd]%NoDup_cons [<-|Hx] [<-|Hy] Hf; [reflexivity| | |now apply IH].
  - exfalso. apply Ha, list_elem_of_In. rewrite Hf. now apply in_map.
  - exfalso. apply Ha, list_elem_of_In. rewrite <- Hf. now apply in_map.
Qed.

Lemma assembleProjects_inv cwdProject allPaths loaded :
  seenInv (fold_left assembleStep (zip allPaths loaded)
             (match cwdProject with Some p => [p] | None => [] end,
              match cwdProject with
              | Some p => {[Project.gitDir p]}
              | None => ∅
              end)).
Proof.
  apply fold_assemble_inv. destruct cwdProject as [c|]; split; simpl.
  - apply NoDup_singleton.
  - intros g. rewrite elem_of_singleton. intuition.
  - apply NoDup_nil_2.
  - intros g. rewrite elem_of_empty. intuition.
Qed.

Lemma assembleProjects_NoDup cwdProject allPaths loaded :
  NoDup (map Project.gitDir (assembleProjects cwdProject allPaths loaded)).
Proof. apply assembleProjects_inv. Qed.

(** [discoverProjects] returns an assembly of loaded projects. *)
Lemma discoverProjects_assembled config w :
  exists cwdProject autoPaths loaded,
    fst (discoverProjects config w)
    = assembleProjects cwdProject (configuredPaths config ++ autoPaths) loaded.
Proof.
  unfold discoverProjects, bind, ret, processCwd.
  destruct (loadProject (cwd w) w) as [cwdProject w1].
  destruct (glob (expandPath (FishTreeConfig.worktreeBase config)) w1) as [entries w2].
  match goal with
  | |- context [promiseAll ?f ?xs w2] => destruct (promiseAll f xs w2) as [loaded w3]
  end.
  now eexists cwdProject, _, loaded.
Qed.

Lemma fold_assemble_prefix xs st :
  exists more, fst (fold_left assembleStep xs st) = fst st ++ more.
Proof.
  revert st. induction xs as [|[entry loaded_i] xs IH]; intros st; simpl.
  - exists []. now rewrite app_nil_r.
  - destruct (IH (assembleStep st (entry, loaded_i))) as [more ->].
    destruct (assembleStep_cases st entry loaded_i)
      as [[-> _]|(q & _ & _ & ->)]; [now exists more|].
    simpl. rewrite <- app_assoc. now eexists.
Qed.

(** [Promise.all] returns one result for each element, in the order of the
    elements: the result at index [i] is what [f] returned for the element
    at index [i]. *)
Lemma promiseAll_lookup {A B} (f : A -> Async B) (xs : list A) :
  forall w bs w',
    promiseAll f xs w = (bs, w') ->
    length bs = length xs /\
    forall i x, xs !! i = Some x -> exists wi, bs !! i = Some (fst (f x wi)).
Proof.
  induction xs as [|x xs IH]; intros w bs w'; simpl.
  - unfold ret. intros [= <- <-]. split; [reflexivity|]. intros i x' [=].
  - unfold bind, ret. destruct (f x w) as [b w1] eqn:Hf.
    destruct (promiseAll f xs w1) as [bs' w2] eqn:Hall.
    intros [= <- <-]. destruct (IH w1 bs' w2 Hall) as [Hlen Hat].
    split; [simpl; now rewrite Hlen|].
    intros [|i] x' Hx; simpl in *.
    + injection Hx as <-. exists w. now rewrite Hf.
    + now apply Hat.
Qed.

(** C5, as the code has it. [discoverProjects] never returns two projects
    with the same git directory. With [cwdProject] what [loadProject]
    returns for the current directory, [allPaths] the configured entries in
    their declared order followed by the auto-discovered ones, and [loaded]
    what [loadProject] returns for each of them in that order: the current
    directory's project comes first in the result, unchanged; and for the
    first entry loaded for a repository that is not the current
    directory's, the one project of the result with that git directory is
    the loaded project under the entry's name when that name is present and
    not empty, and the loaded project as it is otherwise. *)
Theorem discoverProjects_dedup :
  (forall config w,
     NoDup (map Project.gitDir (fst (discoverProjects config w)))) /\
  (forall config w cwdProject w1 entries w2 loaded w3,
     let basePath := expandPath (FishTreeConfig.worktreeBase config) in
     let autoPaths : list PathEntry :=
       match entries with
       | Some es => map (fun entry => (resolve basePath entry, None)) es
       | None => []
       end in
     let allPaths := configuredPaths config ++ autoPaths in
     let result := fst (discoverProjects config w) in
     loadProject (cwd w) w = (cwdProject, w1) ->
     glob basePath w1 = (entries, w2) ->
     promiseAll (fun p : PathEntry => loadProject (fst p)) allPaths w2
     = (loaded, w3) ->
     discoverProjects config w
     = (assembleProjects cwdProject allPaths loaded, w3) /\
     (forall i pc,
        FishTreeConfig.projects config !! i = Some pc ->
        allPaths !! i
        = Some (expandPath (ProjectConfig.path pc), Some (ProjectConfig.name pc))) /\
     (forall i entry,
        allPaths !! i = Some entry ->
        exists wi, loaded !! i = Some (fst (loadProject (fst entry) wi))) /\
     (forall c, cwdProject = Some c -> List.head result = Some c) /\
     (forall i entry p,
        allPaths !! i = Some entry ->
        loaded !! i = Some (Some p) ->
        (forall c, cwdProject = Some c -> Project.gitDir c <> Project.gitDir p) ->
        (forall j q, (j < i)%nat -> loaded !! j = Some (Some q) ->
           Project.gitDir q <> Project.gitDir p) ->
        In (applyName entry p) result /\
        (forall r, In r result ->
           Project.gitDir r = Project.gitDir p -> r = applyName entry p)) /\
     (forall i pc p,
        FishTreeConfig.projects config !! i = Some pc ->
        loaded !! i = Some (Some p) ->
        (forall c, cwdProject = Some c -> Project.gitDir c <> Project.gitDir p) ->
        (forall j q, (j < i)%nat -> loaded !! j = Some (Some q) ->
           Project.gitDir q <> Project.gitDir p) ->
        exists r,
          In r result /\ Project.gitDir r = Project.gitDir p /\
          (forall r', In r' result ->
             Project.gitDir r' = Project.gitDir p -> r' = r) /\
          (ProjectConfig.name pc <> "" -> Project.name r = ProjectConfig.name pc) /\
          (ProjectConfig.name pc = "" -> r = p))) /\
  (forall path n p, n <> "" -> Project.name (applyName (path, Some n) p) = n) /\
  (forall path p, applyName (path, Some "") p = p) /\
  (forall path p, applyName (path, None) p = p).
Proof.
  split; [|split; [|split; [|split]]].
  - intros config w.
    destruct (discoverProjects_assembled config w) as (c & a & l & ->).
    apply assembleProjects_NoDup.
  - intros config w cwdProject w1 entries w2 loaded w3. cbv zeta.
    intros Hcwd Hglob Hall.
    assert (discoverProjects config w
            = (assembleProjects cwdProject
                 (configuredPaths config
                  ++ match entries with
                     | Some es =>
                         map (fun entry =>
                                (resolve
                                   (expandPath (FishTreeConfig.worktreeBase config))
                                   entry, None)) es
                     | None => []
                     end) loaded, w3)) as Hres.
    { unfold discoverProjects, bind, ret, processCwd.
      rewrite Hcwd, Hglob. cbv zeta. now rewrite Hall. }
    rewrite Hres. cbn [fst].
    assert (forall i pc,
              FishTreeConfig.projects config !! i = Some pc ->
              (configuredPaths config
               ++ match entries with
                  | Some es =>
                      map (fun entry =>
                             (resolve
                                (expandPath (FishTreeConfig.worktreeBase config))
                                entry, None)) es
                  | None => []
                  end) !! i
              = Some (expandPath (ProjectConfig.path pc),
                      Some (ProjectConfig.name pc))) as Hconf.
    { intros i pc Hpc. apply lookup_app_l_Some. unfold configuredPaths.
      now rewrite list_lookup_fmap, Hpc. }
    match goal with
    | |- context [assembleProjects _ ?paths _] => set (allPaths := paths) in *
    end.
    assert (forall i entry p,
              allPaths !! i = Some entry ->
              loaded !! i = Some (Some p) ->
              (forall c, cwdProject = Some c ->
                 Project.gitDir c <> Project.gitDir p) ->
              (forall j q, (j < i)%nat -> loaded !! j = Some (Some q) ->
                 Project.gitDir q <> Project.gitDir p) ->
              In (applyName entry p) (assembleProjects cwdProject allPaths loaded)
              /\ (forall r,
                    In r (assembleProjects cwdProject allPaths loaded) ->
                    Project.gitDir r = Project.gitDir p ->
                    r = applyName entry p)) as Hfirstwins.
    { intros i entry p Hentry Hloaded Hc Hfirst.
      assert (In (applyName entry p) (assembleProjects cwdProject allPaths loaded))
        as Hin.
      { unfold assembleProjects. apply fold_assemble_first with i.
        - now apply lookup_zip_Some.
        - destruct cwdProject as [c|]; simpl.
          + rewrite elem_of_singleton. intros Heq. now apply (Hc c).
          + apply not_elem_of_empty.
        - intros j e q Hj [_ Hq]%lookup_zip_Some. now apply (Hfirst j q). }
      split; [exact Hin|].
      intros r Hr Hg.
      apply (NoDup_map_unique Project.gitDir
               (assembleProjects cwdProject allPaths loaded));
        [apply assembleProjects_NoDup|assumption|assumption|].
      now rewrite applyName_gitDir. }
    split; [reflexivity|]. split; [exact Hconf|].
    split; [now apply (promiseAll_lookup _ _ _ _ _ Hall)|].
    split; [|split; [exact Hfirstwins|]].
    + intros c ->. unfold assembleProjects.
      destruct (fold_assemble_prefix (zip allPaths loaded)
                  ([c], {[Project.gitDir c]})) as [more ->].
      reflexivity.
    + intros i pc p Hpc Hloaded Hc Hfirst.
      destruct (Hfirstwins i _ p (Hconf i pc Hpc) Hloaded Hc Hfirst)
        as [Hin Huniq].
      eexists. split; [exact Hin|]. split; [apply applyName_gitDir|].
      split; [exact Huniq|]. unfold applyName. cbn [snd truthy_opt default].
      split.
      * intros Hn. destruct (ProjectConfig.name pc); [congruence|reflexivity].
      * now intros ->.
  - intros path n p Hn. unfold applyName. simpl.
    destruct n; [congruence|reflexivity].
  - reflexivity.
  - reflexivity.
Qed.

End DiscoveryFacts.

Example loadProject_R : @loadProject fixtureHost "/r" tt = (Some loadedR, tt).
Proof. reflexivity. Qed.

(** The claim of C5 fails when the first-declared entry has an empty name:
    both entries resolve to [/r/.git], the one project returned is the one
    loaded for the first entry, and its name is the basename [r] that
    [loadProject] gave it, not the entry's name. *)
Lemma discoverProjects_empty_name_counterexample :
  fst (@discoverProjects fixtureHost emptyNameConfig tt) = [loadedR]
  /\ Project.name loadedR = "r"
  /\ map ProjectConfig.name (FishTreeConfig.projects emptyNameConfig) = [""; "b"]
  /\ map (fun pc => fst (@loadProject fixtureHost (ProjectConfig.path pc) tt))
       (FishTreeConfig.projects emptyNameConfig)
     = [Some loadedR; Some loadedR].
Proof. repeat split; reflexivity. Qed.

(** Two configured entries for [/r] with the names [a] and [b]: the first
    name is the one kept. *)
Lemma discoverProjects_dedup_witness :
  In (applyName ("/r", Some "a") loadedR)
    (fst (@discoverProjects fixtureHost
            (FishTreeConfig.mk "/base"
               [ProjectConfig.mk "a" "/r"; ProjectConfig.mk "b" "/r"]) tt)).
Proof.
  refine (proj1 (proj1 (proj2 (proj2 (proj2 (proj2
            (proj1 (proj2 (@discoverProjects_dedup fixtureHost))
               (FishTreeConfig.mk "/base"
                  [ProjectConfig.mk "a" "/r"; ProjectConfig.mk "b" "/r"])
               tt None tt None tt [Some loadedR; Some loadedR] tt
               eq_refl eq_refl eq_refl)))))
            0%nat ("/r", Some "a") loadedR eq_refl eq_refl _ _)).
  - discriminate.
  - intros j q Hj. lia.
Defined.

Example discoverProjects_two_names :
  map Project.name
    (fst (@discoverProjects fixtureHost
            (FishTreeConfig.mk "/base"
               [ProjectConfig.mk "a" "/r"; ProjectConfig.mk "b" "/r"]) tt))
  = ["a"].
Proof. reflexivity. Qed.

(** ** The application state machine *)

Lemma buildStep_app collapsed query items project :
  buildStep collapsed query items project
  = items ++ itemsOf collapsed query project.
Proof.
  unfold itemsOf, buildStep.
  destruct (negb _ && _); [now rewrite app_nil_r|].
  destruct (negb (bool_decide _)); simpl; [|reflexivity].
  now rewrite <- app_assoc.
Qed.

Lemma fold_buildStep collapsed query projects items :
  fold_left (buildStep collapsed query) projects items
  = items ++ concat (map (itemsOf collapsed query) projects).
Proof.
  revert items. induction projects as [|p ps IH]; intros items; simpl.
  - now rewrite app_nil_r.
  - rewrite IH, buildStep_app. now rewrite <- app_assoc.
Qed.

Lemma buildFilteredItems_concat projects collapsed filterText :
  buildFilteredItems projects collapsed filterText
  = concat (map (itemsOf collapsed (JS.toLowerCase filterText)) projects).
Proof. unfold buildFilteredItems. now rewrite fold_buildStep. Qed.

Lemma filter_length_bound {A} (p : A -> bool) (xs : list A) :
  (length (List.filter p xs) <= length xs)%nat.
Proof.
  induction xs as [|x xs IH]; simpl; [lia|].
  destruct (p x); simpl; lia.
Qed.

(** With an empty query a project contributes its header and, unless
    collapsed, all its worktrees: at least what it contributes under any
    query. *)
Lemma itemsOf_length_le collapsed query project :
  (length (itemsOf collapsed query project)
   <= length (itemsOf collapsed "" project))%nat.
Proof.
  unfold itemsOf, buildStep. simpl.
  pose proof (filter_length_bound (worktreeMatches query project)
                (Project.worktrees project)) as Hle.
  destruct (negb (negb (JS.truthy query) || _) && _); simpl; [lia|].
  destruct (negb (bool_decide _)); simpl; [|lia].
  rewrite !length_map. destruct (JS.truthy query); lia.
Qed.

Lemma concat_length_le {A B} (f g : A -> list B) (xs : list A) :
  (forall x, (length (f x) <= length (g x))%nat) ->
  (length (concat (map f xs)) <= length (concat (map g xs)))%nat.
Proof.
  intros Hfg. induction xs as [|x xs IH]; simpl; [lia|].
  rewrite !length_app. specialize (Hfg x). lia.
Qed.

(** Clearing the filter never shrinks the flat list. *)
Lemma buildFilteredItems_unfiltered_longest projects collapsed filterText :
  JS.len (buildFilteredItems projects collapsed filterText)
  <= JS.len (buildFilteredItems projects collapsed "").
Proof.
  rewrite !buildFilteredItems_concat. unfold JS.len. simpl.
  apply inj_le, concat_length_le. intros p. apply itemsOf_length_le.
Qed.

Lemma findIndex_from_bounds {A} (p : A -> bool) (xs : list A) (i : Z) :
  JS.findIndex_from p i xs = -1
  \/ i <= JS.findIndex_from p i xs < i + JS.len xs.
Proof.
  revert i. induction xs as [|x xs IH]; intros i; simpl; [now left|].
  unfold JS.len in *. simpl length. rewrite Nat2Z.inj_succ.
  destruct (p x); [right; lia|].
  destruct (IH (i + 1)) as [->|Hb]; [now left|right; lia].
Qed.

Lemma initialState_invariant projects :
  derived (initialState projects) /\ cursorInRange (initialState projects).
Proof.
  split; [reflexivity|].
  unfold cursorInRange, initialState; simpl.
  set (items := buildFilteredItems projects ∅ "").
  unfold JS.findIndex.
  destruct (findIndex_from_bounds isWorktreeItem items 0) as [->|Hb]; simpl; [lia|].
  destruct (Z.geb_spec (JS.findIndex_from isWorktreeItem 0 items) 0); lia.
Qed.

(** Every transition keeps the invariant. *)
Lemma appReducer_invariant s action :
  derived s /\ cursorInRange s ->
  derived (appReducer s action) /\ cursorInRange (appReducer s action).
Proof.
  intros [Hd Hc]. unfold derived, cursorInRange in *.
  destruct action; simpl; try (split; [assumption || reflexivity | assumption || lia]).
  - (* MOVE_SELECTION *)
    destruct (Z.eqb_spec (JS.len (filteredItems s)) 0) as [|Hn]; [now split|].
    simpl. split; [assumption|].
    assert (0 <= JS.len (filteredItems s)) by (unfold JS.len; lia).
    destruct (Z.ltb_spec (selectedIndex s + delta) 0);
      repeat match goal with
             | |- context [?a >=? ?b] => destruct (Z.geb_spec a b)
             end; lia.
  - (* SELECT_WORKTREE *)
    destruct (JS.at_ _ _) as [[|wt p]|]; simpl; now split.
  - (* SHOW_DELETE *)
    destruct (JS.at_ _ _) as [[|wt p]|]; simpl; try now split.
    destruct (Worktree.isMain wt); simpl; now split.
  - (* SHOW_LIST *)
    split; [reflexivity|].
    pose proof (buildFilteredItems_unfiltered_longest (projects s)
                  (collapsedProjects s) (filterText s)) as Hle.
    rewrite <- Hd in Hle. lia.
Qed.

Lemma run_invariant projects actions :
  derived (run projects actions) /\ cursorInRange (run projects actions).
Proof.
  unfold run.
  generalize (initialState_invariant projects).
  generalize (initialState projects) as s.
  induction actions as [|a actions IH]; intros s Hs; simpl; [exact Hs|].
  apply IH, appReducer_invariant, Hs.
Qed.

(** C7. In every state reached from an initial state by dispatched actions
    the cursor is at least 0 and at most [max(0, length of the flat list - 1)],
    the flat list being the one derived from the projects, the collapsed set
    and the filter text. *)
Theorem cursor_never_exceeds_list (loaded : list Project.t)
    (actions : list AppAction) :
  let s := run loaded actions in
  0 <= selectedIndex s /\
  selectedIndex s <= Z.max 0 (JS.len (filteredItems s) - 1) /\
  filteredItems s
  = buildFilteredItems (projects s) (collapsedProjects s) (filterText s).
Proof.
  destruct (run_invariant loaded actions) as [Hd [H0 H1]].
  repeat split; assumption.
Qed.

(** C10. Selection movement on a non-empty flat list of length [n] sets the
    cursor to [selectedIndex + delta] when that sum lies in [0, n-1], to
    [n-1] when the sum is negative and to [0] when the sum is at least [n];
    so [+1] from the last index gives 0 and [-1] from index 0 gives [n-1].
    It leaves the flat list as it is, and on an empty flat list it returns
    the state unchanged. *)
Theorem move_selection_spec (s : AppState) (delta : Z) :
  let n := JS.len (filteredItems s) in
  let sum := selectedIndex s + delta in
  let s' := appReducer s (MOVE_SELECTION delta) in
  (n = 0 -> s' = s) /\
  (n <> 0 -> filteredItems s' = filteredItems s) /\
  (n <> 0 -> 0 <= sum <= n - 1 -> selectedIndex s' = sum) /\
  (n <> 0 -> sum < 0 -> selectedIndex s' = n - 1) /\
  (n <> 0 -> n <= sum -> selectedIndex s' = 0) /\
  (n <> 0 -> delta = 1 -> selectedIndex s = n - 1 -> selectedIndex s' = 0) /\
  (n <> 0 -> delta = -1 -> selectedIndex s = 0 -> selectedIndex s' = n - 1).
Proof.
  cbv zeta. simpl.
  assert (0 <= JS.len (filteredItems s)) by (unfold JS.len; lia).
  destruct (Z.eqb_spec (JS.len (filteredItems s)) 0) as [Hn|Hn].
  - repeat split; intros; congruence.
  - simpl.
    destruct (Z.ltb_spec (selectedIndex s + delta) 0);
      repeat match goal with
             | |- context [?a >=? ?b] => destruct (Z.geb_spec a b)
             end;
      repeat split; intros; try reflexivity; lia.
Qed.

Example cursorAtEnd_index :
  JS.len (filteredItems cursorAtEnd) = 5 /\ selectedIndex cursorAtEnd = 4.
Proof. split; reflexivity. Qed.

Example wraps_at_end :
  selectedIndex (appReducer cursorAtEnd (MOVE_SELECTION 1)) = 0.
Proof. reflexivity. Qed.

Example wraps_at_start :
  selectedIndex (run [sampleProject] [MOVE_SELECTION (-1); MOVE_SELECTION (-1)]) = 4.
Proof. reflexivity. Qed.

Example filter_without_match :
  let s := appReducer cursorAtEnd (SET_FILTER "zzzz") in
  filteredItems s = [] /\ selectedIndex s = 0
  /\ JS.len (filteredItems (appReducer s SHOW_LIST)) = 5.
Proof. repeat split; reflexivity. Qed.

Lemma move_selection_spec_witness :
  selectedIndex (appReducer cursorAtEnd (MOVE_SELECTION 3)) = 0.
Proof.
  refine (proj1 (proj2 (proj2 (proj2 (proj2
            (move_selection_spec cursorAtEnd 3))))) _ _).
  - vm_compute. discriminate.
  - vm_compute. discriminate.
Defined.

(** * Further properties *)

(** ** The porcelain parser, for every input *)

Lemma parseBlock_cases acc block :
  parseBlock acc block = acc \/
  exists w, parseBlock acc block = acc ++ [w] /\
    Worktree.path w <> "" /\ Worktree.isDirty w = None.
Proof.
  unfold parseBlock. destruct (negb _); [now left|].
  destruct (v_path _) as [|c p] eqn:Hp; [now left|]. right.
  eexists. split; [reflexivity|]. simpl. split; [discriminate|reflexivity].
Qed.

Lemma fold_parseBlock_paths blocks : forall acc,
  Forall (fun wt => Worktree.path wt <> "" /\ Worktree.isDirty wt = None) acc ->
  Forall (fun wt => Worktree.path wt <> "" /\ Worktree.isDirty wt = None)
    (fold_left parseBlock blocks acc)
  /\ (length (fold_left parseBlock blocks acc) <= length acc + length blocks)%nat.
Proof.
  induction blocks as [|block blocks IH]; intros acc Hacc; simpl.
  - split; [assumption|lia].
  - destruct (parseBlock_cases acc block) as [->|(w & -> & Hw)].
    + destruct (IH acc Hacc) as [Hall Hlen]. split; [assumption|lia].
    + destruct (IH (acc ++ [w])) as [Hall Hlen].
      { apply Forall_app. split; [assumption|]. now apply Forall_singleton. }
      split; [assumption|]. rewrite length_app in Hlen. simpl in Hlen. lia.
Qed.

Lemma parsePorcelain_paths (output : string) :
  Forall (fun wt => Worktree.path wt <> "") (parsePorcelain output).
Proof.
  unfold parsePorcelain.
  destruct (fold_parseBlock_paths (JS.split (JS.trim output) JS.nlnl) [])
    as [Hall _]; [constructor|].
  eapply Forall_impl; [exact Hall|]. now intros wt [Hp _].
Qed.

(** X1. Whatever the text, no record of the result has an empty path or a
    dirty flag, and there are at most as many records as pieces between
    blank lines in the trimmed text. *)
Theorem parsePorcelain_records (output : string) :
  Forall (fun wt => Worktree.path wt <> "" /\ Worktree.isDirty wt = None)
    (parsePorcelain output) /\
  (length (parsePorcelain output)
   <= length (JS.split (JS.trim output) JS.nlnl))%nat.
Proof.
  unfold parsePorcelain.
  destruct (fold_parseBlock_paths (JS.split (JS.trim output) JS.nlnl) [])
    as [Hall Hlen]; [constructor|].
  split; [assumption|]. simpl in Hlen. lia.
Qed.

(** ** The flags of a block *)

Lemma scanLine_isMain v l :
  v_isMain (scanLine v l) = v_isMain v || String.eqb l "bare".
Proof.
  destruct (String.eqb_spec l "bare") as [->|Hne].
  - now rewrite orb_true_r.
  - rewrite orb_false_r. unfold scanLine.
    apply String.eqb_neq in Hne. rewrite Hne.
    repeat match goal with |- context [if ?c then _ else _] => destruct c end;
      reflexivity.
Qed.

Lemma scanLine_isLocked v l :
  v_isLocked (scanLine v l) = v_isLocked v || String.eqb l "locked".
Proof.
  destruct (String.eqb_spec l "locked") as [->|Hne].
  - now rewrite orb_true_r.
  - rewrite orb_false_r. unfold scanLine.
    apply String.eqb_neq in Hne. rewrite Hne.
    repeat match goal with |- context [if ?c then _ else _] => destruct c end;
      reflexivity.
Qed.

Lemma scanLine_isPrunable v l :
  v_isPrunable (scanLine v l) = v_isPrunable v || String.eqb l "prunable".
Proof.
  destruct (String.eqb_spec l "prunable") as [->|Hne].
  - now rewrite orb_true_r.
  - rewrite orb_false_r. unfold scanLine.
    apply String.eqb_neq in Hne. rewrite Hne.
    repeat match goal with |- context [if ?c then _ else _] => destruct c end;
      reflexivity.
Qed.

Lemma fold_scanLine_flags ls : forall v,
  v_isMain (fold_left scanLine ls v) = v_isMain v || hasTag "bare" ls /\
  v_isLocked (fold_left scanLine ls v) = v_isLocked v || hasTag "locked" ls /\
  v_isPrunable (fold_left scanLine ls v) = v_isPrunable v || hasTag "prunable" ls.
Proof.
  unfold hasTag.
  induction ls as [|l ls IH]; intros v; cbn [fold_left existsb].
  - now rewrite !orb_false_r.
  - destruct (IH (scanLine v l)) as (-> & -> & ->).
    rewrite scanLine_isMain, scanLine_isLocked, scanLine_isPrunable.
    now rewrite !orb_assoc.
Qed.

Lemma blockRecords_lookup_first bs : forall first i b,
  bs !! i = Some b ->
  blockRecords first bs !! i
  = Some (blockRecord (first && (i =? 0)%nat) b).
Proof.
  induction bs as [|b0 bs IH]; intros first i b Hi; [discriminate|].
  destruct i as [|i]; simpl in *.
  - injection Hi as ->. now rewrite andb_true_r.
  - rewrite (IH false i b Hi). now rewrite andb_false_r.
Qed.

(** X2. In a text of well-formed blocks, the record of the block at index
    [i] is flagged main exactly when [i] is 0 or the block has a [bare]
    line, locked exactly when it has a [locked] line, and prunable exactly
    when it has a [prunable] line. So a later block with a [bare] line gives
    a second record flagged main. *)
Theorem parsePorcelain_flags (bs : list Block) (trailer : string)
    (i : nat) (b : Block) :
  Forall wfBlock bs ->
  blank trailer = true ->
  bs !! i = Some b ->
  exists w,
    parsePorcelain (porcelainText bs +:+ trailer) !! i = Some w /\
    Worktree.isMain w = (i =? 0)%nat || hasTag "bare" (b_tags b) /\
    Worktree.isLocked w = hasTag "locked" (b_tags b) /\
    Worktree.isPrunable w = hasTag "prunable" (b_tags b).
Proof.
  intros Hall Htr Hi. rewrite parsePorcelain_blocks by assumption.
  rewrite (blockRecords_lookup_first bs true i b Hi). eexists.
  split; [reflexivity|].
  unfold blockRecord, scanLines, blockLines. cbn [fold_left].
  rewrite scanLine_worktree.
  match goal with
  | |- context [fold_left scanLine ?ls ?v] =>
      destruct (fold_scanLine_flags ls v) as (Hm & Hl & Hp)
  end.
  cbn [Worktree.isMain Worktree.isLocked Worktree.isPrunable andb].
  rewrite Hm, Hl, Hp. cbn [v_isMain v_isLocked v_isPrunable initVars orb].
  repeat split; try now destruct (i =? 0)%nat.
Qed.

Lemma parsePorcelain_flags_witness :
  exists w,
    parsePorcelain (porcelainText sampleBlocks +:+ JS.nlnl) !! 1%nat = Some w /\
    Worktree.isMain w = false /\
    Worktree.isLocked w = true /\
    Worktree.isPrunable w = false.
Proof.
  exact (parsePorcelain_flags sampleBlocks JS.nlnl 1
           {| b_path := "/r/wt";
              b_tags := ["HEAD 89abcdef0123456789abcdef0123456789abcdef";
                         "branch refs/heads/old"; "detached"; "locked"] |}
           sampleBlocks_wf eq_refl eq_refl).
Defined.

(** ** Reading back the block format *)

Lemma lineOk_prefixed pre l :
  pre <> "" -> JS.includes pre JS.nl = false -> lineOk l -> lineOk (pre +:+ l).
Proof.
  intros Hpre Hnl (Hne & Hl & Hclean). repeat split.
  - now apply app_nonempty_l.
  - now rewrite includes_nl_app, Hnl, Hl.
  - now apply trimEnd_clean_app.
Qed.

Lemma wireBlock_wf wt : fieldsOk wt -> wfBlock (wireBlock wt).
Proof.
  intros (Hpath & Hhead & Hbranch & _). split; [exact Hpath|].
  unfold wireBlock, wireTags. cbn [b_tags].
  repeat first [apply Forall_app; split | apply Forall_cons; split
               | apply Forall_nil_2].
  - split; [|reflexivity]. now apply lineOk_prefixed.
  - destruct (Worktree.branch wt) as [b|] eqn:Hb.
    + split; [|reflexivity]. apply lineOk_prefixed; [discriminate|reflexivity|].
      now apply Hbranch.
    + repeat split; discriminate.
  - destruct (Worktree.isLocked wt); repeat constructor; discriminate.
  - destruct (Worktree.isPrunable wt); repeat constructor; discriminate.
Qed.

Lemma blockRecord_wireBlock first wt :
  Worktree.isDirty wt = None ->
  Worktree.isMain wt = first ->
  blockRecord first (wireBlock wt) = wt.
Proof.
  destruct wt as [p h br m l pr d]. cbn [Worktree.isDirty Worktree.isMain].
  intros -> ->.
  destruct br as [b|], l, pr, first; reflexivity.
Qed.

Lemma blockRecords_wireBlock wts : forall first,
  Forall fieldsOk wts ->
  match wts with
  | [] => True
  | wt :: rest =>
      Worktree.isMain wt = first /\
      Forall (fun w => Worktree.isMain w = false) rest
  end ->
  blockRecords first (map wireBlock wts) = wts.
Proof.
  induction wts as [|wt wts IH]; intros first Hok Hmain; [reflexivity|].
  apply Forall_cons_1 in Hok as [(_ & _ & _ & Hd) Hok].
  destruct Hmain as [Hm Hrest]. cbn [map blockRecords].
  rewrite blockRecord_wireBlock by assumption. f_equal.
  apply IH; [assumption|].
  destruct wts as [|w wts]; [exact I|].
  now apply Forall_cons_1 in Hrest.
Qed.

(** X3. Records whose fields fit on lines, the first one flagged main and
    no other, are read back unchanged from the text that carries them in the
    block format: path, head, branch (the [refs/heads/] prefix removed, or
    none for [detached]), locked and prunable all survive. *)
Theorem parsePorcelain_reads_back (wts : list Worktree.t) (trailer : string) :
  Forall fieldsOk wts ->
  mainFirst wts ->
  blank trailer = true ->
  parsePorcelain (porcelainText (map wireBlock wts) +:+ trailer) = wts.
Proof.
  intros Hok Hmain Htr. rewrite parsePorcelain_blocks; [|idtac|assumption].
  - apply blockRecords_wireBlock; [assumption|].
    destruct wts as [|wt rest]; [exact I|exact Hmain].
  - apply Forall_map. eapply Forall_impl; [exact Hok|].
    intros wt Hwt. now apply wireBlock_wf.
Qed.

Lemma parsePorcelain_reads_back_witness :
  parsePorcelain
    (porcelainText
       (map wireBlock
          [Worktree.mk "/r" "0123456789abcdef0123456789abcdef01234567"
             (Some "main") true false false None;
           Worktree.mk "/r/wt" "89abcdef0123456789abcdef0123456789abcdef"
             None false true true None]) +:+ JS.nlnl)
  = [Worktree.mk "/r" "0123456789abcdef0123456789abcdef01234567"
       (Some "main") true false false None;
     Worktree.mk "/r/wt" "89abcdef0123456789abcdef0123456789abcdef"
       None false true true None].
Proof.
  apply parsePorcelain_reads_back.
  - apply Forall_cons; split; [|apply Forall_cons; split; [|apply Forall_nil_2]];
      unfold fieldsOk, lineOk; cbn [Worktree.path Worktree.head Worktree.branch
                                     Worktree.isDirty];
      repeat split; try discriminate; try reflexivity;
      match goal with
      | Hname : Some _ = Some _ |- _ => inversion Hname; subst
      end; discriminate || reflexivity.
  - split; [reflexivity|]. repeat constructor.
  - reflexivity.
Defined.

(** ** Worktree operations, for every host *)

Section MoreOperationFacts.
Context `{Host}.

Lemma listWorktrees_ok_inv gitDir w value w1 :
  listWorktrees gitDir w = (Ok value, w1) ->
  firstIsMain value /\ Forall (fun wt => Worktree.path wt <> "") value.
Proof.
  unfold listWorktrees, bind, ret.
  destruct (sh _ w) as [[text|err] w'] eqn:Hsh; intros [= <- <-].
  split; [|apply parsePorcelain_paths].
  destruct (parsePorcelain text) as [|wt rest] eqn:Hp; [exact I|].
  exact (parsePorcelain_first_main text wt rest Hp).
Qed.

(** X4. Whatever the subprocess does, [listWorktrees] either returns
    records, the first of which is flagged main and none of which has an
    empty path, or the classification of the very stderr the subprocess
    threw, with the world as the subprocess left it. *)
Theorem listWorktrees_result gitDir w r w1 :
  listWorktrees gitDir w = (r, w1) ->
  match r with
  | Ok value =>
      firstIsMain value /\
      Forall (fun wt => Worktree.path wt <> "") value
  | Err e =>
      sh ["git"; "-C"; gitDir; "worktree"; "list"; "--porcelain"] w
      = (inr (stderr e), w1) /\
      e = classifyGitError (stderr e)
  end.
Proof.
  intros Hlist. destruct r as [value|e].
  - now apply listWorktrees_ok_inv with gitDir w w1.
  - revert Hlist. unfold listWorktrees, bind, ret.
    destruct (sh _ w) as [[text|err] w'] eqn:Hsh; intros [= <- <-].
    now rewrite classifyGitError_stderr.
Qed.

Lemma find_some_in {A} (p : A -> bool) (xs : list A) x :
  JS.find p xs = Some x -> In x xs /\ p x = true.
Proof. apply find_some. Qed.

(** X5. When [addWorktree] returns a worktree, the creation subprocess
    exited with 0, the worktree is one of the records of the re-listing that
    followed, and its path is exactly the requested one. *)
Theorem addWorktree_ok gitDir opts w wt w2 :
  addWorktree gitDir opts w = (Ok wt, w2) ->
  Worktree.path wt = basePath opts /\
  exists out w1 value,
    sh (addArgv gitDir opts) w = (inl out, w1) /\
    listWorktrees gitDir w1 = (Ok value, w2) /\
    In wt value.
Proof.
  unfold addWorktree, bind, ret.
  destruct (sh (addArgv gitDir opts) w) as [[out|err] w1] eqn:Hadd; [|discriminate].
  destruct (listWorktrees gitDir w1) as [[value|e] w2'] eqn:Hlist; [|discriminate].
  destruct (JS.find _ value) as [newWt|] eqn:Hfind; [|discriminate].
  intros [= <- <-].
  apply find_some_in in Hfind as [Hin Hpath].
  apply String.eqb_eq in Hpath. split; [exact Hpath|].
  now exists out, w1, value.
Qed.

(** [removeWorktree] runs one subprocess and succeeds exactly when it exits
    with 0; an error is the classification of the stderr thrown, kept
    verbatim. With [force] the removal passes [--force], and never
    without. *)
Lemma removeWorktree_result gitDir path force w r w1 :
  removeWorktree gitDir path force w = (r, w1) ->
  let argv :=
    ["git"; "-C"; gitDir; "worktree"; "remove"]
    ++ (if force then ["--force"] else []) ++ [path] in
  (r = Ok tt /\ exists out, sh argv w = (inl out, w1)) \/
  (exists err, sh argv w = (inr err, w1) /\
     r = Err (classifyGitError err) /\
     stderr (classifyGitError err) = err).
Proof.
  unfold removeWorktree, bind, ret. cbv zeta.
  replace (["git"; "-C"; gitDir; "worktree"; "remove"]
           ++ (if force then ["--force"] else []) ++ [path])
    with (if force
          then ["git"; "-C"; gitDir; "worktree"; "remove"; "--force"; path]
          else ["git"; "-C"; gitDir; "worktree"; "remove"; path])
    by now destruct force.
  destruct (sh _ w) as [[out|err] w'] eqn:Hsh; intros [= <- <-].
  - left. split; [reflexivity|now exists out].
  - right. exists err. repeat split. apply classifyGitError_stderr.
Qed.

(** X6. A project that [loadProject] returns has a non-empty git directory,
    is named by the basename of its main worktree path, and either has no
    worktrees, its main worktree path being the input path, or has a first
    worktree flagged main whose path is its main worktree path; none of its
    worktrees has an empty path. *)
Theorem loadProject_project path w p w1 :
  loadProject path w = (Some p, w1) ->
  Project.gitDir p <> "" /\
  Project.name p = basename (Project.mainWorktree p) /\
  Forall (fun wt => Worktree.path wt <> "") (Project.worktrees p) /\
  ((Project.worktrees p = [] /\ Project.mainWorktree p = path) \/
   (exists wt rest,
      Project.worktrees p = wt :: rest /\
      Worktree.isMain wt = true /\
      Project.mainWorktree p = Worktree.path wt)).
Proof.
  unfold loadProject, bind, ret.
  destruct (detectGitDir path w) as [[g|] w'] eqn:Hdet; [|discriminate].
  destruct g as [|c g']; [discriminate|]. cbn [JS.truthy negb].
  destruct (listWorktrees path w') as [r w2] eqn:Hlist.
  intros [= <- <-]. cbn [Project.gitDir Project.name Project.mainWorktree
                          Project.worktrees].
  split; [discriminate|]. split; [reflexivity|].
  destruct r as [value|e].
  - destruct (listWorktrees_ok_inv path w' value w2 Hlist) as [Hmain Hpaths].
    split; [exact Hpaths|].
    destruct value as [|wt rest]; [now left|]. right.
    simpl in Hmain. exists wt, rest. unfold JS.find. simpl.
    rewrite Hmain. now repeat split.
  - split; [constructor|]. now left.
Qed.

End MoreOperationFacts.

Lemma listWorktrees_result_witness :
  firstIsMain (parsePorcelain listingOfR) /\
  Forall (fun wt => Worktree.path wt <> "") (parsePorcelain listingOfR).
Proof.
  exact (@listWorktrees_result fixtureHost "/r" tt
           (Ok (parsePorcelain listingOfR)) tt eq_refl).
Defined.

Lemma loadProject_project_witness :
  Project.gitDir loadedR <> "" /\
  Project.name loadedR = posixBasename (Project.mainWorktree loadedR) /\
  Forall (fun wt => Worktree.path wt <> "") (Project.worktrees loadedR) /\
  ((Project.worktrees loadedR = [] /\ Project.mainWorktree loadedR = "/r") \/
   (exists wt rest,
      Project.worktrees loadedR = wt :: rest /\
      Worktree.isMain wt = true /\
      Project.mainWorktree loadedR = Worktree.path wt)).
Proof.
  exact (@loadProject_project fixtureHost "/r" tt loadedR tt eq_refl).
Defined.

Lemma removeWorktree_result_witness :
  exists err,
    @sh fixtureHost ["git"; "-C"; "/r"; "worktree"; "remove"; "--force"; "/r/wt"] tt
    = (inr err, tt) /\
    fst (@removeWorktree fixtureHost "/r" "/r/wt" true tt)
    = Err (classifyGitError err).
Proof.
  destruct (@removeWorktree_result fixtureHost "/r" "/r/wt" true tt
              (fst (@removeWorktree fixtureHost "/r" "/r/wt" true tt)) tt eq_refl)
    as [[Hok _]|(err & Hsh & Hr & _)].
  - discriminate.
  - exists err. split; [exact Hsh|exact Hr].
Defined.

Lemma addWorktree_ok_witness :
  exists wt,
    @addWorktree fixtureHost "/r"
      {| basePath := "/r"; branch := "main"; startPoint := None;
         createBranch := false |} tt = (Ok wt, tt) /\
    Worktree.path wt = "/r".
Proof.
  eexists. split; [reflexivity|].
  refine (proj1 (@addWorktree_ok fixtureHost "/r"
                   {| basePath := "/r"; branch := "main"; startPoint := None;
                      createBranch := false |} tt _ tt eq_refl)).
Defined.

(** ** Remote branches *)

Lemma includes_nl_rev_app a b :
  JS.includes (String.rev_app a b) JS.nl
  = JS.includes a JS.nl || JS.includes b JS.nl.
Proof.
  revert b. induction a as [|c a IH]; intros b; [reflexivity|].
  cbn [String.rev_app]. rewrite IH, !includes_nl_cons.
  destruct (JS.includes a JS.nl), (Ascii.eqb JS.LF c); reflexivity.
Qed.

(** The pieces of a text split on the line feed hold no line feed. *)
Lemma split_go_nl_pieces s : forall cur,
  JS.includes cur JS.nl = false ->
  Forall (fun l => JS.includes l JS.nl = false) (JS.split_go JS.nl 0 cur s).
Proof.
  induction s as [|c s IH]; intros cur Hcur; cbn [JS.split_go].
  - apply Forall_singleton. unfold String.rev.
    now rewrite includes_nl_rev_app, Hcur.
  - cbn [JS.startsWith JS.nl].
    destruct (Ascii.eqb JS.LF c) eqn:Hc.
    + replace (JS.startsWith s "") with true by now destruct s.
      apply Forall_cons. split.
      * unfold String.rev. now rewrite includes_nl_rev_app, Hcur.
      * now apply IH.
    + apply IH. now rewrite includes_nl_cons, Hc, Hcur.
Qed.

Section RemoteBranchFacts.
Context `{Host}.

(** X7. [listRemoteBranches] returns no entry that is empty, that contains
    [HEAD], or that holds a line feed; and when the subprocess throws it
    returns the empty list. *)
Theorem listRemoteBranches_entries gitDir w :
  Forall (fun b => b <> "" /\ JS.includes b "HEAD" = false
                   /\ JS.includes b JS.nl = false)
    (fst (listRemoteBranches gitDir w)) /\
  (forall err w1,
     sh ["git"; "-C"; gitDir; "branch"; "-r"; "--format=%(refname:short)"] w
     = (inr err, w1) ->
     listRemoteBranches gitDir w = ([], w1)).
Proof.
  unfold listRemoteBranches, bind, ret. split.
  - destruct (sh _ w) as [[text|err] w1]; [|constructor].
    cbn [fst]. apply List.Forall_forall. intros b [Hin Hkeep]%filter_In.
    apply andb_true_iff in Hkeep as [Hne Hhead].
    repeat split.
    + now destruct b.
    + now apply negb_true_iff.
    + pose proof (split_go_nl_pieces (JS.trim text) "" eq_refl) as Hall.
      rewrite List.Forall_forall in Hall. now apply Hall.
  - intros err w1 ->. reflexivity.
Qed.

End RemoteBranchFacts.

Lemma listRemoteBranches_entries_witness :
  @listRemoteBranches fixtureHost "/nowhere" tt = ([], tt).
Proof.
  refine (proj2 (@listRemoteBranches_entries fixtureHost "/nowhere" tt)
            "fatal: not a git repository (or any of the parent directories): .git"
            tt eq_refl).
Defined.

(** ** Project discovery: nothing lost, nothing made up *)

Section MoreDiscoveryFacts.
Context `{Host}.

Local Arguments applyName : simpl never.

Lemma assembleStep_seen_grows st x g :
  g ∈ snd st -> g ∈ snd (assembleStep st x).
Proof.
  intros Hg. destruct x as [entry loaded_i].
  destruct (assembleStep_cases st entry loaded_i)
    as [[-> _]|(q & _ & _ & ->)]; [assumption|].
  simpl. set_solver.
Qed.

Lemma fold_assemble_seen_grows xs st g :
  g ∈ snd st -> g ∈ snd (fold_left assembleStep xs st).
Proof.
  revert st. induction xs as [|x xs IH]; intros st Hg; simpl; [assumption|].
  now apply IH, assembleStep_seen_grows.
Qed.

(** Every loaded project's git directory ends in [seen]. *)
Lemma fold_assemble_seen_all xs : forall st entry p,
  In (entry, Some p) xs ->
  Project.gitDir p ∈ snd (fold_left assembleStep xs st).
Proof.
  induction xs as [|x xs IH]; intros st entry p Hin; [contradiction|].
  destruct Hin as [->|Hin]; simpl; [|now apply IH with entry].
  apply fold_assemble_seen_grows.
  destruct (assembleStep_cases st entry (Some p))
    as [[-> [Hn|(q & [= <-] & Hq)]]|(q & [= <-] & _ & ->)].
  - discriminate.
  - assumption.
  - simpl. set_solver.
Qed.

(** Every project of the result is one of the start or a loaded one,
    possibly renamed by its entry. *)
Lemma fold_assemble_sound xs : forall st r,
  In r (fst (fold_left assembleStep xs st)) ->
  In r (fst st) \/ exists entry p, In (entry, Some p) xs /\ r = applyName entry p.
Proof.
  induction xs as [|[entry loaded_i] xs IH]; intros st r Hr; [now left|].
  simpl in Hr. apply IH in Hr as [Hr|(e & p & Hin & ->)].
  - destruct (assembleStep_cases st entry loaded_i)
      as [[Heq _]|(q & -> & _ & Heq)]; rewrite Heq in Hr; [now left|].
    simpl in Hr. apply in_app_iff in Hr as [Hr|[<-|[]]]; [now left|].
    right. exists entry, q. split; [now left|reflexivity].
  - right. exists e, p. split; [now right|reflexivity].
Qed.

Lemma fold_assemble_none xs : forall st,
  Forall (fun x => snd x = None) xs -> fold_left assembleStep xs st = st.
Proof.
  induction xs as [|[entry loaded_i] xs IH]; intros st Hall; [reflexivity|].
  apply Forall_cons_1 in Hall as [Hx Hall]. simpl in Hx. subst loaded_i.
  simpl. destruct st. now apply IH.
Qed.

(** X8. The assembly loses no repository and makes none up: the git
    directory of the current directory's project and of every project
    loaded for a path is the git directory of a project of the result; every
    project of the result is the current directory's project or a loaded
    one under its entry's name; and the result is empty exactly when the
    current directory is no repository and no path loaded. *)
Theorem assembleProjects_complete (cwdProject : option Project.t)
    (allPaths : list PathEntry) (loaded : list (option Project.t)) :
  let result := assembleProjects cwdProject allPaths loaded in
  (forall c, cwdProject = Some c ->
     In (Project.gitDir c) (map Project.gitDir result)) /\
  (forall i entry p,
     allPaths !! i = Some entry -> loaded !! i = Some (Some p) ->
     In (Project.gitDir p) (map Project.gitDir result)) /\
  (forall r, In r result ->
     cwdProject = Some r \/
     exists i entry p,
       allPaths !! i = Some entry /\ loaded !! i = Some (Some p) /\
       r = applyName entry p) /\
  (result = [] <->
   cwdProject = None /\
   Forall (fun x => snd x = None) (zip allPaths loaded)).
Proof.
  cbv zeta.
  pose proof (assembleProjects_inv cwdProject allPaths loaded) as [_ Hseen].
  assert (forall i entry p,
     allPaths !! i = Some entry -> loaded !! i = Some (Some p) ->
     In (Project.gitDir p)
       (map Project.gitDir (assembleProjects cwdProject allPaths loaded)))
    as Hloaded.
  { intros i entry p Hentry Hp. apply Hseen.
    apply fold_assemble_seen_all with entry.
    apply list_elem_of_In. eapply list_elem_of_lookup_2.
    apply lookup_zip_Some. split; eassumption. }
  assert (forall c, cwdProject = Some c ->
     In (Project.gitDir c)
       (map Project.gitDir (assembleProjects cwdProject allPaths loaded)))
    as Hcwd.
  { intros c ->. apply Hseen. apply fold_assemble_seen_grows. simpl. set_solver. }
  split; [exact Hcwd|]. split; [exact Hloaded|]. split.
  - intros r Hr. unfold assembleProjects in Hr.
    apply fold_assemble_sound in Hr as [Hr|(entry & p & Hin & ->)].
    + left. destruct cwdProject as [c|]; simpl in Hr; [|contradiction].
      destruct Hr as [<-|[]]. reflexivity.
    + right. apply list_elem_of_In, list_elem_of_lookup_1 in Hin as [i Hi].
      apply lookup_zip_Some in Hi as [Hentry Hp]. now exists i, entry, p.
  - split.
    + intros Hnil. split.
      * destruct cwdProject as [c|]; [|reflexivity].
        specialize (Hcwd c eq_refl). rewrite Hnil in Hcwd. contradiction.
      * apply Forall_forall. intros [entry [p|]] Hin; [|reflexivity].
        apply list_elem_of_lookup_1 in Hin as [i Hi].
        apply lookup_zip_Some in Hi as [Hentry Hp].
        specialize (Hloaded i entry p Hentry Hp).
        rewrite Hnil in Hloaded. contradiction.
    + intros [-> Hnone]. unfold assembleProjects.
      now rewrite fold_assemble_none.
Qed.

Lemma promiseAll_results {A B} (f : A -> Async B) (xs : list A) : forall w,
  Forall (fun b => exists x wa, In x xs /\ b = fst (f x wa))
    (fst (promiseAll f xs w)).
Proof.
  induction xs as [|x xs IH]; intros w; simpl; [constructor|].
  unfold bind, ret. destruct (f x w) as [b w1] eqn:Hf.
  specialize (IH w1). destruct (promiseAll f xs w1) as [bs w2]. simpl in *.
  apply Forall_cons. split.
  - exists x, w. split; [now left|]. now rewrite Hf.
  - eapply Forall_impl; [exact IH|].
    intros b' (x' & wa & Hin & ->). exists x', wa. split; [now right|reflexivity].
Qed.

Lemma loadProject_wellLoaded path w p w1 :
  loadProject path w = (Some p, w1) -> wellLoaded p.
Proof.
  unfold loadProject, bind, ret.
  destruct (detectGitDir path w) as [[g|] w'] eqn:Hdet; [|discriminate].
  destruct g as [|c g']; [discriminate|]. cbn [JS.truthy negb].
  destruct (listWorktrees path w') as [r w2] eqn:Hlist.
  intros [= <- <-]. unfold wellLoaded.
  cbn [Project.gitDir Project.mainWorktree Project.worktrees].
  split; [discriminate|].
  destruct r as [value|e].
  - destruct (listWorktrees_ok_inv path w' value w2 Hlist) as [Hmain Hpaths].
    split; [exact Hpaths|].
    destruct value as [|wt rest]; [now left|]. right.
    simpl in Hmain. exists wt, rest. unfold JS.find. simpl.
    rewrite Hmain. now repeat split.
  - split; [constructor|now left].
Qed.

Lemma applyName_wellLoaded entry p : wellLoaded p -> wellLoaded (applyName entry p).
Proof. unfold applyName. now destruct (truthy_opt _). Qed.

Lemma discoverProjects_loaded (config : FishTreeConfig.t) (w : World) :
  Forall wellLoaded (fst (discoverProjects config w)).
Proof.
  unfold discoverProjects, bind, ret, processCwd.
  destruct (loadProject (cwd w) w) as [cwdProject w1] eqn:Hcwd.
  destruct (glob (expandPath (FishTreeConfig.worktreeBase config)) w1)
    as [entries w2].
  match goal with
  | |- context [promiseAll ?f ?xs w2] =>
      pose proof (promiseAll_results f xs w2) as Hall;
      destruct (promiseAll f xs w2) as [loaded w3]
  end.
  cbn [fst] in *. apply List.Forall_forall. intros r Hr.
  unfold assembleProjects in Hr.
  apply fold_assemble_sound in Hr as [Hr|(entry & p & Hin & ->)].
  - destruct cwdProject as [c|]; simpl in Hr; [|contradiction].
    destruct Hr as [<-|[]]. now apply loadProject_wellLoaded in Hcwd.
  - apply applyName_wellLoaded.
    assert (In (Some p) loaded) as Hp.
    { apply list_elem_of_In. apply list_elem_of_In in Hin.
      apply list_elem_of_lookup_1 in Hin as [i Hi].
      apply lookup_zip_Some in Hi as [_ Hi].
      eapply list_elem_of_lookup_2, Hi. }
    rewrite List.Forall_forall in Hall.
    destruct (Hall _ Hp) as (x & wa & _ & Hload).
    destruct (loadProject (fst x) wa) as [o wb] eqn:Hl. simpl in Hload. subst o.
    now apply loadProject_wellLoaded in Hl.
Qed.

(** X9. Every project that [discoverProjects] returns, on any host and
    for any configuration, has a non-empty git directory and worktrees that
    all have paths; and when it has worktrees, the first one is flagged main
    and its path is the project's main worktree path. *)
Theorem discoverProjects_wellLoaded (config : FishTreeConfig.t) (w : World) :
  Forall wellLoaded (fst (discoverProjects config w)).
Proof. apply discoverProjects_loaded. Qed.

End MoreDiscoveryFacts.

Lemma assembleProjects_complete_witness :
  In (Project.gitDir loadedR)
    (map Project.gitDir
       (assembleProjects None [("/x", None); ("/r", Some "a")]
          [None; Some loadedR])).
Proof.
  exact (proj1 (proj2 (assembleProjects_complete None
                         [("/x", None); ("/r", Some "a")] [None; Some loadedR]))
           1%nat ("/r", Some "a") loadedR eq_refl eq_refl).
Defined.

(** ** The fuzzy matcher and the ranking *)

Lemma subsequence_refl q : IsSubsequence q q.
Proof. induction q as [|c q IH]; constructor. exact IH. Qed.

Lemma subsequence_app_r q t b : IsSubsequence q t -> IsSubsequence q (t +:+ b).
Proof.
  induction 1 as [t|c q t _ IH|c q t _ IH]; simpl.
  - constructor.
  - now apply subseq_take.
  - now apply subseq_skip.
Qed.

Lemma subsequence_app_l q t a : IsSubsequence q t -> IsSubsequence q (a +:+ t).
Proof.
  intros Hs. induction a as [|c a IH]; [exact Hs|].
  simpl. now apply subseq_skip.
Qed.

Lemma fuzzyMatch_values query target :
  In (fuzzyMatch query target) [1000; 500; 200; 50; 0].
Proof.
  unfold fuzzyMatch.
  repeat match goal with |- context [if ?c then _ else _] => destruct c end;
    simpl; tauto.
Qed.

(** X10. A pair scores above 0 exactly when the lower-cased query is an
    in-order subsequence of the lower-cased target; in particular the empty
    query matches every target. The score is one of 1000, 500, 200, 50 and
    0, so its half is exact. *)
Theorem fuzzyMatch_positive_iff (query target : string) :
  (0 < fuzzyMatch query target <->
   IsSubsequence (JS.toLowerCase query) (JS.toLowerCase target)) /\
  In (fuzzyMatch query target) [1000; 500; 200; 50; 0] /\
  0 < fuzzyMatch "" target.
Proof.
  split; [|split; [apply fuzzyMatch_values|]].
  - unfold fuzzyMatch.
    set (q := JS.toLowerCase query). set (t := JS.toLowerCase target).
    pose proof (startsWith_prefix t q) as Hp.
    pose proof (includes_substring t q) as Hi.
    pose proof (subseqLoop_subsequence q t) as Hs.
    destruct (String.eqb_spec t q) as [->|He].
    { split; [intros _; apply subsequence_refl|lia]. }
    destruct (JS.startsWith t q).
    { split; [intros _|lia]. destruct (proj1 Hp eq_refl) as [r ->].
      apply subsequence_app_r, subsequence_refl. }
    destruct (JS.includes t q).
    { split; [intros _|lia]. destruct (proj1 Hi eq_refl) as (a & b & ->).
      apply subsequence_app_l, subsequence_app_r, subsequence_refl. }
    destruct (subseqLoop q t 0 =? String.length q)%nat.
    + split; [intros _; now apply Hs|lia].
    + split; [lia|]. intros Hsub. apply Hs in Hsub. discriminate.
  - unfold fuzzyMatch. cbn [JS.toLowerCase JS.startsWith].
    destruct (String.eqb _ ""); lia.
Qed.

Lemma insertByScore_perm x l : Permutation (insertByScore x l) (x :: l).
Proof.
  induction l as [|y ys IH]; simpl; [reflexivity|].
  destruct (Match.score x <? Match.score y); [|reflexivity].
  rewrite IH. apply perm_swap.
Qed.

Lemma sortByScore_perm l : Permutation (sortByScore l) l.
Proof.
  induction l as [|x l IH]; simpl; [reflexivity|].
  rewrite insertByScore_perm. now constructor.
Qed.

Lemma insertByScore_sorted x l :
  StronglySorted (fun a b => Match.score b <= Match.score a) l ->
  StronglySorted (fun a b => Match.score b <= Match.score a) (insertByScore x l).
Proof.
  induction l as [|y ys IH]; intros Hs; simpl.
  - repeat constructor.
  - apply StronglySorted_inv in Hs as [Hys Hy].
    destruct (Z.ltb_spec (Match.score x) (Match.score y)) as [Hlt|Hge].
    + constructor; [now apply IH|].
      rewrite List.Forall_forall in *. intros z Hz.
      apply (Permutation_in _ (insertByScore_perm x ys)) in Hz as [<-|Hz];
        [lia|now apply Hy].
    + constructor; [now constructor|].
      constructor; [lia|].
      rewrite List.Forall_forall in *. intros z Hz. specialize (Hy z Hz). lia.
Qed.

Lemma sortByScore_sorted l :
  StronglySorted (fun a b => Match.score b <= Match.score a) (sortByScore l).
Proof.
  induction l as [|x l IH]; simpl; [constructor|].
  now apply insertByScore_sorted.
Qed.

(** The sort is stable: the items of one score keep their order. *)
Lemma insertByScore_stable s x l :
  List.filter (fun m => Match.score m =? s) (insertByScore x l)
  = List.filter (fun m => Match.score m =? s) (x :: l).
Proof.
  induction l as [|y ys IH]; [reflexivity|].
  cbn [insertByScore].
  destruct (Z.ltb_spec (Match.score x) (Match.score y)) as [Hlt|Hge];
    [|reflexivity].
  cbn [List.filter] in *. rewrite IH.
  destruct (Z.eqb_spec (Match.score x) s), (Z.eqb_spec (Match.score y) s);
    try reflexivity; lia.
Qed.

Lemma sortByScore_stable s l :
  List.filter (fun m => Match.score m =? s) (sortByScore l)
  = List.filter (fun m => Match.score m =? s) l.
Proof.
  induction l as [|x l IH]; [reflexivity|].
  cbn [sortByScore fold_right]. fold (sortByScore l).
  rewrite insertByScore_stable. cbn [List.filter]. now rewrite IH.
Qed.

Lemma fuzzyMatch_range query target : 0 <= fuzzyMatch query target <= 1000.
Proof.
  unfold fuzzyMatch.
  repeat match goal with |- context [if ?c then _ else _] => destruct c end; lia.
Qed.

Lemma scoreItem_bounds query item :
  0 <= Match.score (scoreItem query item) <= 1000.
Proof.
  unfold scoreItem. cbn [Match.score].
  pose proof (fuzzyMatch_range query (Project.name (fst item))) as Hp.
  pose proof (fuzzyMatch_range query
                (dirNameOf (Worktree.path (snd item)))) as Hd.
  assert (0 <= match Worktree.branch (snd item) with
               | Some b => if JS.truthy b then fuzzyMatch query b else 0
               | None => 0
               end <= 1000) as Hb.
  { destruct (Worktree.branch (snd item)) as [b|]; [|lia].
    destruct (JS.truthy b); [|lia]. apply fuzzyMatch_range. }
  assert (0 <= fuzzyMatch query (Project.name (fst item)) / 2 <= 1000) as Hh.
  { split; [apply Z.div_pos; lia|].
    apply Z.div_le_upper_bound; lia. }
  lia.
Qed.

Lemma filter_score_positive s (l : list Match.t) :
  0 < s ->
  List.filter (fun m => Match.score m =? s)
    (List.filter (fun m => 0 <? Match.score m) l)
  = List.filter (fun m => Match.score m =? s) l.
Proof.
  intros Hs. induction l as [|m ms IH]; [reflexivity|]. cbn [List.filter].
  destruct (Z.ltb_spec 0 (Match.score m)) as [Hpos|Hnpos];
    cbn [List.filter]; rewrite IH; [reflexivity|].
  destruct (Z.eqb_spec (Match.score m) s); [lia|reflexivity].
Qed.

(** X11. The matches come sorted by descending score; each has a score
    above 0 and at most 1000; they are, up to order, exactly the scored
    worktrees of the projects with a score above 0, and those of equal score
    keep their discovery order. When a worktree's branch equals the query up
    to letter case, the first match has the score 1000. *)
Theorem findBestMatch_ranking (query : string) (projects : list Project.t) :
  let scored := map (scoreItem query) (flattenWorktrees projects) in
  let result := findBestMatch query projects in
  StronglySorted (fun a b => Match.score b <= Match.score a) result /\
  Forall (fun m => 0 < Match.score m <= 1000) result /\
  Permutation result (List.filter (fun m => 0 <? Match.score m) scored) /\
  (forall s, 0 < s ->
     List.filter (fun m => Match.score m =? s) result
     = List.filter (fun m => Match.score m =? s) scored) /\
  (forall p wt b,
     In p projects -> In wt (Project.worktrees p) ->
     Worktree.branch wt = Some b -> b <> "" ->
     JS.toLowerCase b = JS.toLowerCase query ->
     exists top rest, result = top :: rest /\ Match.score top = 1000).
Proof.
  cbv zeta. unfold findBestMatch.
  set (scored := map (scoreItem query) (flattenWorktrees projects)).
  set (kept := List.filter (fun m => 0 <? Match.score m) scored).
  assert (Forall (fun m => 0 < Match.score m <= 1000) kept) as Hkept.
  { apply List.Forall_forall. intros m [Hin Hpos]%filter_In.
    apply Z.ltb_lt in Hpos. split; [exact Hpos|].
    apply in_map_iff in Hin as (item & <- & _). apply scoreItem_bounds. }
  assert (Forall (fun m => 0 < Match.score m <= 1000) (sortByScore kept)) as Hall.
  { apply List.Forall_forall. intros m Hm.
    apply (Permutation_in _ (sortByScore_perm kept)) in Hm.
    rewrite List.Forall_forall in Hkept. now apply Hkept. }
  split; [apply sortByScore_sorted|]. split; [exact Hall|].
  split; [apply sortByScore_perm|]. split.
  - intros s Hs. rewrite sortByScore_stable. now apply filter_score_positive.
  - intros p wt b Hp Hwt Hb Hne Hlow.
    assert (In (scoreItem query (p, wt)) kept) as Hin.
    { apply filter_In. split.
      - apply in_map. unfold flattenWorktrees. apply in_flat_map.
        exists p. split; [exact Hp|]. now apply in_map.
      - apply Z.ltb_lt. unfold scoreItem. cbn [Match.score fst snd].
        rewrite Hb. destruct b; [congruence|]. cbn [JS.truthy].
        unfold fuzzyMatch at 1. rewrite Hlow, String.eqb_refl. lia. }
    assert (Match.score (scoreItem query (p, wt)) = 1000) as Hexact.
    { pose proof (scoreItem_bounds query (p, wt)) as Hbd.
      unfold scoreItem in *. cbn [Match.score fst snd] in *.
      rewrite Hb in *. destruct b; [congruence|]. cbn [JS.truthy] in *.
      unfold fuzzyMatch at 1 in Hbd. unfold fuzzyMatch at 1.
      rewrite Hlow, String.eqb_refl in *. lia. }
    apply (Permutation_in _ (Permutation_sym (sortByScore_perm kept))) in Hin.
    pose proof (sortByScore_sorted kept) as Hsorted.
    destruct (sortByScore kept) as [|top rest]; [contradiction|].
    exists top, rest. split; [reflexivity|].
    apply Forall_cons_1 in Hall as [[_ Htop] _].
    destruct Hin as [->|Hin]; [exact Hexact|].
    apply StronglySorted_inv in Hsorted as [_ Hle].
    rewrite List.Forall_forall in Hle. specialize (Hle _ Hin). lia.
Qed.

Example findBestMatch_auth :
  map (fun m => (Worktree.path (Match.worktree m), Match.score m))
    (findBestMatch "auth" [sampleProject])
  = [("/w/auth", 1000); ("/w/feat-auth-flow", 200)].
Proof. reflexivity. Qed.

Lemma findBestMatch_ranking_witness :
  exists top rest,
    findBestMatch "AUTH" [sampleProject] = top :: rest /\
    Match.score top = 1000.
Proof.
  refine (proj2 (proj2 (proj2 (proj2
            (findBestMatch_ranking "AUTH" [sampleProject]))))
            sampleProject (sampleWorktree "/w/auth" "auth" false) "auth"
            _ _ eq_refl _ eq_refl).
  - now left.
  - right. now left.
  - discriminate.
Defined.

(** ** The jump and remove commands *)

Section CommandFacts.
Context `{CliHost}.

(** X12. For a configuration of the declared shape and a non-empty query,
    [jumpToWorktree] runs nothing after the discovery, and it writes a path
    exactly when there is a first match and every other match scores less
    than two thirds of it; the path is then the first match's. When the
    second match scores two thirds of the first or more, and when there is
    no match, it exits with 1. *)
Theorem jumpToWorktree_decision q w config w1 projects w2 :
  q <> "" ->
  loadConfig w = (config, w1) ->
  discoverProjects config w1 = (projects, w2) ->
  snd (jumpToWorktree (Some q) w) = w2 /\
  (forall path,
     fst (jumpToWorktree (Some q) w) = Finished path ->
     exists m rest,
       findBestMatch q projects = m :: rest /\
       path = Worktree.path (Match.worktree m) /\
       Forall (fun m' => 3 * Match.score m' < 2 * Match.score m) rest) /\
  (forall m rest,
     findBestMatch q projects = m :: rest ->
     Forall (fun m' => 3 * Match.score m' < 2 * Match.score m) rest ->
     fst (jumpToWorktree (Some q) w)
     = Finished (Worktree.path (Match.worktree m))) /\
  (forall m0 m1 rest,
     findBestMatch q projects = m0 :: m1 :: rest ->
     2 * Match.score m0 <= 3 * Match.score m1 ->
     exists errors, fst (jumpToWorktree (Some q) w) = Exit1 errors) /\
  (findBestMatch q projects = [] ->
   exists errors, fst (jumpToWorktree (Some q) w) = Exit1 errors).
Proof.
  intros Hq Hcfg Hdisc. unfold jumpToWorktree, bind, ret.
  destruct q as [|c q']; [congruence|]. cbn [JS.truthy negb].
  rewrite Hcfg, Hdisc.
  set (query := String c q') in *.
  pose proof (sortByScore_sorted
                (List.filter (fun item => 0 <? Match.score item)
                   (map (scoreItem query) (flattenWorktrees projects))))
    as Hsorted.
  fold (findBestMatch query projects) in Hsorted.
  destruct (Z.eqb_spec (JS.len projects) 0) as [Hnone|_].
  { assert (projects = []) as ->
      by (destruct projects; [reflexivity|unfold JS.len in Hnone; simpl in Hnone; lia]).
    cbn [fst snd]. split; [reflexivity|].
    split; [discriminate|]. split; [discriminate|].
    split; [discriminate|]. intros _. now eexists. }
  destruct (findBestMatch query projects) as [|m0 [|m1 rest]] eqn:Hm.
  - cbn [fst snd]. split; [reflexivity|].
    split; [discriminate|]. split; [discriminate|].
    split; [discriminate|]. intros _. now eexists.
  - cbn [fst snd]. split; [reflexivity|]. split; [|split; [|split]].
    + intros path [= <-]. exists m0, []. repeat split. constructor.
    + now intros m rest [= <- <-] _.
    + discriminate.
    + discriminate.
  - destruct (Z.ltb_spec (3 * Match.score m1) (2 * Match.score m0)) as [Hlt|Hge];
      cbn [fst snd]; (split; [reflexivity|]); (split; [|split; [|split]]);
      try discriminate.
    + intros path [= <-]. exists m0, (m1 :: rest). repeat split.
      apply StronglySorted_inv in Hsorted as [Hs _].
      apply StronglySorted_inv in Hs as [_ Hle].
      constructor; [exact Hlt|].
      eapply Forall_impl; [exact Hle|]. intros m' Hm'. simpl in Hm'. lia.
    + now intros m rest' [= <- <-] _.
    + intros a b l [= <- <- <-] Hle. lia.
    + intros m rest' [= <- <-] Hall. apply Forall_cons_1 in Hall as [Hlt _]. lia.
    + intros a b l _ _. now eexists.
Qed.

(** X13. Once [removeWorktreeCLI] has found a best match: when that match
    is the main worktree, it exits with "Cannot remove the main worktree"
    and runs nothing after the discovery, with or without [--force]; when
    the match is not main, no force flag is given and the dirty check
    answers dirty, it exits without running the removal; and when it ends
    with the removal message, the match is not main, the removal subprocess
    succeeded, and the dirty check had answered clean unless a force flag
    was given. *)
Theorem removeWorktreeCLI_guards args w config w1 projects w2 target rest :
  args <> [] ->
  loadConfig w = (config, w1) ->
  discoverProjects config w1 = (projects, w2) ->
  findBestMatchOf (JS.find (fun a => negb (JS.startsWith a "-")) args) projects
  = Some (target :: rest) ->
  let force := bool_decide ("--force" ∈ args) || bool_decide ("-f" ∈ args) in
  let path := Worktree.path (Match.worktree target) in
  (Worktree.isMain (Match.worktree target) = true ->
   removeWorktreeCLI args w = (Exit1 ["Cannot remove the main worktree"], w2)) /\
  (Worktree.isMain (Match.worktree target) = false -> force = false ->
   forall w3, isWorktreeDirty path w2 = (true, w3) ->
   exists errors, removeWorktreeCLI args w = (Exit1 errors, w3)) /\
  (forall out w4,
     removeWorktreeCLI args w = (Finished out, w4) ->
     Worktree.isMain (Match.worktree target) = false /\
     exists w3,
       (force = true /\ w3 = w2 \/ isWorktreeDirty path w2 = (false, w3)) /\
       removeWorktree (Project.gitDir (Match.project target)) path force w3
       = (Ok tt, w4)).
Proof.
  intros Hargs Hcfg Hdisc Hmatch. cbv zeta.
  unfold removeWorktreeCLI, bind, ret.
  destruct args as [|a args']; [congruence|].
  replace (JS.len (a :: args') =? 0) with false
    by (symmetry; apply Z.eqb_neq; unfold JS.len; simpl length; lia).
  rewrite Hcfg, Hdisc, Hmatch.
  set (force := bool_decide ("--force" ∈ a :: args')
                || bool_decide ("-f" ∈ a :: args')).
  destruct (Worktree.isMain (Match.worktree target)) eqn:Hmain.
  { split; [reflexivity|]. split; [discriminate|]. intros out w4 [=]. }
  split; [discriminate|]. split.
  - intros _ Hforce w3 Hdirty. rewrite Hforce, Hdirty. now eexists.
  - intros out w4. destruct force eqn:Hforce.
    + cbn [negb]. 
      destruct (removeWorktree _ _ true w2) as [[[]|e] w'] eqn:Hrm;
        intros [= <- <-]. split; [reflexivity|].
      exists w2. split; [now left|exact Hrm].
    + destruct (isWorktreeDirty _ w2) as [[|] w3] eqn:Hdirty; [intros [=]|].
      destruct (removeWorktree _ _ false w3) as [[[]|e] w'] eqn:Hrm;
        intros [= <- <-]. split; [reflexivity|].
      exists w3. split; [now right|exact Hrm].
Qed.

End CommandFacts.

Lemma jumpToWorktree_decision_witness :
  exists m rest,
    findBestMatch "main" [Project.set_name "app" loadedR] = m :: rest /\
    "/r" = Worktree.path (Match.worktree m) /\
    Forall (fun m' => 3 * Match.score m' < 2 * Match.score m) rest.
Proof.
  refine (proj1 (proj2
            (@jumpToWorktree_decision fixtureHost fixtureCli "main" tt
               fixtureConfig tt [Project.set_name "app" loadedR] tt
               _ eq_refl eq_refl)) "/r" eq_refl).
  discriminate.
Defined.

Lemma removeWorktreeCLI_guards_witness :
  @removeWorktreeCLI fixtureHost fixtureCli ["main"; "--force"] tt
  = (Exit1 ["Cannot remove the main worktree"], tt).
Proof.
  refine (proj1 (@removeWorktreeCLI_guards fixtureHost fixtureCli
                   ["main"; "--force"] tt fixtureConfig tt
                   [Project.set_name "app" loadedR] tt
                   (scoreItem "main"
                      (Project.set_name "app" loadedR,
                       Worktree.mk "/r" "0123456789abcdef0123456789abcdef01234567"
                         (Some "main") true false false None))
                   [] _ eq_refl eq_refl eq_refl) eq_refl).
  discriminate.
Defined.

(** ** The flat list *)

Lemma itemsOf_unfold collapsed query project :
  itemsOf collapsed query project
  = if negb (negb (JS.truthy query)
             || JS.includes (JS.toLowerCase (Project.name project)) query)
       && (JS.len (List.filter (worktreeMatches query project)
                     (Project.worktrees project)) =? 0)
    then []
    else ProjectItem project
         :: (if bool_decide (Project.name project ∈ collapsed) then []
             else map (fun wt => WorktreeItem wt project)
                    (if JS.truthy query
                     then List.filter (worktreeMatches query project)
                            (Project.worktrees project)
                     else Project.worktrees project)).
Proof.
  unfold itemsOf, buildStep.
  destruct (negb _ && _); [reflexivity|].
  now destruct (bool_decide _).
Qed.

Lemma worktreeMatches_empty query project wt :
  JS.truthy query = false -> worktreeMatches query project wt = true.
Proof. intros Hq. unfold worktreeMatches. now rewrite Hq. Qed.

(** A project is skipped exactly when the filter is not empty, its name
    does not contain it and none of its worktrees matches. *)
Lemma project_kept query project :
  negb (negb (JS.truthy query)
        || JS.includes (JS.toLowerCase (Project.name project)) query)
  && (JS.len (List.filter (worktreeMatches query project)
                (Project.worktrees project)) =? 0) = false
  <->
  (JS.truthy query = false
   \/ JS.includes (JS.toLowerCase (Project.name project)) query = true
   \/ exists wt, In wt (Project.worktrees project)
                 /\ worktreeMatches query project wt = true).
Proof.
  set (matching := List.filter (worktreeMatches query project)
                     (Project.worktrees project)).
  assert ((JS.len matching =? 0) = false
          <-> exists wt, In wt (Project.worktrees project)
                         /\ worktreeMatches query project wt = true) as Hex.
  { unfold JS.len. split.
    - destruct matching as [|wt l] eqn:Hm; [discriminate|]. intros _.
      exists wt. apply filter_In. fold matching. rewrite Hm. now left.
    - intros (wt & Hin & Hm).
      assert (In wt matching) as Hw by (apply filter_In; now split).
      destruct matching; [contradiction|]. apply Z.eqb_neq. simpl length. lia. }
  destruct (JS.truthy query); cbn [negb orb].
  - destruct (JS.includes _ query); cbn [negb andb].
    + split; [tauto|reflexivity].
    + rewrite Hex. split; [tauto|]. intros [Hc|[Hc|Hc]]; [discriminate..|exact Hc].
  - split; [tauto|reflexivity].
Qed.

Lemma in_itemsOf_project collapsed query project p :
  In (ProjectItem p) (itemsOf collapsed query project) <->
  p = project /\
  (JS.truthy query = false
   \/ JS.includes (JS.toLowerCase (Project.name project)) query = true
   \/ exists wt, In wt (Project.worktrees project)
                 /\ worktreeMatches query project wt = true).
Proof.
  rewrite itemsOf_unfold, <- project_kept.
  destruct (negb _ && _).
  - split; [contradiction|]. now intros [_ ?].
  - split.
    + intros [[= <-]|Hin]; [now split|].
      destruct (bool_decide _); [contradiction|].
      apply in_map_iff in Hin as (wt & [=] & _).
    + intros [-> _]. now left.
Qed.

Lemma in_itemsOf_worktree collapsed query project wt p :
  In (WorktreeItem wt p) (itemsOf collapsed query project) <->
  p = project /\ In wt (Project.worktrees project) /\
  (Project.name project ∉ collapsed) /\
  worktreeMatches query project wt = true.
Proof.
  rewrite itemsOf_unfold.
  assert (In wt (if JS.truthy query
                 then List.filter (worktreeMatches query project)
                        (Project.worktrees project)
                 else Project.worktrees project)
          <-> In wt (Project.worktrees project)
              /\ worktreeMatches query project wt = true) as Hshown.
  { destruct (JS.truthy query) eqn:Hq.
    - apply filter_In.
    - split; [|tauto]. intros Hin. split; [exact Hin|].
      now apply worktreeMatches_empty. }
  destruct (negb _ && _) eqn:Hskip.
  - split; [contradiction|]. intros (-> & Hin & _ & Hm).
    assert (negb (negb (JS.truthy query)
                  || JS.includes (JS.toLowerCase (Project.name project)) query)
            && (JS.len (List.filter (worktreeMatches query project)
                          (Project.worktrees project)) =? 0) = false) as Hkept.
    { apply project_kept. right. right. now exists wt. }
    congruence.
  - destruct (bool_decide_reflect (Project.name project ∈ collapsed)) as [Hc|Hc].
    + split; [intros [[=]|[]]|]. intros (_ & _ & Hn & _). contradiction.
    + split.
      * intros [[=]|Hin]. apply in_map_iff in Hin as (wt' & [= <- <-] & Hin).
        apply Hshown in Hin as [Hin Hm]. now repeat split.
      * intros (-> & Hin & _ & Hm). right. apply in_map_iff.
        exists wt. split; [reflexivity|]. apply Hshown. now split.
Qed.

(** X14. What the flat list holds. A project has a header exactly when it
    is one of the projects and the filter is empty, or its lower-cased name
    contains the lower-cased filter, or one of its worktrees matches. A
    worktree has a row exactly when its project is one of the projects and
    not collapsed, and the filter is empty, or the worktree's lower-cased
    branch or its project's lower-cased name contains the lower-cased
    filter. Every worktree row has the header of its project in the list. *)
Theorem buildFilteredItems_members (projects : list Project.t)
    (collapsed : gset string) (filterText : string) :
  let query := JS.toLowerCase filterText in
  let items := buildFilteredItems projects collapsed filterText in
  (forall p,
     In (ProjectItem p) items <->
     In p projects /\
     (query = ""
      \/ JS.includes (JS.toLowerCase (Project.name p)) query = true
      \/ exists wt, In wt (Project.worktrees p)
                    /\ worktreeMatches query p wt = true)) /\
  (forall wt p,
     In (WorktreeItem wt p) items <->
     In p projects /\ In wt (Project.worktrees p) /\
     (Project.name p ∉ collapsed) /\
     worktreeMatches query p wt = true) /\
  (forall wt p, In (WorktreeItem wt p) items -> In (ProjectItem p) items).
Proof.
  cbv zeta. rewrite buildFilteredItems_concat.
  set (query := JS.toLowerCase filterText).
  assert (forall p,
     In (ProjectItem p) (concat (map (itemsOf collapsed query) projects)) <->
     In p projects /\
     (query = ""
      \/ JS.includes (JS.toLowerCase (Project.name p)) query = true
      \/ exists wt, In wt (Project.worktrees p)
                    /\ worktreeMatches query p wt = true)) as Hheader.
  { intros p. rewrite in_concat. split.
    - intros (l & Hl & Hin). apply in_map_iff in Hl as (project & <- & Hp).
      apply in_itemsOf_project in Hin as [-> Hc]. split; [exact Hp|].
      destruct Hc as [Hq|[Hn|Hw]]; [left; now destruct query|tauto|tauto].
    - intros [Hp Hc]. exists (itemsOf collapsed query p). split.
      + now apply in_map.
      + apply in_itemsOf_project. split; [reflexivity|].
        destruct Hc as [->|[Hn|Hw]]; [now left|tauto|tauto]. }
  assert (forall wt p,
     In (WorktreeItem wt p) (concat (map (itemsOf collapsed query) projects)) <->
     In p projects /\ In wt (Project.worktrees p) /\
     (Project.name p ∉ collapsed) /\
     worktreeMatches query p wt = true) as Hrow.
  { intros wt p. rewrite in_concat. split.
    - intros (l & Hl & Hin). apply in_map_iff in Hl as (project & <- & Hp).
      apply in_itemsOf_worktree in Hin as (-> & Hin). now split.
    - intros (Hp & Hin). exists (itemsOf collapsed query p). split.
      + now apply in_map.
      + apply in_itemsOf_worktree. now split. }
  split; [exact Hheader|]. split; [exact Hrow|].
  intros wt p (Hp & Hwt & _ & Hm)%Hrow. apply Hheader. split; [exact Hp|].
  right. right. now exists wt.
Qed.

Lemma buildFilteredItems_members_witness :
  In (WorktreeItem (sampleWorktree "/w/fix-typo" "fix-typo" false) sampleProject)
    (buildFilteredItems [sampleProject] ∅ "APP").
Proof.
  apply (proj1 (proj2 (buildFilteredItems_members [sampleProject] ∅ "APP"))).
  split; [now left|]. split; [simpl; tauto|]. split; [set_solver|reflexivity].
Defined.

(** ** Transitions of the state machine *)

Lemma toggle_twice (collapsed : gset string) (x : string) :
  let next : gset string :=
    if bool_decide (x ∈ collapsed) then collapsed ∖ {[x]} else {[x]} ∪ collapsed in
  (if bool_decide (x ∈ next) then next ∖ {[x]} else {[x]} ∪ next) = collapsed.
Proof.
  cbv zeta. destruct (bool_decide_reflect (x ∈ collapsed)) as [Hin|Hout].
  - rewrite bool_decide_eq_false_2
      by (rewrite elem_of_difference, elem_of_singleton; tauto).
    apply set_eq. intros y. rewrite elem_of_union, elem_of_difference,
      elem_of_singleton. destruct (decide (y = x)) as [->|Hne]; tauto.
  - rewrite bool_decide_eq_true_2
      by (apply elem_of_union_l, elem_of_singleton; reflexivity).
    apply set_eq. intros y. rewrite elem_of_difference, elem_of_union,
      elem_of_singleton. destruct (decide (y = x)) as [->|Hne]; tauto.
Qed.

(** X15. Toggling the same project twice, in a state whose flat list is the
    derived one, gives back the collapsed set and the flat list; the cursor
    can only have moved up, clamped to the shorter list in between. *)
Theorem toggle_project_twice (s : AppState) (projectName : string) :
  derived s ->
  let s2 := appReducer (appReducer s (TOGGLE_PROJECT projectName))
              (TOGGLE_PROJECT projectName) in
  collapsedProjects s2 = collapsedProjects s /\
  filteredItems s2 = filteredItems s /\
  projects s2 = projects s /\
  filterText s2 = filterText s /\
  selectedIndex s2 <= selectedIndex s.
Proof.
  intros Hd. cbv zeta. cbn [appReducer collapsedProjects filteredItems projects
                             filterText selectedIndex].
  pose proof (toggle_twice (collapsedProjects s) projectName) as Ht.
  cbv zeta in Ht. rewrite Ht.
  repeat split; [now rewrite Hd|lia].
Qed.

Lemma toggle_project_twice_witness :
  filteredItems
    (appReducer (appReducer cursorAtEnd (TOGGLE_PROJECT "app"))
       (TOGGLE_PROJECT "app"))
  = filteredItems cursorAtEnd.
Proof.
  refine (proj1 (proj2 (toggle_project_twice cursorAtEnd "app" _))).
  reflexivity.
Defined.

Lemma move_one_index (s : AppState) :
  JS.len (filteredItems s) <> 0 ->
  0 <= selectedIndex s < JS.len (filteredItems s) ->
  selectedIndex (appReducer s (MOVE_SELECTION 1))
  = (selectedIndex s + 1) mod JS.len (filteredItems s)
  /\ filteredItems (appReducer s (MOVE_SELECTION 1)) = filteredItems s.
Proof.
  intros Hn Hsel. cbn [appReducer].
  destruct (Z.eqb_spec (JS.len (filteredItems s)) 0); [contradiction|].
  cbn [selectedIndex filteredItems]. split; [|reflexivity].
  destruct (Z.ltb_spec (selectedIndex s + 1) 0); [lia|].
  destruct (Z.geb_spec (selectedIndex s + 1) (JS.len (filteredItems s))).
  - replace (selectedIndex s + 1) with (JS.len (filteredItems s)) by lia.
    now rewrite Z.mod_same.
  - now rewrite Z.mod_small by lia.
Qed.

(** The state after [k] dispatches of [MOVE_SELECTION 1]. *)
Lemma move_many_index (k : nat) : forall s,
  JS.len (filteredItems s) <> 0 ->
  0 <= selectedIndex s < JS.len (filteredItems s) ->
  let s' := fold_left appReducer (repeat (MOVE_SELECTION 1) k) s in
  selectedIndex s' = (selectedIndex s + Z.of_nat k) mod JS.len (filteredItems s)
  /\ filteredItems s' = filteredItems s.
Proof.
  induction k as [|k IH]; intros s Hn Hsel; cbv zeta.
  - simpl. rewrite Z.add_0_r, Z.mod_small by lia. now split.
  - cbn [repeat fold_left].
    destruct (move_one_index s Hn Hsel) as [Hidx Hitems].
    destruct (IH (appReducer s (MOVE_SELECTION 1))) as [Hidx' Hitems'].
    + now rewrite Hitems.
    + rewrite Hidx, Hitems. apply Z.mod_pos_bound. lia.
    + cbv zeta in Hidx', Hitems'. rewrite Hidx', Hitems', Hidx, Hitems.
      split; [|reflexivity].
      rewrite Zplus_mod_idemp_l. f_equal. lia.
Qed.

(** Case analysis on the innermost comparison of the goal. *)
Ltac split_bound :=
  match goal with
  | |- context [?a <? ?b] =>
      lazymatch a with
      | context [if _ then _ else _] => fail
      | _ => destruct (Z.ltb_spec a b)
      end
  | |- context [?a >=? ?b] =>
      lazymatch a with
      | context [if _ then _ else _] => fail
      | _ => destruct (Z.geb_spec a b)
      end
  end.

(** X16. On a state whose cursor is a valid index, moving down by one and
    then up by one, or up and then down, gives back the very same state; and
    moving down by one as many times as the flat list has items brings the
    cursor back to where it was. *)
Theorem move_selection_cycle (s : AppState) :
  0 <= selectedIndex s < JS.len (filteredItems s) ->
  appReducer (appReducer s (MOVE_SELECTION 1)) (MOVE_SELECTION (-1)) = s /\
  appReducer (appReducer s (MOVE_SELECTION (-1))) (MOVE_SELECTION 1) = s /\
  selectedIndex
    (fold_left appReducer
       (repeat (MOVE_SELECTION 1) (length (filteredItems s))) s)
  = selectedIndex s.
Proof.
  intros Hsel.
  assert (JS.len (filteredItems s) <> 0) as Hn by lia.
  split; [|split].
  - destruct s as [ps ap sel ft items v ld er sp cp dp].
    cbn [selectedIndex filteredItems] in *. cbn [appReducer filteredItems].
    destruct (Z.eqb_spec (JS.len items) 0); [contradiction|].
    cbn [appReducer filteredItems selectedIndex projects activeProject
         filterText view loading error selectedPath collapsedProjects
         detailPaneVisible].
    destruct (Z.eqb_spec (JS.len items) 0); [contradiction|].
    f_equal. repeat split_bound; lia.
  - destruct s as [ps ap sel ft items v ld er sp cp dp].
    cbn [selectedIndex filteredItems] in *. cbn [appReducer filteredItems].
    destruct (Z.eqb_spec (JS.len items) 0); [contradiction|].
    cbn [appReducer filteredItems selectedIndex projects activeProject
         filterText view loading error selectedPath collapsedProjects
         detailPaneVisible].
    destruct (Z.eqb_spec (JS.len items) 0); [contradiction|].
    f_equal. repeat split_bound; lia.
  - destruct (move_many_index (length (filteredItems s)) s Hn Hsel) as [Hidx _].
    cbv zeta in Hidx. rewrite Hidx. unfold JS.len in *.
    replace (selectedIndex s + Z.of_nat (length (filteredItems s)))
      with (selectedIndex s + 1 * Z.of_nat (length (filteredItems s))) by lia.
    rewrite Z_mod_plus_full. apply Z.mod_small. exact Hsel.
Qed.

Lemma move_selection_cycle_witness :
  appReducer (appReducer cursorAtEnd (MOVE_SELECTION 1)) (MOVE_SELECTION (-1))
  = cursorAtEnd.
Proof.
  refine (proj1 (move_selection_cycle cursorAtEnd _)).
  split; [discriminate|reflexivity].
Defined.

(** X17. The confirm-delete view is entered by [SHOW_DELETE] only, and only
    with the cursor on the row of a worktree that is not main; nothing else
    of the state changes then. On a header, on a main worktree or with the
    cursor off the list, [SHOW_DELETE] returns the state as it is. *)
Theorem confirm_delete_entry (s : AppState) (action : AppAction) :
  view s <> ConfirmDelete ->
  (view (appReducer s action) = ConfirmDelete ->
   action = SHOW_DELETE /\
   exists wt p,
     JS.at_ (filteredItems s) (selectedIndex s) = Some (WorktreeItem wt p) /\
     Worktree.isMain wt = false /\
     filteredItems (appReducer s action) = filteredItems s /\
     selectedIndex (appReducer s action) = selectedIndex s /\
     projects (appReducer s action) = projects s) /\
  (view (appReducer s SHOW_DELETE) <> ConfirmDelete ->
   appReducer s SHOW_DELETE = s).
Proof.
  intros Hview. split.
  - destruct action; cbn [appReducer view]; try congruence; try discriminate.
    + destruct (JS.len (filteredItems s) =? 0); cbn [view]; congruence.
    + destruct (JS.at_ _ _) as [[|wt p]|]; cbn [view]; congruence.
    + destruct (JS.at_ _ _) as [[p|wt p]|] eqn:Hat; try congruence.
      destruct (Worktree.isMain wt) eqn:Hmain; [congruence|].
      intros _. split; [reflexivity|]. exists wt, p. now repeat split.
  - cbn [appReducer].
    destruct (JS.at_ _ _) as [[p|wt p]|]; try reflexivity.
    destruct (Worktree.isMain wt); [reflexivity|]. cbn [view]. congruence.
Qed.

Lemma confirm_delete_entry_witness :
  appReducer (initialState [sampleProject]) SHOW_DELETE
  = initialState [sampleProject].
Proof.
  refine (proj2 (confirm_delete_entry (initialState [sampleProject])
                   SHOW_DELETE _) _).
  - discriminate.
  - discriminate.
Defined.

(** ** The cursor at the start *)

Lemma buildFilteredItems_row projects collapsed filterText wt p :
  In (WorktreeItem wt p) (buildFilteredItems projects collapsed filterText) ->
  In p projects /\ In wt (Project.worktrees p) /\
  (Project.name p ∉ collapsed).
Proof.
  rewrite buildFilteredItems_concat, in_concat.
  intros (l & Hl & Hin). apply in_map_iff in Hl as (project & <- & Hp).
  apply in_itemsOf_worktree in Hin as (-> & Hin & Hc & _). now repeat split.
Qed.

Lemma at_in {A} (xs : list A) (i : Z) (x : A) : JS.at_ xs i = Some x -> In x xs.
Proof.
  unfold JS.at_. destruct (i <? 0); [discriminate|]. apply nth_error_In.
Qed.

(** X18. The exit path is set by [SELECT_WORKTREE] only: any other action
    leaves it as it is, and so does [SELECT_WORKTREE] on a header or off the
    list. When it is set, in a state whose flat list is the derived one, it
    is the path of the worktree under the cursor, a worktree of one of the
    state's projects, and that project is not collapsed. *)
Theorem selectedPath_source (s : AppState) (action : AppAction) :
  derived s ->
  selectedPath (appReducer s action) = selectedPath s \/
  (action = SELECT_WORKTREE /\
   exists p wt,
     In p (projects s) /\ In wt (Project.worktrees p) /\
     (Project.name p ∉ collapsedProjects s) /\
     JS.at_ (filteredItems s) (selectedIndex s) = Some (WorktreeItem wt p) /\
     selectedPath (appReducer s action) = Some (Worktree.path wt)).
Proof.
  intros Hd. destruct action; cbn [appReducer]; try (now left).
  - destruct (JS.len (filteredItems s) =? 0); now left.
  - destruct (JS.at_ _ _) as [[p|wt p]|] eqn:Hat; try (now left).
    right. split; [reflexivity|]. exists p, wt.
    apply at_in in Hat. rewrite Hd in Hat.
    apply buildFilteredItems_row in Hat as (Hp & Hwt & Hc). now repeat split.
  - destruct (JS.at_ _ _) as [[p|wt p]|]; try (now left).
    destruct (Worktree.isMain wt); now left.
Qed.

Lemma selectedPath_source_witness :
  selectedPath (appReducer cursorAtEnd SELECT_WORKTREE) = selectedPath cursorAtEnd
  \/ (SELECT_WORKTREE = SELECT_WORKTREE /\
      exists p wt,
        In p (projects cursorAtEnd) /\ In wt (Project.worktrees p) /\
        (Project.name p ∉ collapsedProjects cursorAtEnd) /\
        JS.at_ (filteredItems cursorAtEnd) (selectedIndex cursorAtEnd)
        = Some (WorktreeItem wt p) /\
        selectedPath (appReducer cursorAtEnd SELECT_WORKTREE)
        = Some (Worktree.path wt)).
Proof. exact (selectedPath_source cursorAtEnd SELECT_WORKTREE eq_refl). Defined.

Lemma findIndex_from_skip {A} (p : A -> bool) (l1 l2 : list A) (i : Z) :
  Forall (fun x => p x = false) l1 ->
  JS.findIndex_from p i (l1 ++ l2)
  = JS.findIndex_from p (i + JS.len l1) l2.
Proof.
  revert i. induction l1 as [|x l1 IH]; intros i Hall; simpl.
  - unfold JS.len. simpl. now rewrite Z.add_0_r.
  - apply Forall_cons_1 in Hall as [Hx Hall]. rewrite Hx, IH by assumption.
    f_equal. unfold JS.len. simpl length. lia.
Qed.

Lemma itemsOf_unfiltered project :
  itemsOf ∅ "" project
  = ProjectItem project
    :: map (fun wt => WorktreeItem wt project) (Project.worktrees project).
Proof.
  rewrite itemsOf_unfold. cbn [JS.truthy negb orb andb].
  now rewrite bool_decide_eq_false_2 by apply not_elem_of_empty.
Qed.

(** The flat list of projects without worktrees: their headers. *)
Lemma headers_only (pre : list Project.t) :
  Forall (fun q => Project.worktrees q = []) pre ->
  concat (map (itemsOf ∅ "") pre) = map ProjectItem pre.
Proof.
  induction 1 as [|q pre Hq _ IH]; [reflexivity|].
  cbn [map concat]. rewrite itemsOf_unfiltered, Hq, IH. reflexivity.
Qed.

Lemma initial_items pre p post :
  Forall (fun q => Project.worktrees q = []) pre ->
  buildFilteredItems (pre ++ p :: post) ∅ ""
  = map ProjectItem pre
    ++ ProjectItem p
       :: map (fun wt => WorktreeItem wt p) (Project.worktrees p)
       ++ buildFilteredItems post ∅ "".
Proof.
  intros Hpre. rewrite !buildFilteredItems_concat. cbn [JS.toLowerCase].
  rewrite map_app, concat_app, headers_only by assumption.
  cbn [map concat]. now rewrite itemsOf_unfiltered.
Qed.

Lemma at_app_here {A} (l1 l2 : list A) (x : A) :
  JS.at_ (l1 ++ x :: l2) (JS.len l1) = Some x.
Proof.
  unfold JS.at_, JS.len. destruct (Z.ltb_spec (Z.of_nat (length l1)) 0); [lia|].
  rewrite Nat2Z.id. rewrite nth_error_app2 by lia.
  now rewrite Nat.sub_diag.
Qed.

Lemma initialState_cursor_aux (loaded : list Project.t) :
  (forall pre p post wt wts,
     loaded = pre ++ p :: post ->
     Forall (fun q => Project.worktrees q = []) pre ->
     Project.worktrees p = wt :: wts ->
     selectedIndex (initialState loaded) = JS.len pre + 1 /\
     JS.at_ (filteredItems (initialState loaded))
       (selectedIndex (initialState loaded))
     = Some (WorktreeItem wt p)) /\
  (Forall (fun q => Project.worktrees q = []) loaded ->
   selectedIndex (initialState loaded) = 0 /\
   filteredItems (initialState loaded) = map ProjectItem loaded).
Proof.
  split.
  - intros pre p post wt wts -> Hpre Hwt.
    unfold initialState. cbn [selectedIndex filteredItems].
    rewrite initial_items by assumption. rewrite Hwt. cbn [map app].
    unfold JS.findIndex.
    rewrite findIndex_from_skip
      by (apply Forall_map, Forall_forall; reflexivity).
    cbn [JS.findIndex_from isWorktreeItem].
    assert (JS.len (map ProjectItem pre) = JS.len pre) as Hlen
      by (unfold JS.len; now rewrite length_map).
    rewrite Hlen, Z.add_0_l.
    assert (0 <= JS.len pre) by (unfold JS.len; lia).
    destruct (Z.geb_spec (JS.len pre + 1) 0); [|lia].
    split; [reflexivity|].
    change (map ProjectItem pre
            ++ ProjectItem p :: WorktreeItem wt p
               :: map (fun wt0 => WorktreeItem wt0 p) wts
               ++ buildFilteredItems post ∅ "")
      with (map ProjectItem pre
            ++ [ProjectItem p] ++ WorktreeItem wt p
               :: map (fun wt0 => WorktreeItem wt0 p) wts
               ++ buildFilteredItems post ∅ "").
    rewrite app_assoc.
    replace (JS.len pre + 1) with (JS.len (map ProjectItem pre ++ [ProjectItem p]))
      by (unfold JS.len; rewrite length_app, length_map; simpl; lia).
    apply at_app_here.
  - intros Hall. unfold initialState. cbn [selectedIndex filteredItems].
    rewrite buildFilteredItems_concat. cbn [JS.toLowerCase].
    rewrite headers_only by assumption. split; [|reflexivity].
    unfold JS.findIndex.
    rewrite <- (app_nil_r (map ProjectItem loaded)).
    rewrite findIndex_from_skip
      by (apply Forall_map, Forall_forall; reflexivity).
    reflexivity.
Qed.

(** X19. At the start the cursor is on the first worktree row there is:
    when the first project that has worktrees comes after [k] projects
    without any, the cursor is [k + 1] and the item under it is that
    project's first worktree; when no project has a worktree, the cursor is
    0. *)
Theorem initialState_cursor (loaded : list Project.t) :
  (forall pre p post wt wts,
     loaded = pre ++ p :: post ->
     Forall (fun q => Project.worktrees q = []) pre ->
     Project.worktrees p = wt :: wts ->
     selectedIndex (initialState loaded) = JS.len pre + 1 /\
     JS.at_ (filteredItems (initialState loaded))
       (selectedIndex (initialState loaded))
     = Some (WorktreeItem wt p)) /\
  (Forall (fun q => Project.worktrees q = []) loaded ->
   selectedIndex (initialState loaded) = 0 /\
   filteredItems (initialState loaded) = map ProjectItem loaded).
Proof. apply initialState_cursor_aux. Qed.

Lemma initialState_cursor_witness :
  selectedIndex (initialState [Project.mk "empty" "/e/.git" "/e" []; sampleProject])
  = 2.
Proof.
  refine (proj1 (proj1 (initialState_cursor
                          [Project.mk "empty" "/e/.git" "/e" []; sampleProject])
                   [Project.mk "empty" "/e/.git" "/e" []] sampleProject []
                   (sampleWorktree "/r" "main" true) _ eq_refl _ eq_refl)).
  repeat constructor.
Defined.

Lemma first_with_worktrees (ps : list Project.t) :
  Forall (fun q => Project.worktrees q = []) ps \/
  exists pre p post wt wts,
    ps = pre ++ p :: post /\
    Forall (fun q => Project.worktrees q = []) pre /\
    Project.worktrees p = wt :: wts.
Proof.
  induction ps as [|q ps IH]; [left; constructor|].
  destruct (Project.worktrees q) as [|wt wts] eqn:Hq.
  - destruct IH as [Hall|(pre & p & post & wt & wts & -> & Hpre & Hp)].
    + left. now constructor.
    + right. exists (q :: pre), p, post, wt, wts.
      split; [reflexivity|]. split; [now constructor|exact Hp].
  - right. exists [], q, ps, wt, wts. split; [reflexivity|].
    split; [constructor|exact Hq].
Qed.

Lemma initial_delete_refused (ps : list Project.t) :
  Forall (fun p => forall wt wts,
            Project.worktrees p = wt :: wts -> Worktree.isMain wt = true) ps ->
  appReducer (initialState ps) SHOW_DELETE = initialState ps.
Proof.
  intros Hwl.
  destruct (first_with_worktrees ps)
    as [Hall|(pre & p & post & wt & wts & Heq & Hpre & Hp)].
  - pose proof (proj2 (initialState_cursor_aux ps) Hall) as [Hsel Hitems].
    cbn [appReducer]. rewrite Hsel, Hitems.
    destruct ps as [|q ps']; reflexivity.
  - pose proof (proj1 (initialState_cursor_aux ps) pre p post wt wts Heq Hpre Hp)
      as [_ Hat].
    cbn [appReducer]. rewrite Hat.
    rewrite List.Forall_forall in Hwl.
    rewrite (Hwl p) with (wt := wt) (wts := wts); [reflexivity| |exact Hp].
    subst ps. apply in_app_iff. right. now left.
Qed.

Lemma wellLoaded_first_main (ps : list Project.t) :
  Forall wellLoaded ps ->
  Forall (fun p => forall wt wts,
            Project.worktrees p = wt :: wts -> Worktree.isMain wt = true) ps.
Proof.
  intros Hwl. eapply List.Forall_impl; [|exact Hwl].
  intros p (_ & _ & [Hnil|(wt' & rest & Heq & Hm & _)]) wt wts Hp; congruence.
Qed.

(** ** The keyboard handler *)

Lemma units_inj (a b : string) : units a = units b -> a = b.
Proof.
  unfold units. revert b. induction a as [|c a IH]; intros [|d b]; simpl;
    try discriminate; [reflexivity|].
  intros [= Hc Hab]. f_equal; [|now apply IH].
  apply N2Z.inj in Hc.
  rewrite <- (ascii_N_embedding c), <- (ascii_N_embedding d). now f_equal.
Qed.

Lemma isKey_units (name label : string) :
  isKey (Some (units name)) label = bool_decide (name = label).
Proof.
  unfold isKey. apply bool_decide_ext. split.
  - intros [= Heq]. now apply units_inj.
  - now intros ->.
Qed.

(** The labels that the upper case of a single code unit can be equal to. *)
Lemma isKey_upper_single (c : ascii) (label : string) :
  In label ["j"; "down"; "k"; "up"; "return"; "space"; "q"; "n"; "d"; "/";
            "?"; "g"; "G"] ->
  isKey (Some (toUpperCase (String c ""))) label
  = (Ascii.eqb c "/" && String.eqb label "/")
    || (Ascii.eqb c "?" && String.eqb label "?")
    || ((Ascii.eqb c "g" || Ascii.eqb c "G") && String.eqb label "G").
Proof.
  intros Hin. simpl in Hin.
  repeat (destruct Hin as [<-|Hin]); try contradiction;
    destruct c as [[] [] [] [] [] [] [] []]; vm_compute; reflexivity.
Qed.

Section StartFacts.
Context `{Host}.

(** X20. Right after the start nothing can be deleted: the state the
    interface starts in, built from the projects that [discoverProjects]
    returns, has its cursor on a header or on a main worktree, so that
    [SHOW_DELETE], and the key [d] that dispatches it, leave that state as
    it is. The same holds for any projects whose first worktree is flagged
    main. *)
Theorem startup_delete_refused :
  (forall loaded,
     Forall (fun p => forall wt wts,
               Project.worktrees p = wt :: wts -> Worktree.isMain wt = true)
       loaded ->
     appReducer (initialState loaded) SHOW_DELETE = initialState loaded) /\
  (forall config w ctrl,
     let loaded := fst (discoverProjects config w) in
     appReducer (initialState loaded) SHOW_DELETE = initialState loaded /\
     afterKey (initialState loaded) (KeyEvent.mk (Some "d") ctrl false)
     = initialState loaded).
Proof.
  split; [exact initial_delete_refused|].
  intros config w ctrl loaded.
  assert (appReducer (initialState loaded) SHOW_DELETE = initialState loaded)
    as Hd
    by apply initial_delete_refused, wellLoaded_first_main,
         discoverProjects_loaded.
  split; [exact Hd|].
  unfold afterKey.
  replace (handleKey (initialState loaded) (KeyEvent.mk (Some "d") ctrl false))
    with (Dispatch SHOW_DELETE); [exact Hd|].
  unfold handleKey. cbn. now destruct ctrl.
Qed.

End StartFacts.

(** Keys with a one-letter lower-case label act without shift only. *)
Lemma isKey_letter (key : KeyEvent.t) (label : string) :
  In label ["j"; "k"; "q"; "n"; "d"; "g"] ->
  isKey (keyNameOf key) label
  = bool_decide (KeyEvent.name key = Some label) && negb (KeyEvent.shift key).
Proof.
  intros Hin. unfold keyNameOf.
  destruct (KeyEvent.name key) as [name|]; [|now destruct (KeyEvent.shift key)].
  destruct (KeyEvent.shift key); cbn [andb negb].
  - rewrite andb_false_r.
    destruct name as [|c [|d name]]; cbn [String.length Nat.eqb].
    + rewrite isKey_units. apply bool_decide_eq_false_2.
      simpl in Hin. intuition congruence.
    + rewrite isKey_upper_single by (simpl in *; tauto).
      simpl in Hin.
      repeat (destruct Hin as [<-|Hin]); try contradiction;
        cbn; now rewrite !andb_false_r.
    + rewrite isKey_units. apply bool_decide_eq_false_2.
      simpl in Hin. intuition congruence.
  - rewrite andb_true_r, isKey_units. apply bool_decide_ext.
    split; congruence.
Qed.

(** X21. The handler calls [onQuit] exactly in the list view with an empty
    filter text, on [c] with control held or on [q] without shift. *)
Theorem handleKey_quit_iff (s : AppState) (key : KeyEvent.t) :
  handleKey s key = OnQuit <->
  view s = ListView /\ filterText s = "" /\
  ((KeyEvent.ctrl key = true /\ KeyEvent.name key = Some "c") \/
   (KeyEvent.name key = Some "q" /\ KeyEvent.shift key = false)).
Proof.
  split.
  - intros Hq. unfold handleKey in Hq. cbv zeta in Hq.
    destruct (view s) eqn:Hv; try discriminate.
    destruct (filterText s) eqn:Hf; cbn [JS.truthy] in Hq;
      [|destruct (nameIs key "escape"); discriminate].
    repeat split.
    destruct (KeyEvent.ctrl key && nameIs key "c") eqn:Hc.
    + left. apply andb_true_iff in Hc as [Hctrl Hn].
      split; [assumption|]. now apply bool_decide_eq_true in Hn.
    + right. destruct (isKey (keyNameOf key) "q") eqn:Hk.
      * rewrite isKey_letter in Hk by (simpl; tauto).
        apply andb_true_iff in Hk as [Hn Hs].
        apply bool_decide_eq_true in Hn.
        split; [exact Hn|now destruct (KeyEvent.shift key)].
      * exfalso.
        repeat match type of Hq with
               | (if ?c then _ else _) = _ => destruct c
               | match ?x with _ => _ end = _ => destruct x
               end; discriminate.
  - intros (Hv & Hf & Hkey). unfold handleKey. rewrite Hv, Hf.
    destruct key as [name ctrl shift]. cbn in Hkey.
    destruct Hkey as [[-> ->]|[-> ->]]; [reflexivity|].
    now destruct ctrl.
Qed.

(** X22. What shift does. A key whose name is not a single character acts
    as without shift; with shift, [g] acts as [G] does without shift; [/],
    [?] and [G], and [c] with control held, act as without shift; every
    other single character does nothing, so that [j], [k], [q], [n] and [d]
    are dead while shift is held. *)
Theorem handleKey_shifted (s : AppState) (name : string) (ctrl : bool) :
  let plain n := handleKey s (KeyEvent.mk (Some n) ctrl false) in
  handleKey s (KeyEvent.mk (Some name) ctrl true)
  = if (String.length name =? 1)%nat then
      if bool_decide (name = "g") then plain "G"
      else if bool_decide (name ∈ ["/"; "?"; "G"])
              || (ctrl && bool_decide (name = "c"))
      then plain name
      else NoEffect
    else plain name.
Proof.
  cbv zeta.
  destruct (String.length name =? 1)%nat eqn:Hlen.
  - destruct name as [|c [|d name]]; try discriminate. clear Hlen.
    destruct (Ascii.eqb_spec c "g") as [->|Hg];
      [unfold handleKey; destruct (view s); try reflexivity;
       destruct (filterText s); cbn; now destruct ctrl|].
    destruct (Ascii.eqb_spec c "/") as [->|Hslash];
      [unfold handleKey; destruct (view s); try reflexivity;
       destruct (filterText s); cbn; now destruct ctrl|].
    destruct (Ascii.eqb_spec c "?") as [->|Hhelp];
      [unfold handleKey; destruct (view s); try reflexivity;
       destruct (filterText s); cbn; now destruct ctrl|].
    destruct (Ascii.eqb_spec c "G") as [->|HG];
      [unfold handleKey; destruct (view s); try reflexivity;
       destruct (filterText s); cbn; now destruct ctrl|].
    destruct (Ascii.eqb_spec c "c") as [->|Hc];
      [unfold handleKey; destruct (view s); try reflexivity;
       destruct (filterText s); cbn; now destruct ctrl|].
    rewrite (bool_decide_eq_false_2 (String c "" = "g")) by congruence.
    rewrite (bool_decide_eq_false_2 (String c "" = "c")) by congruence.
    rewrite (bool_decide_eq_false_2 (String c "" ∈ _))
      by (rewrite !elem_of_cons, elem_of_nil; intuition congruence).
    rewrite andb_false_r. cbn [orb].
    unfold handleKey. cbv zeta. destruct (view s); try reflexivity.
    unfold nameIs. cbn [KeyEvent.name KeyEvent.ctrl].
    rewrite (bool_decide_eq_false_2 (Some (String c "") = Some "escape"))
      by discriminate.
    rewrite (bool_decide_eq_false_2 (Some (String c "") = Some "c"))
      by congruence.
    rewrite andb_false_r.
    destruct (JS.truthy (filterText s)); [reflexivity|].
    unfold keyNameOf. cbn [KeyEvent.name KeyEvent.shift andb String.length Nat.eqb].
    rewrite !isKey_upper_single by (simpl; tauto).
    rewrite (proj2 (Ascii.eqb_neq c "/")), (proj2 (Ascii.eqb_neq c "?")),
      (proj2 (Ascii.eqb_neq c "g")), (proj2 (Ascii.eqb_neq c "G"))
      by assumption.
    reflexivity.
  - unfold handleKey, nameIs, keyNameOf.
    cbn [KeyEvent.name KeyEvent.ctrl KeyEvent.shift andb].
    now rewrite Hlen.
Qed.



(** ** States reached by the keyboard *)

(** The actions that the handler dispatches. *)
Lemma handleKey_dispatch (s : AppState) (key : KeyEvent.t) (a : AppAction) :
  handleKey s key = Dispatch a ->
  view s = ListView /\
  (a = SET_FILTER "" \/
   (exists d, a = MOVE_SELECTION d) \/
   a = SELECT_WORKTREE \/
   (exists p, JS.at_ (filteredItems s) (selectedIndex s) = Some (ProjectItem p)
              /\ a = TOGGLE_PROJECT (Project.name p)) \/
   a = SHOW_CREATE \/ a = SHOW_DELETE \/ a = SHOW_HELP).
Proof.
  unfold handleKey. cbv zeta. intros Hk.
  destruct (view s); try discriminate. split; [reflexivity|].
  repeat match type of Hk with
         | (if ?c then _ else _) = _ => destruct c
         | match ?x with _ => _ end = _ => destruct x eqn:?
         end;
    try discriminate; injection Hk as <-; eauto 12.
Qed.

Lemma buildFilteredItems_header projects collapsed filterText p :
  In (ProjectItem p) (buildFilteredItems projects collapsed filterText) ->
  In p projects.
Proof.
  rewrite buildFilteredItems_concat, in_concat.
  intros (l & Hl & Hin). apply in_map_iff in Hl as (project & <- & Hp).
  now apply in_itemsOf_project in Hin as [-> _].
Qed.

(** The fields of the state that a transition returns. *)
Ltac reduce_fields :=
  cbn [appReducer projects activeProject selectedIndex filterText
       filteredItems view loading error selectedPath collapsedProjects
       detailPaneVisible].

Lemma handleKey_keyAction loaded s key a :
  keysInv loaded s ->
  handleKey s key = Dispatch a ->
  view s = ListView /\ keyAction loaded a.
Proof.
  intros (Hp & _ & Hd & _) Hk.
  apply handleKey_dispatch in Hk as (Hv & Hcases). split; [exact Hv|].
  unfold keyAction.
  destruct Hcases
    as [-> | [[d ->] | [-> | [(p & Hat & ->) | [-> | [-> | ->]]]]]];
    eauto 10.
  right. right. right. left. exists p. split; [|reflexivity].
  apply at_in in Hat. rewrite Hd in Hat.
  apply buildFilteredItems_header in Hat. congruence.
Qed.

Lemma appReducer_keysInv loaded s a :
  keysInv loaded s -> keyAction loaded a -> keysInv loaded (appReducer s a).
Proof.
  intros (Hp & Hf & Hd & Hc & Hcol & Hsel) Hcases.
  destruct (appReducer_invariant s a (conj Hd Hc)) as [Hd' Hc'].
  unfold keysInv.
  destruct Hcases
    as [-> | [[d ->] | [-> | [(p & Hin & ->) | [-> | [-> | ->]]]]]].
  - (* SET_FILTER with an empty text *)
    split_and!; try assumption; reduce_fields; try assumption;
      congruence.
  - (* MOVE_SELECTION *)
    split_and!; try assumption; reduce_fields;
      destruct (JS.len (filteredItems s) =? 0); reduce_fields;
      try assumption;
      congruence.
  - (* SELECT_WORKTREE *)
    split_and!; try assumption; reduce_fields;
      destruct (JS.at_ _ _) as [[q|wt q]|] eqn:Hat; reduce_fields;
      try assumption;
      try congruence.
    intros path [= <-]. exists q, wt.
    apply at_in in Hat. rewrite Hd in Hat.
    apply buildFilteredItems_row in Hat as (Hq & Hwt & _).
    repeat split; congruence.
  - (* TOGGLE_PROJECT of a loaded project *)
    split_and!; try assumption; reduce_fields; try assumption;
      try congruence.
    intros n Hn.
    destruct (decide (n = Project.name p)) as [->|Hne].
    + now exists p.
    + apply Hcol.
      destruct (bool_decide (Project.name p ∈ collapsedProjects s)).
      * now apply elem_of_difference in Hn as [Hn _].
      * apply elem_of_union in Hn as [Hn|Hn]; [|exact Hn].
        apply elem_of_singleton in Hn. contradiction.
  - (* SHOW_CREATE *)
    split_and!; try assumption; reduce_fields; try assumption;
      congruence.
  - (* SHOW_DELETE *)
    split_and!; try assumption; reduce_fields;
      destruct (JS.at_ _ _) as [[q|wt q]|] eqn:Hat; reduce_fields;
      try assumption;
      try congruence;
      destruct (Worktree.isMain wt) eqn:Hmain; reduce_fields;
      try assumption;
      try congruence.
  - (* SHOW_HELP *)
    split_and!; try assumption; reduce_fields; try assumption;
      congruence.
Qed.

(** From a state in the list view, whatever the action. *)
Lemma appReducer_deleteGuard s a :
  view s = ListView -> deleteGuard (appReducer s a).
Proof.
  intros Hv. unfold deleteGuard.
  destruct a; reduce_fields; try congruence; try discriminate.
  - destruct (JS.len (filteredItems s) =? 0); reduce_fields; congruence.
  - destruct (JS.at_ _ _) as [[|wt p]|]; reduce_fields; congruence.
  - destruct (JS.at_ _ _) as [[p|wt p]|] eqn:Hat; try congruence.
    destruct (Worktree.isMain wt) eqn:Hmain; [congruence|].
    reduce_fields. intros _. now exists wt, p.
Qed.

Lemma initialState_keysInv loaded : keysInv loaded (initialState loaded).
Proof.
  destruct (initialState_invariant loaded) as [Hd Hc].
  unfold keysInv. split_and!; try assumption; try reflexivity;
    try discriminate.
Qed.

Lemma uiStep_keysInv loaded ui event :
  keysInv loaded (rendered ui) /\ keysInv loaded (current ui) ->
  keysInv loaded (rendered (uiStep ui event)) /\
  keysInv loaded (current (uiStep ui event)).
Proof.
  intros [Hr Hc]. destruct event as [key|]; cbn [uiStep].
  - destruct (handleKey (rendered ui) key) as [a| |] eqn:Hk; try now split.
    cbn [rendered current]. split; [exact Hr|].
    apply handleKey_keyAction with (loaded := loaded) in Hk as [_ Ha];
      [|exact Hr].
    now apply appReducer_keysInv.
  - now split.
Qed.

Lemma fold_uiStep_keysInv loaded events : forall ui,
  keysInv loaded (rendered ui) /\ keysInv loaded (current ui) ->
  keysInv loaded (current (fold_left uiStep events ui)).
Proof.
  induction events as [|event events IH]; intros ui Hui; [apply Hui|].
  apply IH, uiStep_keysInv, Hui.
Qed.

Lemma fold_uiStep_deleteGuard events : forall keyed ui,
  renderBetweenKeys keyed events = true ->
  (keyed = false -> rendered ui = current ui) ->
  deleteGuard (current ui) ->
  deleteGuard (current (fold_left uiStep events ui)).
Proof.
  induction events as [|[key|] events IH]; intros keyed ui Hsp Hsync Hg;
    [exact Hg| |].
  - cbn [renderBetweenKeys] in Hsp. apply andb_true_iff in Hsp as [Hk Hsp].
    destruct keyed; [discriminate|]. specialize (Hsync eq_refl).
    cbn [fold_left]. apply (IH true); [exact Hsp|discriminate|].
    cbn [uiStep].
    destruct (handleKey (rendered ui) key) as [a| |] eqn:Hkey; try exact Hg.
    cbn [current]. apply appReducer_deleteGuard.
    apply handleKey_dispatch in Hkey as [Hv _]. congruence.
  - cbn [renderBetweenKeys] in Hsp. cbn [fold_left].
    apply (IH false); [exact Hsp|reflexivity|exact Hg].
Qed.

(** When the render has come, a key does what [afterKey] says. *)
Lemma uiStep_rendered s key :
  current (uiStep {| rendered := s; current := s |} (Key key)) = afterKey s key.
Proof.
  unfold afterKey. cbn [uiStep rendered current].
  now destruct (handleKey s key).
Qed.

(** X24. Whenever the renders come, in every state that keys lead to from
    the first render the projects are the loaded ones, the filter text is
    empty, the flat list is the unfiltered one of the collapsed set, the
    cursor is in range, every collapsed name is the name of a loaded
    project, and an exit path is the path of a worktree of a loaded project.
    When a render comes between any two keys, the confirm-delete view is
    shown only with the cursor on a worktree that is not main. *)
Theorem keyboard_invariant (loaded : list Project.t)
    (events : list UiEvent) :
  let s := current (uiRun loaded events) in
  (projects s = loaded /\
   filterText s = "" /\
   filteredItems s = buildFilteredItems loaded (collapsedProjects s) "" /\
   0 <= selectedIndex s <= Z.max 0 (JS.len (filteredItems s) - 1) /\
   (forall n, n ∈ collapsedProjects s ->
              exists p, In p loaded /\ Project.name p = n) /\
   (forall path, selectedPath s = Some path ->
                 exists p wt, In p loaded /\ In wt (Project.worktrees p) /\
                              Worktree.path wt = path)) /\
  (renderBetweenKeys false events = true ->
   view s = ConfirmDelete ->
   exists wt p,
     JS.at_ (filteredItems s) (selectedIndex s) = Some (WorktreeItem wt p) /\
     Worktree.isMain wt = false).
Proof.
  cbv zeta. unfold uiRun. split.
  - destruct (fold_uiStep_keysInv loaded events
                {| rendered := initialState loaded;
                   current := initialState loaded |})
      as (Hp & Hf & Hd & Hc & Hcol & Hsel).
    { split; apply initialState_keysInv. }
    unfold derived in Hd. rewrite Hp, Hf in Hd.
    split_and!; try assumption; apply Hc.
  - intros Hsp.
    apply (fold_uiStep_deleteGuard events false); [exact Hsp|reflexivity|].
    discriminate.
Qed.

Lemma keyboard_invariant_witness :
  let s :=
    current
      (uiRun [sampleProject]
         [Key (KeyEvent.mk (Some "j") false false); Render;
          Key (KeyEvent.mk (Some "d") false false)]) in
  exists wt p,
    JS.at_ (filteredItems s) (selectedIndex s) = Some (WorktreeItem wt p) /\
    Worktree.isMain wt = false.
Proof.
  exact (proj2 (keyboard_invariant [sampleProject]
                  [Key (KeyEvent.mk (Some "j") false false); Render;
                   Key (KeyEvent.mk (Some "d") false false)])
           eq_refl eq_refl).
Defined.

(** Without a render between them, [d] on a worktree that is not main and
    then [k] leave the confirm-delete view with the cursor on the main
    worktree: the handler still reads the list view of the last render. *)
Example keys_without_render :
  let s :=
    current
      (uiRun [sampleProject]
         [Key (KeyEvent.mk (Some "j") false false); Render;
          Key (KeyEvent.mk (Some "d") false false);
          Key (KeyEvent.mk (Some "k") false false)]) in
  view s = ConfirmDelete /\
  JS.at_ (filteredItems s) (selectedIndex s)
  = Some (WorktreeItem (sampleWorktree "/r" "main" true) sampleProject).
Proof. split; reflexivity. Qed.
